(** * lua-iconv: a model of luaiconv.c

    The C file binds the POSIX [iconv] family to Lua.  The model below keeps
    the shape of the source: every Lua C function of the file is a
    computation in a small state-and-error monad over the Lua state (stack,
    upvalues, userdata blocks, tables, registry) and the C side of the world
    ([errno], the table of open conversion descriptors).  The conversion
    library itself and the platform constants are not part of the file; they
    are interfaces ([IconvLib], [Platform]) that the code is parametrised
    by.  A ghost [trace] records each call that crosses into the library. *)

From Stdlib Require Import ZArith String Ascii List Lia DecimalString.
From stdpp Require Import base gmap list strings.

(** ** Byte strings

    Lua strings and C buffers are byte strings; [string] is a list of
    8-bit characters. *)

Fixpoint str_take (n : nat) (s : string) : string :=
  match n, s with
  | S n', String c s' => String c (str_take n' s')
  | _, _ => EmptyString
  end.

Fixpoint str_drop (n : nat) (s : string) : string :=
  match n, s with
  | S n', String _ s' => str_drop n' s'
  | _, _ => s
  end.

Definition str_concat (l : list string) : string :=
  foldr String.append EmptyString l.

(** What a C function sees of a Lua string passed as [const char *]: the
    bytes before the first NUL. *)
Fixpoint c_str (s : string) : string :=
  match s with
  | EmptyString => EmptyString
  | String c s' => if Ascii.eqb c Ascii.zero then EmptyString else String c (c_str s')
  end.

(** ** C scalars *)

(** [size_t] is an unsigned 64-bit integer; a cast wraps around. *)
Definition size_t_cast (z : Z) : Z := (z mod 2 ^ 64)%Z.

(** [iconv_t] is a pointer, kept as its address. *)
Definition NULL : Z := 0%Z.
Definition ICONV_T_MINUS1 : Z := (-1)%Z.

(** ** Platform: what <errno.h>, <string.h>, luaconf.h and the Lua number
    formatting provide. *)
Class Platform := {
  EINVAL : Z;
  EILSEQ : Z;
  E2BIG : Z;
  strerror : Z -> string;
  LUAL_BUFFERSIZE : nat;
  lua_number2str : Z -> string
}.

Definition with_buffersize (P : Platform) (n : nat) : Platform :=
  {| EINVAL := @EINVAL P; EILSEQ := @EILSEQ P; E2BIG := @E2BIG P;
     strerror := @strerror P; LUAL_BUFFERSIZE := n;
     lua_number2str := @lua_number2str P |}.

(** ** The conversion library (iconv.h)

    A descriptor has an internal state of type [cdstate].  One call of
    [iconv] on a descriptor with an input buffer and [obleft] bytes of
    output room yields a [conv_result]: the returned [size_t], the value
    stored in [errno] when the call fails, the unread rest of the input,
    the bytes written at the output cursor, and the descriptor's new
    state. *)
Record conv_result (cdstate : Type) := mkConv {
  cr_ret : Z;
  cr_errno : Z;
  cr_inbuf : string;
  cr_written : string;
  cr_state : cdstate
}.
Arguments mkConv {cdstate}.
Arguments cr_ret {cdstate}.
Arguments cr_errno {cdstate}.
Arguments cr_inbuf {cdstate}.
Arguments cr_written {cdstate}.
Arguments cr_state {cdstate}.

Class IconvLib := {
  cdstate : Type;
  (** the registry of encodings: the initial state of a descriptor for
      (tocode, fromcode), or the [errno] of the refusal *)
  lib_open : string -> string -> cdstate + Z;
  (** the address handed out for a new descriptor *)
  lib_alloc : gmap Z cdstate -> Z;
  (** [iconv(cd, &inbuf, &ibleft, &outbuf, &obleft)] *)
  lib_conv : cdstate -> string -> nat -> conv_result cdstate;
  (** [iconv(cd, NULL, NULL, NULL, NULL)] *)
  lib_reset : cdstate -> cdstate;
  (** [iconv_close]: [None] when the resources were released, the [errno]
      otherwise *)
  lib_release : cdstate -> option Z
}.

(** ** Lua values *)

Inductive cfunction := F_new | F_iconv | F_close | F_closure | F_open.

#[warnings="-register-all"]
Inductive lua_value :=
| LNil
| LBoolean (b : bool)
| LNumber (n : Z)
| LString (s : string)
| LTable (r : nat)
| LUserdata (r : nat)
| LFunction (f : cfunction) (upvals : list lua_value).

(** A full userdata block of this program holds one [iconv_t]. *)
Record udata := mkUdata {
  ud_cd : Z;
  ud_meta : option nat
}.

Record table := mkTable {
  t_fields : gmap string lua_value;
  t_meta : option nat
}.

Inductive lua_index :=
| Idx (i : Z)
| lua_upvalueindex (i : nat).

Inductive lua_error :=
| ArgError (narg : Z) (expected : string).

(** ** Calls into the library, as they are made *)
Inductive event_of (C : Type) :=
| EvOpen (tocode fromcode : string) (cd : Z)
| EvClose (cd : Z) (r : Z)
| EvConv (cd : Z) (inbuf : string) (obleft : nat) (r : conv_result C)
| EvReset (cd : Z).
Arguments EvOpen {C}.
Arguments EvClose {C}.
Arguments EvConv {C}.
Arguments EvReset {C}.
Abbreviation event := (event_of cdstate).

(** ** The state: a Lua state and the C world around it *)
Record state_of (C : Type) := mkState {
  stack : list lua_value;
  upvalues : list lua_value;
  udatas : list udata;
  tables : list table;
  registry : gmap string lua_value;
  errno : Z;
  descs : gmap Z C;
  trace : list (event_of C)
}.
Arguments stack {C}.
Arguments upvalues {C}.
Arguments udatas {C}.
Arguments tables {C}.
Arguments registry {C}.
Arguments errno {C}.
Arguments descs {C}.
Arguments trace {C}.
Abbreviation state := (state_of cdstate).

Definition set_stack `{IconvLib} (f : list lua_value -> list lua_value) (s : state) : state :=
  mkState _ (f (stack s)) (upvalues s) (udatas s) (tables s) (registry s)
          (errno s) (descs s) (trace s).

Definition set_upvalues `{IconvLib} (u : list lua_value) (s : state) : state :=
  mkState _ (stack s) u (udatas s) (tables s) (registry s)
          (errno s) (descs s) (trace s).

Definition set_udatas `{IconvLib} (f : list udata -> list udata) (s : state) : state :=
  mkState _ (stack s) (upvalues s) (f (udatas s)) (tables s) (registry s)
          (errno s) (descs s) (trace s).

Definition set_tables `{IconvLib} (f : list table -> list table) (s : state) : state :=
  mkState _ (stack s) (upvalues s) (udatas s) (f (tables s)) (registry s)
          (errno s) (descs s) (trace s).

Definition set_registry `{IconvLib}
  (f : gmap string lua_value -> gmap string lua_value) (s : state) : state :=
  mkState _ (stack s) (upvalues s) (udatas s) (tables s) (f (registry s))
          (errno s) (descs s) (trace s).

Definition set_errno `{IconvLib} (e : Z) (s : state) : state :=
  mkState _ (stack s) (upvalues s) (udatas s) (tables s) (registry s)
          e (descs s) (trace s).

Definition set_descs `{IconvLib} (f : gmap Z cdstate -> gmap Z cdstate) (s : state) : state :=
  mkState _ (stack s) (upvalues s) (udatas s) (tables s) (registry s)
          (errno s) (f (descs s)) (trace s).

Definition log `{IconvLib} (e : event) (s : state) : state :=
  mkState _ (stack s) (upvalues s) (udatas s) (tables s) (registry s)
          (errno s) (descs s) (trace s ++ [e]).

Definition initial_state `{IconvLib} : state :=
  mkState _ [] [] [] [] ∅ 0%Z ∅ [].

(** ** The monad

    A computation runs on a state and either yields a value and a new
    state, raises a Lua error (the [longjmp] of [luaL_error]), has no
    defined behaviour in C, or runs out of loop fuel. *)
Inductive result_of (C : Type) (A : Type) :=
| Ok (a : A) (s : state_of C)
| Raised (e : lua_error) (s : state_of C)
| Undefined
| OutOfFuel.
Arguments Ok {_ A}.
Arguments Raised {_ A}.
Arguments Undefined {_ A}.
Arguments OutOfFuel {_ A}.
Abbreviation result := (result_of cdstate).

Definition M `{IconvLib} (A : Type) : Type := state -> result A.

Definition ret `{IconvLib} {A} (a : A) : M A := fun s => Ok a s.

Definition bind `{IconvLib} {A B} (c : M A) (k : A -> M B) : M B :=
  fun s =>
    match c s with
    | Ok a s' => k a s'
    | Raised e s' => Raised e s'
    | Undefined => Undefined
    | OutOfFuel => OutOfFuel
    end.

Notation "x <- c1 ;; c2" := (bind c1 (fun x => c2))
  (at level 100, c1 at next level, right associativity).
Notation "c1 ;;; c2" := (bind c1 (fun _ => c2))
  (at level 100, right associativity).

Definition gets `{IconvLib} {A} (f : state -> A) : M A := fun s => Ok (f s) s.
Definition modify `{IconvLib} (f : state -> state) : M unit := fun s => Ok tt (f s).
Definition raise `{IconvLib} {A} (e : lua_error) : M A := fun s => Raised e s.
Definition undefined `{IconvLib} {A} : M A := fun _ => Undefined.
Definition out_of_fuel `{IconvLib} {A} : M A := fun _ => OutOfFuel.

(** ** The part of the Lua C API the file uses *)

Inductive lua_type_tag :=
| LUA_TNONE | LUA_TNIL | LUA_TBOOLEAN | LUA_TNUMBER | LUA_TSTRING
| LUA_TTABLE | LUA_TFUNCTION | LUA_TUSERDATA.

(** Stack positions: index 1 is the first argument, index -1 the top. *)
Definition index2pos (n : nat) (i : Z) : option nat :=
  if (0 <? i)%Z then
    if (i <=? Z.of_nat n)%Z then Some (Z.to_nat (i - 1)) else None
  else if (i <? 0)%Z then
    if (- i <=? Z.of_nat n)%Z then Some (Z.to_nat (Z.of_nat n + i)) else None
  else None.

Definition index2value `{IconvLib} (s : state) (i : lua_index) : option lua_value :=
  match i with
  | Idx i =>
      match index2pos (length (stack s)) i with
      | Some p => stack s !! p
      | None => None
      end
  | lua_upvalueindex O => None
  | lua_upvalueindex (S k) => upvalues s !! k
  end.

Definition type_of (v : lua_value) : lua_type_tag :=
  match v with
  | LNil => LUA_TNIL
  | LBoolean _ => LUA_TBOOLEAN
  | LNumber _ => LUA_TNUMBER
  | LString _ => LUA_TSTRING
  | LTable _ => LUA_TTABLE
  | LUserdata _ => LUA_TUSERDATA
  | LFunction _ _ => LUA_TFUNCTION
  end.

Definition push `{IconvLib} (v : lua_value) : M unit :=
  modify (set_stack (fun st => st ++ [v])).

Definition lua_pushnil `{IconvLib} : M unit := push LNil.
Definition lua_pushstring `{IconvLib} (s : string) : M unit := push (LString s).
Definition lua_pushliteral `{IconvLib} (s : string) : M unit := push (LString s).
Definition lua_pushinteger `{IconvLib} (n : Z) : M unit := push (LNumber n).
Definition lua_pushcfunction `{IconvLib} (f : cfunction) : M unit := push (LFunction f []).

Definition lua_pushvalue `{IconvLib} (i : Z) : M unit :=
  fun s =>
    match index2value s (Idx i) with
    | Some v => push v s
    | None => Undefined
    end.

Definition lua_type `{IconvLib} (i : Z) : M lua_type_tag :=
  gets (fun s => match index2value s (Idx i) with
                 | Some v => type_of v
                 | None => LUA_TNONE
                 end).

Definition lua_remove `{IconvLib} (i : Z) : M unit :=
  fun s =>
    match index2pos (length (stack s)) i with
    | Some p => Ok tt (set_stack (delete p) s)
    | None => Undefined
    end.

Definition lua_pop `{IconvLib} (n : nat) : M unit :=
  fun s =>
    if n <=? length (stack s)
    then Ok tt (set_stack (take (length (stack s) - n)) s)
    else Undefined.

(** [lua_pushcclosure(L, f, n)]: the top [n] values become the upvalues. *)
Definition lua_pushcclosure `{IconvLib} (f : cfunction) (n : nat) : M unit :=
  fun s =>
    if n <=? length (stack s)
    then let k := length (stack s) - n in
         Ok tt (set_stack (fun st => take k st ++ [LFunction f (drop k st)]) s)
    else Undefined.

(** Userdata blocks.  A fresh block is returned by reference; the program
    stores its descriptor into it at once. *)
Definition lua_newuserdata `{IconvLib} : M nat :=
  fun s =>
    let r := length (udatas s) in
    Ok r (set_stack (fun st => st ++ [LUserdata r])
            (set_udatas (fun u => u ++ [mkUdata 0 None]) s)).

Definition ud_load `{IconvLib} (p : nat) : M Z :=
  fun s =>
    match udatas s !! p with
    | Some u => Ok (ud_cd u) s
    | None => Undefined
    end.

Definition ud_store `{IconvLib} (p : nat) (v : Z) : M unit :=
  fun s =>
    match udatas s !! p with
    | Some u => Ok tt (set_udatas (fun l => <[p := mkUdata v (ud_meta u)]> l) s)
    | None => Undefined
    end.

(** [lua_touserdata]: the block's address, or the null pointer. *)
Definition lua_touserdata `{IconvLib} (i : lua_index) : M (option nat) :=
  gets (fun s => match index2value s i with
                 | Some (LUserdata r) => Some r
                 | _ => None
                 end).

(** Reading through a pointer that may be null. *)
Definition deref `{IconvLib} (p : option nat) : M Z :=
  match p with
  | Some r => ud_load r
  | None => undefined
  end.

Definition luaL_getmetatable `{IconvLib} (tname : string) : M unit :=
  fun s => push (default LNil (registry s !! tname)) s.

Definition meta_of (v : lua_value) : option (option nat) :=
  match v with
  | LNil => Some None
  | LTable r => Some (Some r)
  | _ => None
  end.

(** [lua_setmetatable(L, i)]: pops a table or nil and installs it as the
    metatable of the table or userdata at index [i]. *)
Definition lua_setmetatable `{IconvLib} (i : Z) : M unit :=
  fun s =>
    match index2value s (Idx i), index2value s (Idx (-1)) with
    | Some target, Some top =>
        match meta_of top with
        | Some mt =>
            let s' := set_stack (fun st => take (length st - 1) st) s in
            match target with
            | LUserdata r =>
                match udatas s !! r with
                | Some u => Ok tt (set_udatas (fun l => <[r := mkUdata (ud_cd u) mt]> l) s')
                | None => Undefined
                end
            | LTable r =>
                match tables s !! r with
                | Some t => Ok tt (set_tables (fun l => <[r := mkTable (t_fields t) mt]> l) s')
                | None => Undefined
                end
            | _ => Ok tt s'
            end
        | None => Undefined
        end
    | _, _ => Undefined
    end.

(** [luaL_checkudata(L, narg, tname)]: the block's address when the value
    is a userdata whose metatable is the one registered under [tname]; an
    argument error otherwise. *)
Definition luaL_checkudata `{IconvLib} (narg : Z) (tname : string) : M nat :=
  fun s =>
    match index2value s (Idx narg) with
    | Some (LUserdata r) =>
        match udatas s !! r with
        | Some u =>
            match ud_meta u, registry s !! tname with
            | Some m, Some (LTable m') =>
                if decide (m = m') then Ok r s else Raised (ArgError narg tname) s
            | _, _ => Raised (ArgError narg tname) s
            end
        | None => Undefined
        end
    | _ => Raised (ArgError narg tname) s
    end.

(** [luaL_checklstring]: a string is returned as it is, a number is
    converted in place, anything else is an argument error. *)
Definition luaL_checklstring `{IconvLib} `{Platform} (narg : Z) : M string :=
  fun s =>
    match index2value s (Idx narg) with
    | Some (LString str) => Ok str s
    | Some (LNumber n) =>
        match index2pos (length (stack s)) narg with
        | Some p =>
            Ok (lua_number2str n)
               (set_stack (fun st => <[p := LString (lua_number2str n)]> st) s)
        | None => Undefined
        end
    | _ => Raised (ArgError narg "string") s
    end.

(** [luaL_checkstring] yields a [const char *]: callees read up to the
    first NUL. *)
Definition luaL_checkstring `{IconvLib} `{Platform} (narg : Z) : M string :=
  str <- luaL_checklstring narg ;;
  ret (c_str str).

Definition lua_createtable `{IconvLib} : M unit :=
  fun s =>
    let r := length (tables s) in
    Ok tt (set_stack (fun st => st ++ [LTable r])
             (set_tables (fun l => l ++ [mkTable ∅ None]) s)).

Definition table_set (k : string) (v : lua_value) (t : table) : table :=
  match v with
  | LNil => mkTable (delete k (t_fields t)) (t_meta t)
  | _ => mkTable (<[k := v]> (t_fields t)) (t_meta t)
  end.

(** [lua_setfield(L, i, k)]: [t[k] = v] for the table at [i] and the value
    on top, which is popped. *)
Definition lua_setfield `{IconvLib} (i : Z) (k : string) : M unit :=
  fun s =>
    match index2value s (Idx i), index2value s (Idx (-1)) with
    | Some (LTable r), Some v =>
        match tables s !! r with
        | Some t =>
            Ok tt (set_stack (fun st => take (length st - 1) st)
                     (set_tables (fun l => <[r := table_set k v t]> l) s))
        | None => Undefined
        end
    | _, _ => Undefined
    end.

(** [lua_settable(L, i)]: [t[k] = v] with the key below the top and the
    value on top; both are popped.  The tables of this program have
    string keys only. *)
Definition lua_settable `{IconvLib} (i : Z) : M unit :=
  fun s =>
    match index2value s (Idx i), index2value s (Idx (-2)), index2value s (Idx (-1)) with
    | Some (LTable r), Some (LString k), Some v =>
        match tables s !! r with
        | Some t =>
            Ok tt (set_stack (fun st => take (length st - 2) st)
                     (set_tables (fun l => <[r := table_set k v t]> l) s))
        | None => Undefined
        end
    | _, _, _ => Undefined
    end.

(** [luaL_newmetatable]: 0 and the registered table when the name is
    taken, otherwise 1 and a new table, registered under the name. *)
Definition luaL_newmetatable `{IconvLib} (tname : string) : M Z :=
  fun s =>
    match registry s !! tname with
    | Some v => Ok 0%Z (set_stack (fun st => st ++ [v]) s)
    | None =>
        let r := length (tables s) in
        Ok 1%Z (set_stack (fun st => st ++ [LTable r])
                  (set_registry (fun g => <[tname := LTable r]> g)
                     (set_tables (fun l => l ++ [mkTable ∅ None]) s)))
    end.

(** [luaL_newlib]: a new table with one field per registered function. *)
Definition luaL_newlib `{IconvLib} (l : list (string * cfunction)) : M unit :=
  fun s =>
    let r := length (tables s) in
    let fields := foldl (fun m kf => <[fst kf := LFunction (snd kf) []]> m) ∅ l in
    Ok tt (set_stack (fun st => st ++ [LTable r])
             (set_tables (fun ts => ts ++ [mkTable fields None]) s)).

(** [luaL_Buffer]: the bytes collected so far.  [iconv] writes at the
    buffer's cursor; [luaL_addsize] then claims the first [n] bytes
    written there. *)
Definition luaL_Buffer := string.

Definition luaL_buffinit `{IconvLib} : M luaL_Buffer := ret EmptyString.
Definition luaL_prepbuffer `{IconvLib} (B : luaL_Buffer) : M unit := ret tt.
Definition luaL_addsize (B : luaL_Buffer) (scratch : string) (n : nat) : luaL_Buffer :=
  B +:+ str_take n scratch.
Definition luaL_pushresult `{IconvLib} (B : luaL_Buffer) : M unit := push (LString B).

(** ** The library entry points, on the table of open descriptors *)

Definition iconv_open `{IconvLib} (tocode fromcode : string) : M Z :=
  fun s =>
    match lib_open tocode fromcode with
    | inl st0 =>
        let cd := lib_alloc (descs s) in
        Ok cd (log (EvOpen tocode fromcode cd) (set_descs (insert cd st0) s))
    | inr e =>
        Ok ICONV_T_MINUS1
           (log (EvOpen tocode fromcode ICONV_T_MINUS1) (set_errno e s))
    end.

(** A descriptor that is not open is a dangling pointer. *)
Definition iconv_close `{IconvLib} (cd : Z) : M Z :=
  fun s =>
    match descs s !! cd with
    | Some st =>
        match lib_release st with
        | None => Ok 0%Z (log (EvClose cd 0) (set_descs (delete cd) s))
        | Some e => Ok (-1)%Z (log (EvClose cd (-1)) (set_errno e s))
        end
    | None => Undefined
    end.

Definition iconv `{IconvLib} (cd : Z) (inbuf : string) (obleft : nat)
  : M (conv_result cdstate) :=
  fun s =>
    match descs s !! cd with
    | Some st =>
        let r := lib_conv st inbuf obleft in
        let s1 := set_descs (insert cd (cr_state r)) s in
        let s2 := if (cr_ret r =? size_t_cast (-1))%Z
                  then set_errno (cr_errno r) s1 else s1 in
        Ok r (log (EvConv cd inbuf obleft r) s2)
    | None => Undefined
    end.

(** [iconv(cd, NULL, NULL, NULL, NULL)] *)
Definition iconv_NULL `{IconvLib} (cd : Z) : M unit :=
  fun s =>
    match descs s !! cd with
    | Some st => Ok tt (log (EvReset cd) (set_descs (insert cd (lib_reset st)) s))
    | None => Undefined
    end.

(** ** luaiconv.c *)

Definition LIB_NAME : string := "iconv".
Definition LIB_VERSION : string := LIB_NAME +:+ " 7".
Definition ICONV_TYPENAME : string := "iconv_t".

Definition Liconv_new `{IconvLib} `{Platform} : M Z :=
  tocode <- luaL_checkstring 1 ;;
  fromcode <- luaL_checkstring 2 ;;
  cd <- iconv_open tocode fromcode ;;
  if negb (cd =? ICONV_T_MINUS1)%Z then
    p <- lua_newuserdata ;;
    ud_store p cd ;;;
    luaL_getmetatable ICONV_TYPENAME ;;;
    lua_setmetatable (-2) ;;;
    ret 1%Z
  else
    lua_pushnil ;;;         (* error *)
    e <- gets errno ;;
    lua_pushstring (strerror e) ;;;
    ret 2%Z.

Definition Liconv_close `{IconvLib} : M Z :=
  cd <- luaL_checkudata 1 ICONV_TYPENAME ;;
  v <- ud_load cd ;;
  if negb (v =? NULL)%Z then
    r <- iconv_close v ;;
    if (r =? 0)%Z then
      (* Mark the pointer as freed *)
      ud_store cd NULL ;;;
      ret 0%Z
    else ret 0%Z
  else ret 0%Z.

(** The [do ... while (ret != 0)] loop of [Liconv_convert].  It ends with
    the buffer when the loop is left at the bottom, and with the number of
    results when the function returns from inside the loop. *)
Fixpoint convert_loop `{IconvLib} `{Platform} (fuel : nat) (cd : Z)
  (inbuf : string) (obleft : nat) (B : luaL_Buffer) : M (luaL_Buffer + Z) :=
  match fuel with
  | O => out_of_fuel
  | S fuel' =>
      let size := obleft in
      r <- iconv cd inbuf obleft ;;
      let inbuf := cr_inbuf r in
      let obleft := obleft - String.length (cr_written r) in
      let B := luaL_addsize B (cr_written r) (size - obleft) in
      if (cr_ret r =? size_t_cast (-1))%Z then
        e <- gets errno ;;
        if (e =? E2BIG)%Z then
          luaL_prepbuffer B ;;;
          convert_loop fuel' cd inbuf LUAL_BUFFERSIZE B
        else
          luaL_pushresult B ;;;
          lua_pushnil ;;;
          e1 <- gets errno ;;
          lua_pushstring (strerror e1) ;;;
          lua_pushvalue (-3) ;;;
          e2 <- gets errno ;;
          lua_pushinteger e2 ;;;
          ret (inr 4%Z)
      else if negb (cr_ret r =? size_t_cast 0)%Z then
        convert_loop fuel' cd inbuf obleft B
      else ret (inl B)
  end.

Definition Liconv_convert `{IconvLib} `{Platform} (fuel : nat) (cd : Z)
  (inbuf : string) : M Z :=
  if (cd =? NULL)%Z then
    lua_pushnil ;;;
    lua_pushstring "invalid iconv handle" ;;;
    ret 2%Z
  else
    B <- luaL_buffinit ;;
    luaL_prepbuffer B ;;;
    l <- convert_loop fuel cd inbuf LUAL_BUFFERSIZE B ;;
    match l with
    | inr n => ret n
    | inl B =>
        iconv_NULL cd ;;;   (* set iconv to initial state *)
        luaL_pushresult B ;;;
        ret 1%Z   (* Done *)
    end.

Definition Liconv `{IconvLib} `{Platform} (fuel : nat) : M Z :=
  p <- luaL_checkudata 1 ICONV_TYPENAME ;;
  cd <- ud_load p ;;
  inbuf <- luaL_checklstring 2 ;;
  Liconv_convert fuel cd inbuf.

Definition Liconv_closure `{IconvLib} `{Platform} (fuel : nat) : M Z :=
  p <- lua_touserdata (lua_upvalueindex 1) ;;
  cd <- deref p ;;
  inbuf <- luaL_checklstring 1 ;;
  Liconv_convert fuel cd inbuf.

Definition Liconv_open `{IconvLib} `{Platform} : M Z :=
  t <- lua_type 1 ;;
  (match t with
   | LUA_TTABLE => lua_remove 1
   | _ => ret tt
   end) ;;;
  rets <- Liconv_new ;;
  (if (rets =? 1)%Z then lua_pushcclosure F_closure 1 else ret tt) ;;;
  ret rets.

(** The build without the [iconvlist] extension. *)
Definition iconv_funcs : list (string * cfunction) :=
  [ ("new", F_new); ("iconv", F_iconv); ("delete", F_close) ].

Definition luaopen_iconv `{IconvLib} `{Platform} : M Z :=
  luaL_newlib iconv_funcs ;;;
  lua_createtable ;;;
  lua_pushcfunction F_open ;;;
  lua_setfield (-2) "__call" ;;;
  lua_setmetatable (-2) ;;;

  lua_pushinteger EILSEQ ;;;
  lua_setfield (-2) "ERROR_INCOMPLETE" ;;;
  lua_pushinteger EINVAL ;;;
  lua_setfield (-2) "ERROR_INVALID" ;;;

  lua_pushliteral "VERSION" ;;;
  lua_pushstring LIB_VERSION ;;;
  lua_settable (-3) ;;;

  luaL_newmetatable ICONV_TYPENAME ;;;
  lua_pushvalue (-2) ;;;
  lua_setfield (-2) "__index" ;;;
  lua_pushcfunction F_close ;;;
  lua_setfield (-2) "__gc" ;;;
  lua_pop 1 ;;;

  ret 1%Z.

(** ** Calling a C function from Lua

    The callee runs on a frame holding the arguments and its upvalues; the
    [n] it returns says how many values on top of its stack are the
    results.  The caller's frame is restored afterwards. *)
Definition cfunction_body `{IconvLib} `{Platform} (fuel : nat) (f : cfunction) : M Z :=
  match f with
  | F_new => Liconv_new
  | F_iconv => Liconv fuel
  | F_close => Liconv_close
  | F_closure => Liconv_closure fuel
  | F_open => Liconv_open
  end.

Definition lua_call `{IconvLib} (f : M Z) (args ups : list lua_value)
  : M (list lua_value) :=
  fun s =>
    let restore s' := set_upvalues (upvalues s) (set_stack (fun _ => stack s) s') in
    match f (set_upvalues ups (set_stack (fun _ => args) s)) with
    | Ok n s' =>
        if ((0 <=? n) && (n <=? Z.of_nat (length (stack s'))))%Z
        then Ok (drop (length (stack s') - Z.to_nat n) (stack s')) (restore s')
        else Undefined
    | Raised e s' => Raised e (restore s')
    | Undefined => Undefined
    | OutOfFuel => OutOfFuel
    end.

(** Calling a function value. *)
Definition lua_invoke `{IconvLib} `{Platform} (fuel : nat) (fv : lua_value)
  (args : list lua_value) : M (list lua_value) :=
  match fv with
  | LFunction f ups => lua_call (cfunction_body fuel f) args ups
  | _ => undefined
  end.

(** ** What one run of the conversion loop does, seen from the descriptor

    [loop_run] follows [convert_loop] on the descriptor's state alone: how
    the loop ends, the descriptor's last state, and the calls of [iconv]
    it made (input, output room, result), oldest first. *)
Inductive loop_end :=
| LoopDone (B : luaL_Buffer)
| LoopFailed (B : luaL_Buffer) (e : Z)
| LoopFuel.

Definition conv_call `{IconvLib} : Type := string * nat * conv_result cdstate.

Fixpoint loop_run `{IconvLib} `{Platform} (fuel : nat) (st : cdstate)
  (inbuf : string) (obleft : nat) (B : luaL_Buffer)
  : loop_end * cdstate * list conv_call :=
  match fuel with
  | O => (LoopFuel, st, [])
  | S fuel' =>
      let r := lib_conv st inbuf obleft in
      let obleft' := obleft - String.length (cr_written r) in
      let B' := luaL_addsize B (cr_written r) (obleft - obleft') in
      if (cr_ret r =? size_t_cast (-1))%Z then
        if (cr_errno r =? E2BIG)%Z then
          let '(e, st', calls) :=
            loop_run fuel' (cr_state r) (cr_inbuf r) LUAL_BUFFERSIZE B' in
          (e, st', (inbuf, obleft, r) :: calls)
        else (LoopFailed B' (cr_errno r), cr_state r, [(inbuf, obleft, r)])
      else if negb (cr_ret r =? size_t_cast 0)%Z then
        let '(e, st', calls) :=
          loop_run fuel' (cr_state r) (cr_inbuf r) obleft' B' in
        (e, st', (inbuf, obleft, r) :: calls)
      else (LoopDone B', cr_state r, [(inbuf, obleft, r)])
  end.

Definition call_event `{IconvLib} (cd : Z) (c : conv_call) : event :=
  EvConv cd c.1.1 c.1.2 c.2.

Definition call_written `{IconvLib} (c : conv_call) : string := cr_written c.2.

(** [errno] after a sequence of calls: a failing call stores its code,
    a successful one leaves [errno] alone. *)
Definition errno_after `{IconvLib} (e0 : Z) (calls : list conv_call) : Z :=
  foldl (fun e c => if (cr_ret c.2 =? size_t_cast (-1))%Z then cr_errno c.2 else e)
        e0 calls.

(** The states a descriptor can be in after its library has worked on it. *)
Inductive evolves `{IconvLib} (s0 : cdstate) : cdstate -> Prop :=
| evolves_refl : evolves s0 s0
| evolves_conv s inbuf obleft :
    evolves s0 s -> evolves s0 (cr_state (lib_conv s inbuf obleft))
| evolves_reset s :
    evolves s0 s -> evolves s0 (lib_reset s).

(** ** Handles *)

(** The userdata block [h] is a conversion handle holding [cd]: its
    metatable is the one registered under [ICONV_TYPENAME]. *)
Definition is_handle `{IconvLib} (s : state) (h : nat) (cd : Z) : Prop :=
  exists m, udatas s !! h = Some (mkUdata cd (Some m))
            /\ registry s !! ICONV_TYPENAME = Some (LTable m).

(** A field of the table a value refers to. *)
Definition field_of `{IconvLib} (s : state) (v : lua_value) (k : string)
  : option lua_value :=
  match v with
  | LTable r =>
      match tables s !! r with
      | Some t => t_fields t !! k
      | None => None
      end
  | _ => None
  end.

(** The library calls a computation added to the trace. *)
Definition new_events `{IconvLib} (s s' : state) : list event :=
  drop (length (trace s)) (trace s').

(** ** A small conversion library

    An instance of [IconvLib] on which the scenarios are run: ISO-8859-1
    and UTF-8 in both directions, UTF-8 revalidation, and a 7-bit
    locking-shift encoding of ISO-8859-1 (SO selects the upper half, SI
    the lower one), which carries a shift state from call to call.  It
    reports an incomplete trailing sequence as [EINVAL], an illegal or
    unconvertible one as [EILSEQ] and a full output buffer as [E2BIG], as
    iconv(3) does. *)

Inductive mini_pair :=
| Latin1_to_UTF8 | UTF8_to_Latin1 | UTF8_to_UTF8 | Shift7_to_Latin1.

Record mini_state := mkMini {
  ms_pair : mini_pair;
  ms_shift : bool
}.

Definition byte_val (c : ascii) : N := N_of_ascii c.
Definition chr (n : N) : ascii := ascii_of_N n.
Definition str1 (n : N) : string := String (chr n) EmptyString.
Definition str2 (a b : N) : string := String (chr a) (str1 b).

Definition is_cont (c : ascii) : bool :=
  ((128 <=? byte_val c) && (byte_val c <? 192))%N.

Inductive utf8_char :=
| U_ok (extra : nat) (cp : N)
| U_incomplete
| U_illegal.

(** Decoding the UTF-8 sequence at the head of a non-empty input;
    [extra] counts the bytes after the first. *)
Definition utf8_decode (s : string) : utf8_char :=
  match s with
  | EmptyString => U_incomplete
  | String c0 r0 =>
      let b0 := byte_val c0 in
      if (b0 <? 128)%N then U_ok 0 b0
      else if (b0 <? 194)%N then U_illegal
      else if (b0 <? 224)%N then
        match r0 with
        | EmptyString => U_incomplete
        | String c1 _ =>
            if is_cont c1
            then U_ok 1 ((b0 - 192) * 64 + (byte_val c1 - 128))%N
            else U_illegal
        end
      else if (b0 <? 240)%N then
        match r0 with
        | EmptyString => U_incomplete
        | String c1 r1 =>
            if is_cont c1 then
              match r1 with
              | EmptyString => U_incomplete
              | String c2 _ =>
                  if is_cont c2
                  then U_ok 2 (((b0 - 224) * 64 + (byte_val c1 - 128)) * 64
                               + (byte_val c2 - 128))%N
                  else U_illegal
              end
            else U_illegal
        end
      else if (b0 <? 245)%N then
        match r0 with
        | EmptyString => U_incomplete
        | String c1 r1 =>
            if is_cont c1 then
              match r1 with
              | EmptyString => U_incomplete
              | String c2 r2 =>
                  if is_cont c2 then
                    match r2 with
                    | EmptyString => U_incomplete
                    | String c3 _ =>
                        if is_cont c3
                        then U_ok 3 ((((b0 - 240) * 64 + (byte_val c1 - 128)) * 64
                                      + (byte_val c2 - 128)) * 64
                                     + (byte_val c3 - 128))%N
                        else U_illegal
                    end
                  else U_illegal
              end
            else U_illegal
        end
      else U_illegal
  end.

Inductive decoded :=
| DChar (extra : nat) (out : string) (sh : bool)
| DIncomplete
| DIllegal.

(** One character of a non-empty input: the bytes it takes beyond the
    first, the bytes it becomes, and the shift state after it. *)
Definition mini_step (p : mini_pair) (sh : bool) (s : string) : decoded :=
  match p with
  | Latin1_to_UTF8 =>
      match s with
      | EmptyString => DIncomplete
      | String c _ =>
          let b := byte_val c in
          if (b <? 128)%N then DChar 0 (str1 b) sh
          else DChar 0 (str2 (192 + b / 64) (128 + b mod 64)) sh
      end
  | UTF8_to_Latin1 =>
      match utf8_decode s with
      | U_ok k cp => if (cp <? 256)%N then DChar k (str1 cp) sh else DIllegal
      | U_incomplete => DIncomplete
      | U_illegal => DIllegal
      end
  | UTF8_to_UTF8 =>
      match utf8_decode s with
      | U_ok k _ => DChar k (str_take (S k) s) sh
      | U_incomplete => DIncomplete
      | U_illegal => DIllegal
      end
  | Shift7_to_Latin1 =>
      match s with
      | EmptyString => DIncomplete
      | String c _ =>
          let b := byte_val c in
          if (b =? 14)%N then DChar 0 EmptyString true
          else if (b =? 15)%N then DChar 0 EmptyString false
          else if (b <? 128)%N then DChar 0 (str1 (if sh then b + 128 else b)%N) sh
          else DIllegal
      end
  end.

(** [iconv] of the small library: characters are converted one after
    another while their output fits.  Every step takes at least one byte,
    so the input's length is fuel enough. *)
Fixpoint mini_run `{Platform} (fuel : nat) (p : mini_pair) (sh : bool)
  (inbuf : string) (obleft : nat) : conv_result mini_state :=
  match fuel, inbuf with
  | _, EmptyString | O, _ => mkConv 0 0 inbuf EmptyString (mkMini p sh)
  | S fuel', _ =>
      match mini_step p sh inbuf with
      | DChar k out sh' =>
          if String.length out <=? obleft then
            let r := mini_run fuel' p sh' (str_drop (S k) inbuf)
                              (obleft - String.length out) in
            mkConv (cr_ret r) (cr_errno r) (cr_inbuf r)
                   (out +:+ cr_written r) (cr_state r)
          else mkConv (size_t_cast (-1)) E2BIG inbuf EmptyString (mkMini p sh)
      | DIncomplete => mkConv (size_t_cast (-1)) EINVAL inbuf EmptyString (mkMini p sh)
      | DIllegal => mkConv (size_t_cast (-1)) EILSEQ inbuf EmptyString (mkMini p sh)
      end
  end.

Definition mini_conv `{Platform} (st : mini_state) (inbuf : string) (obleft : nat)
  : conv_result mini_state :=
  mini_run (String.length inbuf) (ms_pair st) (ms_shift st) inbuf obleft.

Definition mini_open `{Platform} (tocode fromcode : string) : mini_state + Z :=
  if decide (tocode = "UTF-8" /\ fromcode = "ISO-8859-1")
  then inl (mkMini Latin1_to_UTF8 false)
  else if decide (tocode = "ISO-8859-1" /\ fromcode = "UTF-8")
  then inl (mkMini UTF8_to_Latin1 false)
  else if decide (tocode = "UTF-8" /\ fromcode = "UTF-8")
  then inl (mkMini UTF8_to_UTF8 false)
  else if decide (tocode = "ISO-8859-1" /\ fromcode = "X-SHIFT7")
  then inl (mkMini Shift7_to_Latin1 false)
  else inr EINVAL.

(** Addresses are handed out above every open descriptor's. *)
Definition mini_alloc (d : gmap Z mini_state) : Z :=
  (map_fold (fun k _ acc => Z.max k acc) 4095 d + 1)%Z.

(** [stuck] is the [errno] of a release that never succeeds, if any. *)
Definition mini_lib (P : Platform) (stuck : option Z) : IconvLib :=
  {| cdstate := mini_state;
     lib_open := mini_open;
     lib_alloc := mini_alloc;
     lib_conv := mini_conv;
     lib_reset := fun st => mkMini (ms_pair st) false;
     lib_release := fun _ => stuck |}.

(** Linux values of the constants, a four-byte scratch chunk. *)
Definition linux_messages (e : Z) : string :=
  if (e =? 22)%Z then "Invalid argument"
  else if (e =? 84)%Z then "Invalid or incomplete multibyte or wide character"
  else if (e =? 7)%Z then "Argument list too long"
  else if (e =? 9)%Z then "Bad file descriptor"
  else "Unknown error".

Definition linux4 : Platform :=
  {| EINVAL := 22; EILSEQ := 84; E2BIG := 7;
     strerror := linux_messages;
     LUAL_BUFFERSIZE := 4;
     lua_number2str := fun n => NilZero.string_of_int (Z.to_int n) |}.

(** The state after a run of the loop on descriptor [cd]: the descriptor's
    new state, [errno], and the calls added to the trace. *)
Definition after_calls `{IconvLib} (cd : Z) (st' : cdstate)
  (calls : list conv_call) (s : state) : state :=
  mkState _ (stack s) (upvalues s) (udatas s) (tables s) (registry s)
          (errno_after (errno s) calls)
          (<[cd := st']> (descs s))
          (trace s ++ map (call_event cd) calls).

(** The state in which the module has just been loaded. *)
Definition loaded_state `{IconvLib} `{Platform} : state :=
  match lua_call luaopen_iconv [] [] initial_state with
  | Ok _ s => s
  | _ => initial_state
  end.


(** ** Vocabulary of the statements *)

(** An argument that [luaL_checklstring] accepts, and the bytes it yields. *)
Definition as_string `{Platform} (v : lua_value) : option string :=
  match v with
  | LString s => Some s
  | LNumber n => Some (lua_number2str n)
  | _ => None
  end.

(** What the caller gets, the state apart. *)
Inductive answer (A : Type) :=
| Values (a : A)
| Error (e : lua_error)
| Crash
| NoAnswer.
Arguments Values {A}.
Arguments Error {A}.
Arguments Crash {A}.
Arguments NoAnswer {A}.

Definition values_of `{IconvLib} {A} (r : result A) : answer A :=
  match r with
  | Ok a _ => Values a
  | Raised e _ => Error e
  | Undefined => Crash
  | OutOfFuel => NoAnswer
  end.

(** What a conversion on an open descriptor in state [st] comes to. *)
Definition convert_outcome `{IconvLib} `{Platform} (fuel : nat) (cd : Z)
  (st : cdstate) (inbuf : string) (s : state) : result (list lua_value) :=
  match loop_run fuel st inbuf LUAL_BUFFERSIZE EmptyString with
  | (LoopFuel, _, _) => OutOfFuel
  | (LoopDone B', st', calls) =>
      Ok [LString B'] (log (EvReset cd) (after_calls cd (lib_reset st') calls s))
  | (LoopFailed B' e, st', calls) =>
      Ok [LNil; LString (strerror e); LString B'; LNumber e]
         (after_calls cd st' calls s)
  end.

(** The two ways a conversion is asked for on the handle [h]: the
    [iconv] function of the module with the handle as first argument, and
    the converter closure that has the handle as its upvalue. *)
Definition convert_call `{IconvLib} `{Platform} (fuel : nat) (h : nat)
  (v : lua_value) (c : M (list lua_value)) : Prop :=
  (exists ups, c = lua_call (Liconv fuel) [LUserdata h; v] ups)
  \/ c = lua_call (Liconv_closure fuel) [v] [LUserdata h].

Definition conv_fails `{IconvLib} (r : conv_result cdstate) : bool :=
  (cr_ret r =? size_t_cast (-1))%Z.

(** *** The contract of [iconv], as iconv(3) gives it *)

(** No more is written than there is room for. *)
Definition conv_bounded (lib : IconvLib) : Prop :=
  forall st inbuf obleft,
    String.length (cr_written (lib_conv st inbuf obleft)) <= obleft.

(** A call that does not fail has read all its input. *)
Definition conv_done (lib : IconvLib) : Prop :=
  forall st inbuf obleft,
    conv_fails (lib_conv st inbuf obleft) = false ->
    cr_inbuf (lib_conv st inbuf obleft) = EmptyString.

(** On empty input nothing happens and 0 is returned. *)
Definition conv_empty (lib : IconvLib) : Prop :=
  forall st obleft,
    let r := lib_conv st EmptyString obleft in
    cr_ret r = 0%Z /\ cr_inbuf r = EmptyString
    /\ cr_written r = EmptyString /\ cr_state r = st.

(** Conversion is incremental: where a call with [n] bytes of room
    stopped, a call with room [m] for at least the same output passes
    through, and goes on as a new call from there would. *)
Definition conv_restart (lib : IconvLib) : Prop :=
  forall st inbuf n m,
    let r := lib_conv st inbuf n in
    String.length (cr_written r) <= m ->
    let r' := lib_conv (cr_state r) (cr_inbuf r) (m - String.length (cr_written r)) in
    let R := lib_conv st inbuf m in
    cr_written R = cr_written r +:+ cr_written r'
    /\ cr_inbuf R = cr_inbuf r'
    /\ cr_state R = cr_state r'
    /\ conv_fails R = conv_fails r'
    /\ (conv_fails R = true -> cr_errno R = cr_errno r').

(** The null call puts a descriptor back into the state it was opened in. *)
Definition reset_initial (lib : IconvLib) : Prop :=
  forall tocode fromcode s0 s,
    lib_open tocode fromcode = inl s0 -> evolves s0 s -> lib_reset s = s0.

(** A scratch chunk of full size takes at least one character: a call
    that is given [LUAL_BUFFERSIZE] bytes of room and stops with [E2BIG]
    has read some input. *)
Definition conv_progress (lib : IconvLib) (P : Platform) : Prop :=
  forall st inbuf,
    let r := lib_conv st inbuf LUAL_BUFFERSIZE in
    conv_fails r = true -> cr_errno r = E2BIG ->
    String.length (cr_inbuf r) < String.length inbuf.

(** ** Scenarios on the small library *)

Definition demo_lib : IconvLib := mini_lib linux4 None.

Definition state_after `{IconvLib} {A} (r : result A) (d : state) : state :=
  match r with
  | Ok _ s => s
  | Raised _ s => s
  | _ => d
  end.

Definition demo_loaded : state_of mini_state := @loaded_state demo_lib linux4.

(** The module is loaded and one handle, userdata 0, is opened. *)
Definition demo_open (tocode fromcode : string) : state_of mini_state :=
  state_after
    (@lua_call demo_lib (@Liconv_new demo_lib linux4)
       [LString tocode; LString fromcode] [] demo_loaded)
    demo_loaded.

(** ... and closed again. *)
Definition demo_closed : state_of mini_state :=
  state_after
    (@lua_call demo_lib (@Liconv_close demo_lib) [LUserdata 0] []
       (demo_open "UTF-8" "UTF-8"))
    demo_loaded.

(** U+20AC in UTF-8, and its first two bytes. *)
Definition euro : string :=
  String "226"%char (String "130"%char (String "172"%char EmptyString)).
Definition euro_cut : string :=
  String "226"%char (String "130"%char EmptyString).
(** U+00E9 in ISO-8859-1 and in UTF-8. *)
Definition e_acute_latin1 : string := String "233"%char EmptyString.
Definition e_acute_utf8 : string :=
  String "195"%char (String "169"%char EmptyString).

(** The state a call leaves behind. *)
Definition demo_after (c : @M demo_lib (list lua_value)) (s : state_of mini_state)
  : state_of mini_state :=
  state_after (c s) s.

(** The same library, with a release that fails with [EBADF]. *)
Definition stuck_lib : IconvLib := mini_lib linux4 (Some 9%Z).

Definition stuck_open : state_of mini_state :=
  state_after
    (@lua_call stuck_lib (@Liconv_new stuck_lib linux4)
       [LString "UTF-8"; LString "UTF-8"] [] (@loaded_state stuck_lib linux4))
    (@loaded_state stuck_lib linux4).

(** "abcdef", e-acute and the euro sign, in UTF-8. *)
Definition demo_text : string := "abcdef" +:+ e_acute_utf8 +:+ euro.

(** The byte 0xFF, which no UTF-8 sequence contains. *)
Definition byte_ff : string := String "255"%char EmptyString.

(** Six characters of ISO-8859-1 that take nine bytes of UTF-8. *)
Definition demo_latin1 : string :=
  e_acute_latin1 +:+ "abc" +:+ e_acute_latin1 +:+ e_acute_latin1.
Definition demo_utf8 : string :=
  e_acute_utf8 +:+ "abc" +:+ e_acute_utf8 +:+ e_acute_utf8.

(** A handle on the locking-shift encoding, and a text that ends in the
    shifted state: SO, then "abc". *)
Definition shift_text : string := String "014"%char "abc".
Definition shifted_abc : string :=
  String "225"%char (String "226"%char (String "227"%char EmptyString)).

(** The module table: the first table made on loading. *)
Definition demo_module : lua_value := LTable 0.

(** ** Statements of the specification that the code does not bear out *)

(** "the handle is echoed back in the error tuple": the third value of a
    failed conversion is the handle. *)
Definition error_tuple_echoes_handle : Prop :=
  forall (lib : IconvLib) (P : Platform) (fuel : nat) (s s' : state)
         h cd st v inp ups rs,
    is_handle s h cd -> cd <> NULL -> descs s !! cd = Some st ->
    as_string v = Some inp ->
    lua_call (Liconv fuel) [LUserdata h; v] ups s = Ok rs s' ->
    rs !! 0 = Some LNil ->
    rs !! 2 = Some (LUserdata h).

(** "an empty encoding name is rejected by this check before reaching the
    underlying library": the call raises and the library is not called. *)
Definition empty_name_rejected : Prop :=
  forall (lib : IconvLib) (P : Platform) (s : state) a b ups,
    a = LString EmptyString \/ b = LString EmptyString ->
    exists e s',
      lua_call Liconv_new [a; b] ups s = Raised e s'
      /\ new_events s s' = [].


(** ** The handle discipline

    What the entry points keep true of the userdata blocks and of the
    table of open descriptors, whatever Lua code calls them with. *)

(** The library hands out addresses that are not in use, and neither the
    null pointer nor [(iconv_t)(-1)]. *)
Definition alloc_fresh (lib : IconvLib) : Prop :=
  forall d : gmap Z cdstate,
    d !! lib_alloc d = None
    /\ lib_alloc d <> NULL
    /\ lib_alloc d <> ICONV_T_MINUS1.

(** The module is loaded; every userdata block carries the metatable
    registered under [ICONV_TYPENAME] and holds the null pointer or an
    open descriptor; no two blocks hold the same descriptor. *)
Definition sound `{IconvLib} (s : state) : Prop :=
  exists m,
    registry s !! ICONV_TYPENAME = Some (LTable m)
    /\ (forall h u, udatas s !! h = Some u ->
          ud_meta u = Some m
          /\ (ud_cd u = NULL \/ is_Some (descs s !! ud_cd u)))
    /\ (forall h1 h2 u1 u2,
          udatas s !! h1 = Some u1 -> udatas s !! h2 = Some u2 ->
          ud_cd u1 = ud_cd u2 -> ud_cd u1 <> NULL -> h1 = h2).

(** Every open descriptor is held by a block, and is not the null
    pointer. *)
Definition owned `{IconvLib} (s : state) : Prop :=
  forall cd, is_Some (descs s !! cd) ->
    cd <> NULL /\ exists h u, udatas s !! h = Some u /\ ud_cd u = cd.

(** [iconv_close] does not fail on an open descriptor. *)
Definition release_succeeds (lib : IconvLib) : Prop :=
  forall st : cdstate, lib_release st = None.

(** Every call of [iconv_close] made between [s] and [s'] is made on a
    descriptor that was open in [s]; and either it returned 0 and the
    descriptor is not open in [s'], or the library refused to release
    the descriptor. *)
Definition closes `{IconvLib} (s s' : state) : Prop :=
  forall cd r, EvClose cd r ∈ new_events s s' ->
    exists st, descs s !! cd = Some st
      /\ ((r = 0%Z /\ lib_release st = None /\ descs s' !! cd = None)
          \/ (exists e, lib_release st = Some e)).

(** A value Lua code can hold in state [s]: a userdata value refers to
    a block that exists. *)
Definition live `{IconvLib} (s : state) (v : lua_value) : Prop :=
  forall h, v = LUserdata h -> h < length (udatas s).

(** The block a value refers to, if it is a userdata value. *)
Definition block_of (v : lua_value) : option nat :=
  match v with
  | LUserdata h => Some h
  | _ => None
  end.

(** The calls Lua code can make on the module in state [s], with
    arguments of any kind, each with the block it is made on, if any:
    [new] and the module itself with two arguments, [iconv] with two,
    [delete] (also run as the [__gc] of a block) with one, and a
    converter, which has a block as its upvalue, with one. *)
Inductive api_call `{IconvLib} `{Platform} (s : state)
  : option nat -> M (list lua_value) -> Prop :=
| call_new a b ups :
    api_call s None (lua_call Liconv_new [a; b] ups)
| call_module t a b ups :
    api_call s None (lua_call Liconv_open [LTable t; a; b] ups)
| call_iconv fuel a b ups :
    live s a ->
    api_call s (block_of a) (lua_call (Liconv fuel) [a; b] ups)
| call_close a ups :
    live s a ->
    api_call s (block_of a) (lua_call Liconv_close [a] ups)
| call_converter fuel h a :
    h < length (udatas s) ->
    api_call s (Some h) (lua_call (Liconv_closure fuel) [a] [LUserdata h]).

(** What a call on block [o] leaves alone: the caller's frame, the
    tables and the registry; the trace, which only grows; the blocks,
    none of which goes away; every other block and, when it holds one,
    the state of its descriptor. *)
Definition keeps `{IconvLib} (o : option nat) (s s' : state) : Prop :=
  stack s' = stack s /\ upvalues s' = upvalues s
  /\ tables s' = tables s /\ registry s' = registry s
  /\ (exists evs, trace s' = trace s ++ evs)
  /\ length (udatas s) <= length (udatas s')
  /\ forall h u, udatas s !! h = Some u -> o <> Some h ->
       udatas s' !! h = Some u
       /\ (ud_cd u <> NULL -> descs s' !! ud_cd u = descs s !! ud_cd u).

(** One call that comes back, with values or with a Lua error. *)
Definition api_step `{IconvLib} `{Platform} (s s' : state) : Prop :=
  exists o c, api_call s o c
              /\ ((exists rs, c s = Ok rs s') \/ (exists e, c s = Raised e s')).

(** The states a program gets to from the freshly loaded module. *)
Inductive reachable `{IconvLib} `{Platform} : state -> Prop :=
| reach_loaded : reachable loaded_state
| reach_step s s' : reachable s -> api_step s s' -> reachable s'.

(** ** The conversion, on the stack *)

(** Between [s] and [s'] the values [pushed] were put on top of the
    stack, and nothing else of Lua's side has changed. *)
Definition pushes `{IconvLib} (s s' : state) (pushed : list lua_value) : Prop :=
  stack s' = stack s ++ pushed
  /\ upvalues s' = upvalues s /\ udatas s' = udatas s
  /\ tables s' = tables s /\ registry s' = registry s.

(** ** What loading makes *)

(** The fields of the module table, and those of the metatable of the
    handles of the module whose table is [module]. *)
Definition module_fields `{Platform} : gmap string lua_value :=
  list_to_map [("new", LFunction F_new []); ("iconv", LFunction F_iconv []);
               ("delete", LFunction F_close []);
               ("ERROR_INCOMPLETE", LNumber EILSEQ);
               ("ERROR_INVALID", LNumber EINVAL);
               ("VERSION", LString LIB_VERSION)].

Definition handle_fields (module : nat) : gmap string lua_value :=
  list_to_map [("__index", LTable module); ("__gc", LFunction F_close [])].

(** ** The calls of one conversion *)

(** The calls of [iconv] that one run of the loop makes, oldest first,
    follow one another: a call is made on the input the call before it
    left unread, with the descriptor in the state that call left it in,
    and with room for no more than one scratch chunk; the call after one
    that stopped with [E2BIG] has a chunk of full size, the call after
    one that returned a count other than 0 has the room that was left. *)
Fixpoint chained `{IconvLib} `{Platform} (st : cdstate) (inbuf : string)
  (obleft : nat) (calls : list conv_call) : Prop :=
  match calls with
  | [] => True
  | c :: rest =>
      let r := lib_conv st inbuf obleft in
      c = (inbuf, obleft, r)
      /\ obleft <= LUAL_BUFFERSIZE
      /\ match rest with
         | [] => True
         | _ =>
             if conv_fails r
             then cr_errno r = E2BIG
                  /\ chained (cr_state r) (cr_inbuf r) LUAL_BUFFERSIZE rest
             else cr_ret r <> 0%Z
                  /\ chained (cr_state r) (cr_inbuf r)
                       (obleft - String.length (cr_written r)) rest
         end
  end.

(** ** More scenarios *)

(** Two handles: block 0 converts UTF-8 to ISO-8859-1, block 1 the
    locking-shift encoding to ISO-8859-1. *)
Definition demo_two : state_of mini_state :=
  state_after
    (@lua_call demo_lib (@Liconv_new demo_lib linux4)
       [LString "ISO-8859-1"; LString "X-SHIFT7"] []
       (demo_open "ISO-8859-1" "UTF-8"))
    demo_loaded.

(** ** A library that substitutes

    ISO-8859-1 to ASCII: a byte above 127 becomes a question mark and
    counts as one conversion that cannot be undone.  The count is what
    [iconv] returns, as iconv(3) has it. *)
Fixpoint subst_run `{Platform} (inbuf : string) (obleft : nat) (count : Z)
  : conv_result unit :=
  match inbuf, obleft with
  | EmptyString, _ => mkConv count 0 EmptyString EmptyString tt
  | String _ _, O => mkConv (size_t_cast (-1)) E2BIG inbuf EmptyString tt
  | String c rest, S room =>
      let plain := (byte_val c <? 128)%N in
      let r := subst_run rest room (if plain then count else count + 1)%Z in
      mkConv (cr_ret r) (cr_errno r) (cr_inbuf r)
             (String (if plain then c else "?"%char) (cr_written r)) tt
  end.

Definition subst_lib (P : Platform) : IconvLib :=
  {| cdstate := unit;
     lib_open := fun tocode fromcode =>
       if decide (tocode = "ASCII//TRANSLIT" /\ fromcode = "ISO-8859-1")
       then inl tt else inr EINVAL;
     lib_alloc := fun d => (map_fold (fun k _ acc => Z.max k acc) 4095 d + 1)%Z;
     lib_conv := fun _ inbuf obleft => subst_run inbuf obleft 0;
     lib_reset := fun st => st;
     lib_release := fun _ => None |}.

(** The module is loaded on this library and one handle, userdata 0, is
    opened. *)
Definition subst_open : state_of unit :=
  state_after
    (@lua_call (subst_lib linux4) (@Liconv_new (subst_lib linux4) linux4)
       [LString "ASCII//TRANSLIT"; LString "ISO-8859-1"] []
       (@loaded_state (subst_lib linux4) linux4))
    (@loaded_state (subst_lib linux4) linux4).

(** ** The build with [iconvlist]

    [push_one] and [Liconvlist] fill a table whose keys are numbers, and
    use nothing of the rest of the file; they are modelled on a state of
    their own: a stack of numbers, strings and table references, and
    tables with number keys.  The counter [n] and the loop index [i] are
    C [int]s of 32 bits: a cast out of their range and an increment
    past [INT_MAX] are undefined.  A Lua number holds every [int]
    exactly. *)
Module Listing.

Inductive value :=
| VNumber (n : Z)
| VString (s : string)
| VTable (r : nat).

Record lstate := mkL {
  lstack : list value;
  ltables : list (gmap Z value)
}.

Definition INT_MAX : Z := (2 ^ 31 - 1)%Z.
Definition INT_MIN : Z := (- 2 ^ 31)%Z.

(** [(int) x], for a number that has no fraction. *)
Definition to_int (x : Z) : option Z :=
  if ((INT_MIN <=? x) && (x <=? INT_MAX))%Z then Some x else None.

(** [n++] and [i++] on an [int]: the value after the increment. *)
Definition int_succ (n : Z) : option Z :=
  if (n <? INT_MAX)%Z then Some (n + 1)%Z else None.

Definition index2value (s : lstate) (i : Z) : option value :=
  match index2pos (length (lstack s)) i with
  | Some p => lstack s !! p
  | None => None
  end.

Definition lua_newtable (s : lstate) : lstate :=
  mkL (lstack s ++ [VTable (length (ltables s))]) (ltables s ++ [∅]).

Definition lua_pushnumber (n : Z) (s : lstate) : lstate :=
  mkL (lstack s ++ [VNumber n]) (ltables s).

Definition lua_pushstring (str : string) (s : lstate) : lstate :=
  mkL (lstack s ++ [VString str]) (ltables s).

(** [lua_tonumber]: the number, 0 for a table.  A string would be read
    as a numeral; none is ever asked for here, and that case is left
    out. *)
Definition lua_tonumber (i : Z) (s : lstate) : option Z :=
  match index2value s i with
  | Some (VNumber n) => Some n
  | Some (VTable _) => Some 0%Z
  | _ => None
  end.

Definition lua_remove (i : Z) (s : lstate) : option lstate :=
  p ← index2pos (length (lstack s)) i;
  Some (mkL (delete p (lstack s)) (ltables s)).

(** [lua_settable(L, i)], for a number key: [t[k] = v] with the key
    below the top and the value on top; both are popped. *)
Definition lua_settable (i : Z) (s : lstate) : option lstate :=
  match index2value s i, index2value s (-2), index2value s (-1) with
  | Some (VTable r), Some (VNumber k), Some v =>
      t ← ltables s !! r;
      Some (mkL (take (length (lstack s) - 2) (lstack s))
                (<[r := <[k := v]> t]> (ltables s)))
  | _, _, _ => None
  end.

(** The [for] loop of [push_one], with [k] rounds to go and the index
    at [i]: [n++] gives the key and moves the counter, [names[i]] is
    read, which is past the end of the array when there is no such
    name, and [i++] ends the round. *)
Fixpoint push_names (k i : nat) (names : list string) (n : Z) (s : lstate)
  : option (Z * lstate) :=
  match k with
  | O => Some (n, s)
  | S k' =>
      n' ← int_succ n;
      name ← names !! i;
      s ← lua_settable (-3) (lua_pushstring name (lua_pushnumber n s));
      _ ← int_succ (Z.of_nat i);
      push_names k' (S i) names n' s
  end.

Definition push_one (cnt : nat) (names : list string) (s : lstate)
  : option (Z * lstate) :=
  x ← lua_tonumber (-1) s;
  n ← to_int x;
  (* Stack: <tbl> n *)
  s ← lua_remove (-1) s;
  '(n, s) ← push_names cnt 0 names n s;
  (* Stack: <tbl> n *)
  Some (0%Z, lua_pushnumber n s).

(** [iconvlist] of the library: the callback is called once for each
    encoding, with all the names of that encoding, until it returns
    something other than 0. *)
Fixpoint iconvlist (do_one : nat -> list string -> lstate -> option (Z * lstate))
  (encodings : list (list string)) (s : lstate) : option lstate :=
  match encodings with
  | [] => Some s
  | names :: rest =>
      '(r, s) ← do_one (length names) names s;
      if (r =? 0)%Z then iconvlist do_one rest s else Some s
  end.

Definition Liconvlist (encodings : list (list string)) (s : lstate)
  : option (Z * lstate) :=
  (* Stack:   <tbl> 1 *)
  s ← iconvlist push_one encodings (lua_pushnumber 1 (lua_newtable s));
  (* Stack:   <tbl> n *)
  s ← lua_remove (-1) s;
  Some (1%Z, s).

(** The table [t] with [names] added at the keys [n], [n + 1], ... *)
Fixpoint numbered (names : list string) (n : Z) (t : gmap Z value)
  : gmap Z value :=
  match names with
  | [] => t
  | name :: rest => numbered rest (n + 1) (<[n := VString name]> t)
  end.

End Listing.
(** * Properties *)

(** ** Byte strings *)

Lemma str_app_cons (c : ascii) (a b : string) :
  String c a +:+ b = String c (a +:+ b).
Proof. reflexivity. Qed.

Lemma str_app_nil_r (s : string) : s +:+ EmptyString = s.
Proof. induction s as [|c s IH]; [done|]. by rewrite str_app_cons, IH. Qed.

Lemma str_app_assoc (a b c : string) : (a +:+ b) +:+ c = a +:+ (b +:+ c).
Proof. induction a as [|x a IH]; [done|]. by rewrite !str_app_cons, IH. Qed.

Lemma str_length_app (a b : string) :
  String.length (a +:+ b) = String.length a + String.length b.
Proof.
  induction a as [|x a IH]; [done|].
  rewrite str_app_cons. simpl. by rewrite IH.
Qed.

Lemma str_take_all (n : nat) (s : string) :
  String.length s <= n -> str_take n s = s.
Proof.
  revert n. induction s as [|c s IH]; intros [|n] Hn; simpl in *; try done; try lia.
  rewrite IH; [done | lia].
Qed.

Lemma str_drop_length (n : nat) (s : string) :
  String.length (str_drop n s) = String.length s - n.
Proof.
  revert s. induction n as [|n IH]; intros [|c s]; simpl; try done.
Qed.

Lemma luaL_addsize_all (B w : string) (obleft : nat) :
  String.length w <= obleft ->
  luaL_addsize B w (obleft - (obleft - String.length w)) = B +:+ w.
Proof.
  intros Hw. unfold luaL_addsize.
  rewrite str_take_all; [done | lia].
Qed.

(** ** Stack indices *)

Lemma index2pos_top (n : nat) (k : nat) :
  0 < k <= n -> index2pos n (- Z.of_nat k) = Some (n - k).
Proof.
  intros Hk. unfold index2pos.
  destruct (0 <? - Z.of_nat k)%Z eqn:E1; [apply Z.ltb_lt in E1; lia|].
  destruct (- Z.of_nat k <? 0)%Z eqn:E2; [|apply Z.ltb_ge in E2; lia].
  destruct (- - Z.of_nat k <=? Z.of_nat n)%Z eqn:E3; [|apply Z.leb_gt in E3; lia].
  f_equal. lia.
Qed.

Section Loop.
Context `{lib : IconvLib} `{P : Platform}.

Lemma index2value_third (l : list lua_value) (a b c : lua_value) (s : state) :
  stack s = ((l ++ [a]) ++ [b]) ++ [c] -> index2value s (Idx (-3)) = Some a.
Proof.
  intros Hs. unfold index2value. rewrite Hs, <- !app_assoc.
  change ([a] ++ [b] ++ [c]) with [a; b; c].
  change (-3)%Z with (- Z.of_nat 3)%Z.
  rewrite index2pos_top; [|rewrite length_app; simpl; lia].
  rewrite length_app. simpl.
  replace (length l + 3 - 3) with (length l) by lia.
  by rewrite list_lookup_middle.
Qed.

(** ** The loop and its summary *)

Lemma after_calls_cons cd st st' c calls (s s1 : state) :
  stack s1 = stack s -> upvalues s1 = upvalues s -> udatas s1 = udatas s ->
  tables s1 = tables s -> registry s1 = registry s ->
  errno s1 = errno_after (errno s) [c] ->
  descs s1 = <[cd := st]> (descs s) ->
  trace s1 = trace s ++ [call_event cd c] ->
  after_calls cd st' calls s1 = after_calls cd st' (c :: calls) s.
Proof.
  intros H1 H2 H3 H4 H5 H6 H7 H8. unfold after_calls.
  rewrite H1, H2, H3, H4, H5, H6, H7, H8.
  f_equal.
  - by rewrite insert_insert_eq.
  - by rewrite <- app_assoc.
Qed.

Lemma convert_loop_run (fuel : nat) :
  forall cd st inbuf obleft B (s : state),
    descs s !! cd = Some st ->
    convert_loop fuel cd inbuf obleft B s =
    match loop_run fuel st inbuf obleft B with
    | (LoopFuel, _, _) => OutOfFuel
    | (LoopDone B', st', calls) => Ok (inl B') (after_calls cd st' calls s)
    | (LoopFailed B' e, st', calls) =>
        Ok (inr 4%Z)
           (set_stack (fun l => l ++ [LString B'; LNil; LString (strerror e);
                                      LString B'; LNumber e])
                      (after_calls cd st' calls s))
    end.
Proof.
  induction fuel as [|fuel IH]; intros cd st inbuf obleft B s Hcd; [done|].
  cbn [convert_loop loop_run]. unfold bind at 1. unfold iconv at 1. rewrite Hcd.
  set (r := lib_conv st inbuf obleft).
  destruct (cr_ret r =? size_t_cast (-1))%Z eqn:Eret.
  - unfold bind at 1, gets at 1. cbn [errno log set_errno set_descs].
    destruct (cr_errno r =? E2BIG)%Z eqn:Ebig.
    + unfold bind at 1, luaL_prepbuffer, ret.
      rewrite (IH cd (cr_state r)); [|cbn; apply lookup_insert_eq].
      destruct (loop_run fuel (cr_state r) (cr_inbuf r) LUAL_BUFFERSIZE _)
        as [[[B'|B' e|] st'] calls]; [| |done].
      * f_equal. apply (after_calls_cons cd (cr_state r)); try done.
        cbn. by rewrite Eret.
      * do 2 f_equal. apply (after_calls_cons cd (cr_state r)); try done.
        cbn. by rewrite Eret.
    + cbn.
      unfold bind at 1, lua_pushvalue.
      erewrite (index2value_third (stack s)); [|reflexivity].
      cbn. unfold ret. f_equal.
      unfold after_calls, set_stack, errno_after. cbn. rewrite Eret.
      f_equal. by rewrite <- !app_assoc.
  - destruct (negb (cr_ret r =? size_t_cast 0)%Z) eqn:Ezero.
    + rewrite (IH cd (cr_state r)); [|cbn; apply lookup_insert_eq].
      destruct (loop_run fuel (cr_state r) (cr_inbuf r) _ _)
        as [[[B'|B' e|] st'] calls]; [| |done].
      * f_equal. apply (after_calls_cons cd (cr_state r)); try done.
        cbn. by rewrite Eret.
      * do 2 f_equal. apply (after_calls_cons cd (cr_state r)); try done.
        cbn. by rewrite Eret.
    + cbn. unfold ret. f_equal.
      unfold after_calls, log, set_descs, errno_after. cbn. by rewrite Eret.
Qed.

Lemma Liconv_convert_run (fuel : nat) cd st inbuf (s : state) :
  cd <> NULL ->
  descs s !! cd = Some st ->
  Liconv_convert fuel cd inbuf s =
  match loop_run fuel st inbuf LUAL_BUFFERSIZE EmptyString with
  | (LoopFuel, _, _) => OutOfFuel
  | (LoopDone B', st', calls) =>
      Ok 1%Z (set_stack (fun l => l ++ [LString B'])
                (log (EvReset cd)
                   (after_calls cd (lib_reset st') calls s)))
  | (LoopFailed B' e, st', calls) =>
      Ok 4%Z
         (set_stack (fun l => l ++ [LString B'; LNil; LString (strerror e);
                                    LString B'; LNumber e])
                    (after_calls cd st' calls s))
  end.
Proof.
  intros Hnull Hcd. unfold Liconv_convert.
  destruct (cd =? NULL)%Z eqn:E; [apply Z.eqb_eq in E; done|].
  unfold bind at 1, luaL_buffinit, ret.
  unfold bind at 1, luaL_prepbuffer, ret.
  unfold bind at 1. rewrite (convert_loop_run fuel cd st); [|done].
  destruct (loop_run fuel st inbuf LUAL_BUFFERSIZE EmptyString)
    as [[[B'|B' e|] st'] calls]; [| done | done].
  unfold bind at 1, iconv_NULL. cbn [descs after_calls].
  rewrite lookup_insert_eq. cbn.
  f_equal. unfold set_stack, log, after_calls. cbn.
  f_equal. by rewrite insert_insert_eq.
Qed.

End Loop.

(** ** Calls of the conversion entry points *)

Section Calls.
Context `{lib : IconvLib} `{P : Platform}.

Lemma Liconv_convert_null (fuel : nat) (inbuf : string) (s : state) :
  Liconv_convert fuel NULL inbuf s =
  Ok 2%Z (set_stack (fun l => l ++ [LNil; LString "invalid iconv handle"]) s).
Proof.
  unfold Liconv_convert. cbn. unfold ret. f_equal.
  unfold set_stack. cbn. f_equal. by rewrite <- app_assoc.
Qed.

Opaque Liconv_convert.

Lemma Liconv_call_closed (fuel : nat) (s : state) h v inp ups :
  is_handle s h NULL ->
  as_string v = Some inp ->
  lua_call (Liconv fuel) [LUserdata h; v] ups s =
  Ok [LNil; LString "invalid iconv handle"] s.
Proof.
  intros (m & Hu & Hr) Hv.
  destruct s as [stk upv ud tb reg en ds tr]. cbn in Hu, Hr.
  unfold lua_call, Liconv.
  unfold bind at 1, luaL_checkudata. simpl. rewrite Hu, Hr. simpl.
  rewrite decide_True by done.
  unfold bind at 1, ud_load. simpl. rewrite Hu. simpl.
  destruct v as [| |n|str| | |]; try discriminate; cbn in Hv; injection Hv as <-.
  - unfold bind at 1, luaL_checklstring. simpl.
    by rewrite Liconv_convert_null.
  - unfold bind at 1, luaL_checklstring. simpl.
    by rewrite Liconv_convert_null.
Qed.

Lemma Liconv_closure_call_closed (fuel : nat) (s : state) h u v inp :
  udatas s !! h = Some u -> ud_cd u = NULL ->
  as_string v = Some inp ->
  lua_call (Liconv_closure fuel) [v] [LUserdata h] s =
  Ok [LNil; LString "invalid iconv handle"] s.
Proof.
  intros Hu Hcd Hv.
  destruct s as [stk upv ud tb reg en ds tr]. cbn in Hu.
  unfold lua_call, Liconv_closure.
  unfold bind at 1, lua_touserdata. simpl.
  unfold bind at 1, ud_load. simpl. rewrite Hu, Hcd. simpl.
  destruct v as [| |n|str| | |]; try discriminate; cbn in Hv; injection Hv as <-.
  - unfold bind at 1, luaL_checklstring. simpl.
    by rewrite Liconv_convert_null.
  - unfold bind at 1, luaL_checklstring. simpl.
    by rewrite Liconv_convert_null.
Qed.

Lemma Liconv_call_open (fuel : nat) (s : state) h cd st v inp ups :
  is_handle s h cd -> cd <> NULL ->
  descs s !! cd = Some st ->
  as_string v = Some inp ->
  lua_call (Liconv fuel) [LUserdata h; v] ups s = convert_outcome fuel cd st inp s.
Proof.
  intros (m & Hu & Hr) Hnull Hcd Hv.
  destruct s as [stk upv ud tb reg en ds tr]. cbn in Hu, Hr, Hcd.
  unfold lua_call, Liconv, convert_outcome.
  unfold bind at 1, luaL_checkudata. simpl. rewrite Hu, Hr. simpl.
  rewrite decide_True by done.
  unfold bind at 1, ud_load. simpl. rewrite Hu. simpl.
  destruct v as [| |n|str| | |]; try discriminate; cbn in Hv; injection Hv as <-.
  - unfold bind at 1, luaL_checklstring. simpl.
    rewrite (Liconv_convert_run fuel cd st); [|done|done].
    destruct (loop_run fuel st _ LUAL_BUFFERSIZE EmptyString)
      as [[[B'|B' e|] st'] calls]; [| |done].
    + by simpl.
    + by simpl.
  - unfold bind at 1, luaL_checklstring. simpl.
    rewrite (Liconv_convert_run fuel cd st); [|done|done].
    destruct (loop_run fuel st _ LUAL_BUFFERSIZE EmptyString)
      as [[[B'|B' e|] st'] calls]; [| |done].
    + by simpl.
    + by simpl.
Qed.

Lemma Liconv_closure_call_open (fuel : nat) (s : state) h u st v inp :
  udatas s !! h = Some u -> ud_cd u <> NULL ->
  descs s !! ud_cd u = Some st ->
  as_string v = Some inp ->
  lua_call (Liconv_closure fuel) [v] [LUserdata h] s =
  convert_outcome fuel (ud_cd u) st inp s.
Proof.
  intros Hu Hnull Hcd Hv.
  destruct s as [stk upv ud tb reg en ds tr]. cbn in Hu, Hcd.
  unfold lua_call, Liconv_closure, convert_outcome.
  unfold bind at 1, lua_touserdata. simpl.
  unfold bind at 1, ud_load. simpl. rewrite Hu. simpl.
  destruct v as [| |n|str| | |]; try discriminate; cbn in Hv; injection Hv as <-.
  - unfold bind at 1, luaL_checklstring. simpl.
    rewrite (Liconv_convert_run fuel (ud_cd u) st); [|done|done].
    destruct (loop_run fuel st _ LUAL_BUFFERSIZE EmptyString)
      as [[[B'|B' e|] st'] calls]; [| |done].
    + by simpl.
    + by simpl.
  - unfold bind at 1, luaL_checklstring. simpl.
    rewrite (Liconv_convert_run fuel (ud_cd u) st); [|done|done].
    destruct (loop_run fuel st _ LUAL_BUFFERSIZE EmptyString)
      as [[[B'|B' e|] st'] calls]; [| |done].
    + by simpl.
    + by simpl.
Qed.

Transparent Liconv_convert.

(** ** What the loop collects *)

Lemma str_concat_app (l1 l2 : list string) :
  str_concat (l1 ++ l2) = str_concat l1 +:+ str_concat l2.
Proof.
  induction l1 as [|x l1 IH]; [done|].
  cbn. fold (str_concat (l1 ++ l2)). fold (str_concat l1).
  by rewrite IH, str_app_assoc.
Qed.

Lemma loop_run_written (fuel : nat) :
  conv_bounded lib ->
  forall st inbuf obleft B e st' calls,
    loop_run fuel st inbuf obleft B = (e, st', calls) ->
    match e with
    | LoopDone B' =>
        B' = B +:+ str_concat (map call_written calls)
        /\ exists calls0 last, calls = calls0 ++ [last]
             /\ conv_fails last.2 = false /\ st' = cr_state last.2
    | LoopFailed B' err =>
        B' = B +:+ str_concat (map call_written calls)
        /\ exists calls0 last, calls = calls0 ++ [last]
             /\ conv_fails last.2 = true /\ cr_errno last.2 = err
             /\ err <> E2BIG /\ st' = cr_state last.2
    | LoopFuel => True
    end.
Proof.
  intros Hb. induction fuel as [|fuel IH];
    intros st inbuf obleft B e st' calls Hrun.
  { cbn in Hrun. by injection Hrun as <- <- <-. }
  cbn [loop_run] in Hrun.
  set (r := lib_conv st inbuf obleft) in *.
  assert (Hw : luaL_addsize B (cr_written r)
                 (obleft - (obleft - String.length (cr_written r)))
               = B +:+ cr_written r)
    by (apply luaL_addsize_all, Hb).
  rewrite Hw in Hrun. clear Hw.
  destruct (cr_ret r =? size_t_cast (-1))%Z eqn:Eret.
  - destruct (cr_errno r =? E2BIG)%Z eqn:Ebig.
    + destruct (loop_run fuel (cr_state r) (cr_inbuf r) LUAL_BUFFERSIZE _)
        as [[e1 st1] calls1] eqn:Hrec.
      injection Hrun as <- <- <-.
      specialize (IH _ _ _ _ _ _ _ Hrec).
      destruct e1 as [B'|B' err|]; [| |done].
      * destruct IH as (-> & calls0 & last & -> & Hl & Hs). split.
        { cbn. fold (str_concat (map call_written (calls0 ++ [last]))).
          by rewrite str_app_assoc. }
        by exists ((inbuf, obleft, r) :: calls0), last.
      * destruct IH as (-> & calls0 & last & -> & Hl & He & Hne & Hs). split.
        { cbn. fold (str_concat (map call_written (calls0 ++ [last]))).
          by rewrite str_app_assoc. }
        by exists ((inbuf, obleft, r) :: calls0), last.
    + injection Hrun as <- <- <-. split.
      { cbn. by rewrite str_app_nil_r. }
      exists [], (inbuf, obleft, r). repeat split; try done.
      by apply Z.eqb_neq.
  - destruct (negb (cr_ret r =? size_t_cast 0)%Z) eqn:Ezero.
    + destruct (loop_run fuel (cr_state r) (cr_inbuf r) _ _)
        as [[e1 st1] calls1] eqn:Hrec.
      injection Hrun as <- <- <-.
      specialize (IH _ _ _ _ _ _ _ Hrec).
      destruct e1 as [B'|B' err|]; [| |done].
      * destruct IH as (-> & calls0 & last & -> & Hl & Hs). split.
        { cbn. fold (str_concat (map call_written (calls0 ++ [last]))).
          by rewrite str_app_assoc. }
        by exists ((inbuf, obleft, r) :: calls0), last.
      * destruct IH as (-> & calls0 & last & -> & Hl & He & Hne & Hs). split.
        { cbn. fold (str_concat (map call_written (calls0 ++ [last]))).
          by rewrite str_app_assoc. }
        by exists ((inbuf, obleft, r) :: calls0), last.
    + injection Hrun as <- <- <-. split.
      { cbn. by rewrite str_app_nil_r. }
      by exists [], (inbuf, obleft, r).
Qed.

Lemma loop_run_evolves (fuel : nat) s0 :
  forall st inbuf obleft B e st' calls,
    evolves s0 st ->
    loop_run fuel st inbuf obleft B = (e, st', calls) ->
    evolves s0 st'.
Proof.
  induction fuel as [|fuel IH]; intros st inbuf obleft B e st' calls Hev Hrun.
  { cbn in Hrun. by injection Hrun as <- <- <-. }
  cbn [loop_run] in Hrun.
  set (r := lib_conv st inbuf obleft) in *.
  assert (Hev' : evolves s0 (cr_state r)) by by apply evolves_conv.
  destruct (cr_ret r =? size_t_cast (-1))%Z.
  - destruct (cr_errno r =? E2BIG)%Z.
    + destruct (loop_run fuel (cr_state r) (cr_inbuf r) LUAL_BUFFERSIZE _)
        as [[e1 st1] calls1] eqn:Hrec.
      injection Hrun as <- <- <-. by eapply IH.
    + by injection Hrun as <- <- <-.
  - destruct (negb (cr_ret r =? size_t_cast 0)%Z).
    + destruct (loop_run fuel (cr_state r) (cr_inbuf r) _ _)
        as [[e1 st1] calls1] eqn:Hrec.
      injection Hrun as <- <- <-. by eapply IH.
    + by injection Hrun as <- <- <-.
Qed.

Lemma new_events_app (s s' : state) evs :
  trace s' = trace s ++ evs -> new_events s s' = evs.
Proof. intros H. unfold new_events. by rewrite H, drop_app_length. Qed.

End Calls.

Section Convert.
Context `{lib : IconvLib} `{P : Platform}.

Lemma convert_call_open (fuel : nat) (s : state) h cd st v inp c :
  is_handle s h cd -> cd <> NULL -> descs s !! cd = Some st ->
  as_string v = Some inp ->
  convert_call fuel h v c ->
  c s = convert_outcome fuel cd st inp s.
Proof.
  intros Hh Hnull Hcd Hv [[ups ->] | ->].
  - by apply Liconv_call_open.
  - destruct Hh as (m & Hu & _).
    by apply (Liconv_closure_call_open fuel s h _ st v inp Hu).
Qed.

Lemma convert_call_closed (fuel : nat) (s : state) h v inp c :
  is_handle s h NULL ->
  as_string v = Some inp ->
  convert_call fuel h v c ->
  c s = Ok [LNil; LString "invalid iconv handle"] s.
Proof.
  intros Hh Hv [[ups ->] | ->].
  - by apply Liconv_call_closed with inp.
  - destruct Hh as (m & Hu & _).
    by apply (Liconv_closure_call_closed fuel s h _ v inp Hu).
Qed.

End Convert.

Lemma invoke_converter `{lib : IconvLib} `{P : Platform} (fuel : nat) h v :
  lua_invoke fuel (LFunction F_closure [LUserdata h]) [v]
  = lua_call (Liconv_closure fuel) [v] [LUserdata h].
Proof. reflexivity. Qed.

Lemma invoke_method `{lib : IconvLib} `{P : Platform} (fuel : nat) h v :
  lua_invoke fuel (LFunction F_iconv []) [LUserdata h; v]
  = lua_call (Liconv fuel) [LUserdata h; v] [].
Proof. reflexivity. Qed.

(** ** Closing *)

Section Close.
Context `{lib : IconvLib} `{P : Platform}.

Lemma Liconv_close_call_closed (s : state) h ups :
  is_handle s h NULL ->
  lua_call Liconv_close [LUserdata h] ups s = Ok [] s.
Proof.
  intros (m & Hu & Hr).
  destruct s as [stk upv ud tb reg en ds tr]. cbn in Hu, Hr.
  unfold lua_call, Liconv_close.
  unfold bind at 1, luaL_checkudata. simpl. rewrite Hu, Hr. simpl.
  rewrite decide_True by done.
  unfold bind at 1, ud_load. simpl. rewrite Hu. by simpl.
Qed.

Lemma Liconv_close_call_released (s : state) h m cd st ups :
  udatas s !! h = Some (mkUdata cd (Some m)) ->
  registry s !! ICONV_TYPENAME = Some (LTable m) ->
  cd <> NULL ->
  descs s !! cd = Some st -> lib_release st = None ->
  lua_call Liconv_close [LUserdata h] ups s =
  Ok [] (set_udatas (fun l => <[h := mkUdata NULL (Some m)]> l)
           (log (EvClose cd 0) (set_descs (delete cd) s))).
Proof.
  intros Hu Hr Hnull Hcd Hrel.
  destruct s as [stk upv ud tb reg en ds tr]. cbn in Hu, Hr, Hcd.
  unfold lua_call, Liconv_close.
  unfold bind at 1, luaL_checkudata. simpl. rewrite Hu, Hr. simpl.
  rewrite decide_True by done.
  unfold bind at 1, ud_load. simpl. rewrite Hu. simpl.
  destruct (cd =? NULL)%Z eqn:E; [apply Z.eqb_eq in E; done|]. simpl.
  unfold bind at 1, iconv_close. simpl. rewrite Hcd, Hrel. simpl.
  unfold bind at 1, ud_store. simpl. rewrite Hu. by simpl.
Qed.

Lemma Liconv_close_call_stuck (s : state) h cd st e ups :
  is_handle s h cd -> cd <> NULL ->
  descs s !! cd = Some st -> lib_release st = Some e ->
  lua_call Liconv_close [LUserdata h] ups s =
  Ok [] (log (EvClose cd (-1)) (set_errno e s)).
Proof.
  intros (m & Hu & Hr) Hnull Hcd Hrel.
  destruct s as [stk upv ud tb reg en ds tr]. cbn in Hu, Hr, Hcd.
  unfold lua_call, Liconv_close.
  unfold bind at 1, luaL_checkudata. simpl. rewrite Hu, Hr. simpl.
  rewrite decide_True by done.
  unfold bind at 1, ud_load. simpl. rewrite Hu. simpl.
  destruct (cd =? NULL)%Z eqn:E; [apply Z.eqb_eq in E; done|]. simpl.
  unfold bind at 1, iconv_close. simpl. rewrite Hcd, Hrel. by simpl.
Qed.

End Close.

(** ** Opening *)

Lemma state_ext {C : Type} (s1 s2 : state_of C) :
  stack s1 = stack s2 -> upvalues s1 = upvalues s2 ->
  udatas s1 = udatas s2 -> tables s1 = tables s2 ->
  registry s1 = registry s2 -> errno s1 = errno s2 ->
  descs s1 = descs s2 -> trace s1 = trace s2 ->
  s1 = s2.
Proof. destruct s1, s2. cbn. by intros -> -> -> -> -> -> -> ->. Qed.

Section Open.
Context `{lib : IconvLib} `{P : Platform}.

Lemma Liconv_new_refused (s : state) a b tocode fromcode e :
  stack s = [a; b] ->
  as_string a = Some tocode -> as_string b = Some fromcode ->
  lib_open (c_str tocode) (c_str fromcode) = inr e ->
  Liconv_new s =
  Ok 2%Z
     (set_stack (fun _ => [LString tocode; LString fromcode;
                           LNil; LString (strerror e)])
        (log (EvOpen (c_str tocode) (c_str fromcode) ICONV_T_MINUS1)
           (set_errno e s))).
Proof.
  intros Hs Ha Hb Hopen.
  destruct s as [stk upv ud tb reg en ds tr]. cbn in Hs. subst stk.
  unfold Liconv_new, luaL_checkstring.
  destruct a as [| |na|sa| | |]; try discriminate; cbn in Ha; injection Ha as <-;
  destruct b as [| |nb|sb| | |]; try discriminate; cbn in Hb; injection Hb as <-.
  all: unfold bind at 1; unfold bind at 1; unfold luaL_checklstring at 1; simpl.
  all: unfold bind at 1; unfold bind at 1; unfold luaL_checklstring at 1; simpl.
  all: unfold bind at 1, iconv_open; simpl; rewrite Hopen; by simpl.
Qed.

Lemma Liconv_new_opened (s : state) a b tocode fromcode st0 m :
  stack s = [a; b] ->
  as_string a = Some tocode -> as_string b = Some fromcode ->
  lib_open (c_str tocode) (c_str fromcode) = inl st0 ->
  lib_alloc (descs s) <> ICONV_T_MINUS1 ->
  registry s !! ICONV_TYPENAME = Some (LTable m) ->
  Liconv_new s =
  Ok 1%Z
     (set_stack (fun _ => [LString tocode; LString fromcode;
                           LUserdata (length (udatas s))])
        (set_udatas (fun l => l ++ [mkUdata (lib_alloc (descs s)) (Some m)])
           (log (EvOpen (c_str tocode) (c_str fromcode) (lib_alloc (descs s)))
              (set_descs (insert (lib_alloc (descs s)) st0) s)))).
Proof.
  intros Hs Ha Hb Hopen Hcd Hr.
  destruct s as [stk upv ud tb reg en ds tr]. cbn in Hs, Hcd, Hr. subst stk.
  unfold Liconv_new, luaL_checkstring.
  destruct a as [| |na|sa| | |]; try discriminate; cbn in Ha; injection Ha as <-;
  destruct b as [| |nb|sb| | |]; try discriminate; cbn in Hb; injection Hb as <-.
  all: unfold bind at 1; unfold bind at 1; unfold luaL_checklstring at 1; simpl.
  all: unfold bind at 1; unfold bind at 1; unfold luaL_checklstring at 1; simpl.
  all: unfold bind at 1, iconv_open; simpl; rewrite Hopen; simpl.
  all: destruct (lib_alloc ds =? ICONV_T_MINUS1)%Z eqn:E;
         [apply Z.eqb_eq in E; done|]; simpl.
  all: unfold bind, ud_store, luaL_getmetatable, lua_setmetatable, push, modify, ret;
         simpl.
  all: rewrite list_lookup_middle by done; simpl.
  all: rewrite Hr; simpl.
  all: rewrite insert_app_r_alt, Nat.sub_diag by done; simpl.
  all: rewrite list_lookup_middle by done; simpl.
  all: apply (f_equal (Ok _)), state_ext; simpl; try done.
  all: by rewrite !insert_app_r_alt, Nat.sub_diag by done.
Qed.

Lemma Liconv_new_bad_first (s : state) a b :
  stack s = [a; b] -> as_string a = None ->
  Liconv_new s = Raised (ArgError 1 "string") s.
Proof.
  intros Hs Ha. destruct s as [stk upv ud tb reg en ds tr]. cbn in Hs. subst stk.
  unfold Liconv_new, luaL_checkstring.
  destruct a; try discriminate.
  all: unfold bind at 1; unfold bind at 1; unfold luaL_checklstring at 1; by simpl.
Qed.

Lemma Liconv_new_bad_second (s : state) a b tocode :
  stack s = [a; b] -> as_string a = Some tocode -> as_string b = None ->
  Liconv_new s =
  Raised (ArgError 2 "string") (set_stack (fun _ => [LString tocode; b]) s).
Proof.
  intros Hs Ha Hb. destruct s as [stk upv ud tb reg en ds tr]. cbn in Hs. subst stk.
  unfold Liconv_new, luaL_checkstring.
  destruct a as [| |na|sa| | |]; try discriminate; cbn in Ha; injection Ha as <-;
    destruct b; try discriminate.
  all: unfold bind at 1; unfold bind at 1; unfold luaL_checklstring at 1; by simpl.
Qed.

Opaque Liconv_new.

Lemma Liconv_new_call_refused (s : state) a b tocode fromcode e ups :
  as_string a = Some tocode -> as_string b = Some fromcode ->
  lib_open (c_str tocode) (c_str fromcode) = inr e ->
  lua_call Liconv_new [a; b] ups s =
  Ok [LNil; LString (strerror e)]
     (log (EvOpen (c_str tocode) (c_str fromcode) ICONV_T_MINUS1) (set_errno e s)).
Proof.
  intros Ha Hb Hopen. unfold lua_call.
  rewrite (Liconv_new_refused _ a b tocode fromcode e) by done.
  simpl. apply (f_equal (Ok _)), state_ext; by simpl.
Qed.

Lemma Liconv_new_call_opened (s : state) a b tocode fromcode st0 m ups :
  as_string a = Some tocode -> as_string b = Some fromcode ->
  lib_open (c_str tocode) (c_str fromcode) = inl st0 ->
  lib_alloc (descs s) <> ICONV_T_MINUS1 ->
  registry s !! ICONV_TYPENAME = Some (LTable m) ->
  lua_call Liconv_new [a; b] ups s =
  Ok [LUserdata (length (udatas s))]
     (set_udatas (fun l => l ++ [mkUdata (lib_alloc (descs s)) (Some m)])
        (log (EvOpen (c_str tocode) (c_str fromcode) (lib_alloc (descs s)))
           (set_descs (insert (lib_alloc (descs s)) st0) s))).
Proof.
  intros Ha Hb Hopen Hcd Hr. unfold lua_call.
  rewrite (Liconv_new_opened _ a b tocode fromcode st0 m) by done.
  simpl. apply (f_equal (Ok _)), state_ext; by simpl.
Qed.

Lemma Liconv_new_call_bad_first (s : state) a b ups :
  as_string a = None ->
  lua_call Liconv_new [a; b] ups s = Raised (ArgError 1 "string") s.
Proof.
  intros Ha. unfold lua_call.
  rewrite (Liconv_new_bad_first _ a b) by done.
  apply (f_equal (Raised _)), state_ext; by simpl.
Qed.

Lemma Liconv_new_call_bad_second (s : state) a b tocode ups :
  as_string a = Some tocode -> as_string b = None ->
  lua_call Liconv_new [a; b] ups s = Raised (ArgError 2 "string") s.
Proof.
  intros Ha Hb. unfold lua_call.
  rewrite (Liconv_new_bad_second _ a b tocode) by done.
  apply (f_equal (Raised _)), state_ext; by simpl.
Qed.

Lemma Liconv_open_call_refused (s : state) t a b tocode fromcode e ups :
  as_string a = Some tocode -> as_string b = Some fromcode ->
  lib_open (c_str tocode) (c_str fromcode) = inr e ->
  lua_call Liconv_open [LTable t; a; b] ups s =
  Ok [LNil; LString (strerror e)]
     (log (EvOpen (c_str tocode) (c_str fromcode) ICONV_T_MINUS1) (set_errno e s)).
Proof.
  intros Ha Hb Hopen. unfold lua_call, Liconv_open.
  unfold bind at 1, lua_type, gets. simpl.
  unfold bind at 1, lua_remove. simpl.
  unfold bind at 1.
  rewrite (Liconv_new_refused _ a b tocode fromcode e) by done.
  simpl. apply (f_equal (Ok _)), state_ext; by simpl.
Qed.

Lemma Liconv_open_call_opened (s : state) t a b tocode fromcode st0 m ups :
  as_string a = Some tocode -> as_string b = Some fromcode ->
  lib_open (c_str tocode) (c_str fromcode) = inl st0 ->
  lib_alloc (descs s) <> ICONV_T_MINUS1 ->
  registry s !! ICONV_TYPENAME = Some (LTable m) ->
  lua_call Liconv_open [LTable t; a; b] ups s =
  Ok [LFunction F_closure [LUserdata (length (udatas s))]]
     (set_udatas (fun l => l ++ [mkUdata (lib_alloc (descs s)) (Some m)])
        (log (EvOpen (c_str tocode) (c_str fromcode) (lib_alloc (descs s)))
           (set_descs (insert (lib_alloc (descs s)) st0) s))).
Proof.
  intros Ha Hb Hopen Hcd Hr. unfold lua_call, Liconv_open.
  unfold bind at 1, lua_type, gets. simpl.
  unfold bind at 1, lua_remove. simpl.
  unfold bind at 1.
  rewrite (Liconv_new_opened _ a b tocode fromcode st0 m) by done.
  simpl. apply (f_equal (Ok _)), state_ext; by simpl.
Qed.

Transparent Liconv_new.

End Open.

Lemma c_str_no_nul (s : string) :
  Forall (fun c => c <> Ascii.zero) (list_ascii_of_string s) -> c_str s = s.
Proof.
  induction s as [|c s IH]; [done|]. cbn [list_ascii_of_string c_str].
  intros [Hc Hs]%Forall_cons.
  destruct (Ascii.eqb c Ascii.zero) eqn:E; [by apply Ascii.eqb_eq in E|].
  by rewrite IH.
Qed.

(** ** The small library keeps the contract of [iconv] *)

Section Mini.
Context (P : Platform).

Lemma mini_run_bounded (fuel : nat) :
  forall p sh inbuf obleft,
    String.length (cr_written (mini_run fuel p sh inbuf obleft)) <= obleft.
Proof.
  induction fuel as [|fuel IH]; intros p sh [|c inbuf] obleft;
    cbn [mini_run cr_written String.length]; try lia.
  destruct (mini_step p sh (String c inbuf)) as [k out sh'| |];
    cbn [cr_written String.length]; try lia.
  destruct (String.length out <=? obleft) eqn:E;
    cbn [cr_written String.length]; try lia.
  apply Nat.leb_le in E. rewrite str_length_app.
  specialize (IH p sh' (str_drop (S k) (String c inbuf))
                 (obleft - String.length out)). lia.
Qed.

Lemma mini_run_fuel (f1 : nat) :
  forall f2 p sh inbuf obleft,
    String.length inbuf <= f1 ->
    String.length inbuf <= f2 ->
    mini_run f1 p sh inbuf obleft = mini_run f2 p sh inbuf obleft.
Proof.
  induction f1 as [|f1 IH]; intros [|f2] p sh [|c inbuf] obleft H1 H2;
    cbn [String.length] in *; try done; try lia.
  cbn [mini_run].
  destruct (mini_step p sh (String c inbuf)) as [k out sh'| |]; try done.
  destruct (String.length out <=? obleft); try done.
  assert (Hd : String.length (str_drop (S k) (String c inbuf))
               <= String.length inbuf).
  { rewrite str_drop_length. cbn [String.length]. lia. }
  by rewrite (IH f2 p sh' _ _) by lia.
Qed.

Lemma mini_bounded stuck : conv_bounded (mini_lib P stuck).
Proof. intros st inbuf obleft. apply mini_run_bounded. Qed.


Lemma conv_fails_failed {C} e i w (st : C) :
  (cr_ret (mkConv (size_t_cast (-1)) e i w st) =? size_t_cast (-1))%Z = true.
Proof. apply Z.eqb_refl. Qed.

Lemma mini_run_done (fuel : nat) :
  forall p sh inbuf obleft,
    String.length inbuf <= fuel ->
    (cr_ret (mini_run fuel p sh inbuf obleft) =? size_t_cast (-1))%Z = false ->
    cr_inbuf (mini_run fuel p sh inbuf obleft) = EmptyString.
Proof.
  induction fuel as [|fuel IH]; intros p sh [|c inbuf] obleft Hf;
    cbn [String.length] in *; try done; try lia.
  cbn [mini_run].
  destruct (mini_step p sh (String c inbuf)) as [k out sh'| |];
    [|by rewrite conv_fails_failed..].
  destruct (String.length out <=? obleft); [|by rewrite conv_fails_failed].
  cbn [cr_ret cr_inbuf]. apply IH.
  rewrite str_drop_length. cbn [String.length]. lia.
Qed.

Lemma mini_run_pair (fuel : nat) :
  forall p sh inbuf obleft,
    ms_pair (cr_state (mini_run fuel p sh inbuf obleft)) = p.
Proof.
  induction fuel as [|fuel IH]; intros p sh [|c inbuf] obleft; try done.
  cbn [mini_run].
  destruct (mini_step p sh (String c inbuf)) as [k out sh'| |]; try done.
  destruct (String.length out <=? obleft); try done.
  cbn [cr_state]. apply IH.
Qed.

Lemma mini_done stuck : conv_done (mini_lib P stuck).
Proof. intros st inbuf obleft. by apply mini_run_done. Qed.

Lemma mini_empty stuck : conv_empty (mini_lib P stuck).
Proof. intros [p sh] obleft. by cbn. Qed.

Lemma mini_run_restart (fuel : nat) :
  forall p sh inbuf n m,
    String.length inbuf <= fuel ->
    let r := mini_run fuel p sh inbuf n in
    String.length (cr_written r) <= m ->
    let r' := mini_conv (cr_state r) (cr_inbuf r) (m - String.length (cr_written r)) in
    let R := mini_run fuel p sh inbuf m in
    cr_written R = cr_written r +:+ cr_written r'
    /\ cr_inbuf R = cr_inbuf r'
    /\ cr_state R = cr_state r'
    /\ cr_ret R = cr_ret r'
    /\ cr_errno R = cr_errno r'.
Proof.
  induction fuel as [|fuel IH]; intros p sh [|c inbuf] n m Hf;
    cbn [String.length] in *; try done; try lia.
  assert (Hstop : forall e,
            let r0 := mkConv (size_t_cast (-1)) e (String c inbuf) EmptyString
                             (mkMini p sh) in
            let r' := mini_conv (cr_state r0) (cr_inbuf r0)
                                (m - String.length (cr_written r0)) in
            let R := mini_run (S fuel) p sh (String c inbuf) m in
            cr_written R = cr_written r0 +:+ cr_written r'
            /\ cr_inbuf R = cr_inbuf r' /\ cr_state R = cr_state r'
            /\ cr_ret R = cr_ret r' /\ cr_errno R = cr_errno r').
  { intros e. cbn [cr_state cr_inbuf cr_written String.length].
    unfold mini_conv. cbn [ms_pair ms_shift].
    rewrite Nat.sub_0_r.
    by rewrite (mini_run_fuel (S fuel) (String.length (String c inbuf)))
      by (cbn [String.length]; lia). }
  cbn [mini_run].
  destruct (mini_step p sh (String c inbuf)) as [k out sh'| |] eqn:Hstep.
  2:{ intros _. pose proof (Hstop EINVAL) as H. cbn [mini_run] in H.
      rewrite Hstep in H. exact H. }
  2:{ intros _. pose proof (Hstop EILSEQ) as H. cbn [mini_run] in H.
      rewrite Hstep in H. exact H. }
  destruct (String.length out <=? n) eqn:En.
  2:{ intros _. pose proof (Hstop E2BIG) as H. cbn [mini_run] in H.
      rewrite Hstep in H. exact H. }
  cbn [cr_written cr_state cr_inbuf cr_ret cr_errno].
  rewrite str_length_app. intros Hm.
  destruct (String.length out <=? m) eqn:Em; [|apply Nat.leb_gt in Em; lia].
  cbn [cr_written cr_state cr_inbuf cr_ret cr_errno].
  assert (Hd : String.length (str_drop (S k) (String c inbuf)) <= fuel).
  { rewrite str_drop_length. cbn [String.length]. lia. }
  destruct (IH p sh' (str_drop (S k) (String c inbuf))
               (n - String.length out) (m - String.length out) Hd
               ltac:(lia)) as (Hw & Hi & Hs & Hr & He).
  rewrite Nat.sub_add_distr.
  rewrite Hw, Hi, Hs, Hr, He. by rewrite str_app_assoc.
Qed.

Lemma mini_restart stuck : conv_restart (mini_lib P stuck).
Proof.
  intros [p sh] inbuf n m r Hm r' R.
  destruct (mini_run_restart (String.length inbuf) p sh inbuf n m
              (le_n _) Hm) as (Hw & Hi & Hs & Hr & He).
  split; [exact Hw|]. split; [exact Hi|]. split; [exact Hs|]. split.
  - unfold conv_fails. f_equal. exact Hr.
  - intros _. exact He.
Qed.

Lemma mini_open_unshifted tocode fromcode s0 :
  mini_open tocode fromcode = inl s0 -> ms_shift s0 = false.
Proof.
  unfold mini_open. repeat case_decide; intros [=]; by subst.
Qed.

Lemma mini_evolves_pair stuck (s0 s : mini_state) :
  @evolves (mini_lib P stuck) s0 s -> ms_pair s = ms_pair s0.
Proof.
  induction 1 as [|s inbuf obleft _ IH|s _ IH]; [done| |done].
  cbn. unfold mini_conv. by rewrite mini_run_pair.
Qed.

Lemma mini_reset_initial stuck : reset_initial (mini_lib P stuck).
Proof.
  intros tocode fromcode s0 s Hopen Hev. cbn in *.
  rewrite (mini_evolves_pair stuck s0 s Hev).
  apply mini_open_unshifted in Hopen. destruct s0 as [p0 sh0]; cbn in *.
  by subst.
Qed.

End Mini.

(** ** Chunks *)

Section Chunks.
Context `{lib : IconvLib} (P : Platform).
Hypothesis Hbounded : conv_bounded lib.
Hypothesis Hdone : conv_done lib.
Hypothesis Hempty : conv_empty lib.
Hypothesis Hrestart : conv_restart lib.

Lemma zero_is_not_minus1 : (0 =? size_t_cast (-1))%Z = false.
Proof. reflexivity. Qed.

Lemma zero_is_zero : (0 =? size_t_cast 0)%Z = true.
Proof. reflexivity. Qed.

Lemma ret_zero_not_failed (r : conv_result cdstate) :
  cr_ret r = 0%Z -> conv_fails r = false.
Proof. unfold conv_fails. by intros ->. Qed.

(** A call that does not fail would do the same with any room that holds
    its output. *)
Lemma conv_fits st inbuf n m :
  conv_fails (lib_conv st inbuf n) = false ->
  String.length (cr_written (lib_conv st inbuf n)) <= m ->
  cr_written (lib_conv st inbuf m) = cr_written (lib_conv st inbuf n)
  /\ conv_fails (lib_conv st inbuf m) = false
  /\ cr_inbuf (lib_conv st inbuf m) = EmptyString
  /\ cr_state (lib_conv st inbuf m) = cr_state (lib_conv st inbuf n).
Proof.
  intros Hok Hm.
  destruct (Hrestart st inbuf n m Hm) as (Hw & Hi & Hs & Hf & _).
  rewrite (Hdone st inbuf n Hok) in Hw, Hi, Hs, Hf.
  destruct (Hempty (cr_state (lib_conv st inbuf n))
              (m - String.length (cr_written (lib_conv st inbuf n))))
    as (Hr0 & Hi0 & Hw0 & Hs0).
  rewrite Hw0, str_app_nil_r in Hw. rewrite Hi0 in Hi. rewrite Hs0 in Hs.
  rewrite (ret_zero_not_failed _ Hr0) in Hf. done.
Qed.

Lemma loop_done_one_call (fuel : nat) :
  forall st inbuf obleft B B' st' calls,
    @loop_run lib P fuel st inbuf obleft B = (LoopDone B', st', calls) ->
    exists out,
      B' = B +:+ out
      /\ forall m, String.length out <= m ->
           cr_written (lib_conv st inbuf m) = out
           /\ conv_fails (lib_conv st inbuf m) = false
           /\ cr_inbuf (lib_conv st inbuf m) = EmptyString
           /\ cr_state (lib_conv st inbuf m) = st'.
Proof.
  induction fuel as [|fuel IH]; intros st inbuf obleft B B' st' calls Hrun;
    [done|].
  cbn [loop_run] in Hrun.
  set (r := lib_conv st inbuf obleft) in *.
  rewrite luaL_addsize_all in Hrun by apply Hbounded.
  destruct (cr_ret r =? size_t_cast (-1))%Z eqn:Eret.
  - destruct (cr_errno r =? E2BIG)%Z eqn:Ebig; [|done].
    destruct (loop_run fuel (cr_state r) (cr_inbuf r) LUAL_BUFFERSIZE _)
      as [[e1 st1] calls1] eqn:Hrec.
    injection Hrun as -> -> <-.
    destruct (IH _ _ _ _ _ _ _ Hrec) as (out1 & -> & Hone).
    exists (cr_written r +:+ out1). split; [by rewrite str_app_assoc|].
    intros m Hm. rewrite str_length_app in Hm.
    destruct (Hrestart st inbuf obleft m) as (Hw & Hi & Hs & Hf & _);
      [fold r; lia|]. fold r in Hw, Hi, Hs, Hf.
    destruct (Hone (m - String.length (cr_written r)) ltac:(lia))
      as (Hw1 & Hf1 & Hi1 & Hs1).
    rewrite Hw1 in Hw. rewrite Hf1 in Hf. rewrite Hi1 in Hi. rewrite Hs1 in Hs.
    done.
  - assert (Hfit : forall m, String.length (cr_written r) <= m ->
              cr_written (lib_conv st inbuf m) = cr_written r
              /\ conv_fails (lib_conv st inbuf m) = false
              /\ cr_inbuf (lib_conv st inbuf m) = EmptyString
              /\ cr_state (lib_conv st inbuf m) = cr_state r)
      by (intros m Hm; by apply conv_fits).
    destruct (negb (cr_ret r =? size_t_cast 0)%Z) eqn:Ezero.
    + destruct (loop_run fuel (cr_state r) (cr_inbuf r) _ _)
        as [[e1 st1] calls1] eqn:Hrec.
      injection Hrun as -> -> <-.
      destruct (IH _ _ _ _ _ _ _ Hrec) as (out1 & -> & Hone).
      destruct (Hone (String.length out1) (le_n _)) as (Hw1 & _ & _ & Hs1).
      assert (Hin : cr_inbuf r = EmptyString) by (by apply Hdone).
      rewrite Hin in Hw1, Hs1.
      destruct (Hempty (cr_state r) (String.length out1)) as (_ & _ & Hw0 & Hs0).
      rewrite Hw0 in Hw1. rewrite Hs0 in Hs1. subst out1 st'.
      exists (cr_written r). split; [by rewrite str_app_nil_r|]. exact Hfit.
    + injection Hrun as <- <- <-.
      exists (cr_written r). split; [done|]. exact Hfit.
Qed.

(** With room for the whole output, the loop is over after the first
    call, or after a second one on the empty rest. *)
Lemma one_shot_run st inp out st' M :
  String.length out <= M ->
  cr_written (lib_conv st inp M) = out ->
  conv_fails (lib_conv st inp M) = false ->
  cr_inbuf (lib_conv st inp M) = EmptyString ->
  cr_state (lib_conv st inp M) = st' ->
  exists calls,
    @loop_run lib (with_buffersize P M) 2 st inp M EmptyString
    = (LoopDone out, st', calls).
Proof.
  intros Hm Hw Hf Hi Hs. cbn [loop_run].
  unfold conv_fails in Hf. rewrite Hf, Hw, Hi, Hs.
  rewrite (luaL_addsize_all EmptyString out M Hm). cbn [String.append].
  destruct (negb (cr_ret (lib_conv st inp M) =? size_t_cast 0)%Z).
  - destruct (Hempty st' (M - String.length out)) as (Hr0 & Hi0 & Hw0 & Hs0).
    rewrite Hr0, Hw0, Hs0, zero_is_not_minus1, zero_is_zero.
    cbn [negb String.length]. rewrite Nat.sub_0_r.
    unfold luaL_addsize. rewrite Nat.sub_diag. cbn [str_take].
    rewrite str_app_nil_r. by eexists.
  - by eexists.
Qed.

End Chunks.

Lemma convert_loop_on_E2BIG `{lib : IconvLib} `{P : Platform}
  (fuel : nat) cd st inbuf obleft B (s : state) :
  descs s !! cd = Some st ->
  let r := lib_conv st inbuf obleft in
  conv_fails r = true -> cr_errno r = E2BIG ->
  String.length (cr_written r) <= obleft ->
  convert_loop (S fuel) cd inbuf obleft B s
  = convert_loop fuel cd (cr_inbuf r) LUAL_BUFFERSIZE (B +:+ cr_written r)
      (log (EvConv cd inbuf obleft r)
         (set_errno E2BIG (set_descs (insert cd (cr_state r)) s))).
Proof.
  intros Hcd r Hf He Hw. cbn [convert_loop].
  unfold bind at 1. unfold iconv at 1. rewrite Hcd. fold r.
  unfold conv_fails in Hf. rewrite Hf.
  unfold bind at 1, gets at 1. cbn [errno log set_errno set_descs].
  rewrite He, Z.eqb_refl.
  unfold bind at 1, luaL_prepbuffer, ret.
  by rewrite luaL_addsize_all.
Qed.

(** ** The shift state *)

Section Reset.
Context `{lib : IconvLib} `{P : Platform}.

Lemma loop_run_last (fuel : nat) :
  forall st inbuf obleft B e st' calls,
    loop_run fuel st inbuf obleft B = (e, st', calls) ->
    e <> LoopFuel ->
    exists calls0 last, calls = calls0 ++ [last] /\ st' = cr_state last.2.
Proof.
  induction fuel as [|fuel IH]; intros st inbuf obleft B e st' calls Hrun Hne.
  { cbn in Hrun. by injection Hrun as <- <- <-. }
  cbn [loop_run] in Hrun.
  set (r := lib_conv st inbuf obleft) in *.
  destruct (cr_ret r =? size_t_cast (-1))%Z.
  - destruct (cr_errno r =? E2BIG)%Z.
    + destruct (loop_run fuel (cr_state r) (cr_inbuf r) LUAL_BUFFERSIZE _)
        as [[e1 st1] calls1] eqn:Hrec.
      injection Hrun as <- <- <-.
      destruct (IH _ _ _ _ _ _ _ Hrec Hne) as (calls0 & last & -> & ->).
      by exists ((inbuf, obleft, r) :: calls0), last.
    + injection Hrun as <- <- <-. by exists [], (inbuf, obleft, r).
  - destruct (negb (cr_ret r =? size_t_cast 0)%Z).
    + destruct (loop_run fuel (cr_state r) (cr_inbuf r) _ _)
        as [[e1 st1] calls1] eqn:Hrec.
      injection Hrun as <- <- <-.
      destruct (IH _ _ _ _ _ _ _ Hrec Hne) as (calls0 & last & -> & ->).
      by exists ((inbuf, obleft, r) :: calls0), last.
    + injection Hrun as <- <- <-. by exists [], (inbuf, obleft, r).
Qed.

Lemma values_of_convert_outcome (fuel : nat) cd cd' st inp (s s' : state) :
  values_of (convert_outcome fuel cd st inp s)
  = values_of (convert_outcome fuel cd' st inp s').
Proof.
  unfold convert_outcome.
  by destruct (loop_run fuel st inp LUAL_BUFFERSIZE EmptyString)
    as [[[B'|B' e|] st'] calls].
Qed.

Lemma no_reset_among_calls cd cd' (calls : list conv_call) :
  EvReset cd' ∉ map (call_event cd) calls.
Proof.
  intros Hin. apply list_elem_of_fmap in Hin as (c & Hc & _). discriminate Hc.
Qed.

End Reset.

(** ** The loop ends *)

Section Termination.
Context `{lib : IconvLib} `{P : Platform}.
Hypothesis Hdone : conv_done lib.
Hypothesis Hempty : conv_empty lib.
Hypothesis Hprogress : conv_progress lib P.

Lemma loop_run_on_empty (fuel : nat) st obleft B :
  (loop_run (S fuel) st EmptyString obleft B).1.1 <> LoopFuel.
Proof.
  cbn [loop_run].
  destruct (Hempty st obleft) as (Hr0 & _ & _ & _).
  rewrite Hr0, zero_is_not_minus1, zero_is_zero. by cbn.
Qed.

Lemma loop_run_returns (n : nat) :
  forall fuel st inbuf B,
    String.length inbuf <= n -> n + 2 <= fuel ->
    (loop_run fuel st inbuf LUAL_BUFFERSIZE B).1.1 <> LoopFuel.
Proof.
  induction n as [|n IH]; intros [|fuel] st inbuf B Hn Hfuel; try lia.
  - destruct inbuf; [|cbn in Hn; lia]. apply loop_run_on_empty.
  - cbn [loop_run].
    set (r := lib_conv st inbuf LUAL_BUFFERSIZE).
    destruct (cr_ret r =? size_t_cast (-1))%Z eqn:Eret.
    + destruct (cr_errno r =? E2BIG)%Z eqn:Ebig; [|done].
      apply Z.eqb_eq in Ebig.
      pose proof (Hprogress st inbuf Eret Ebig) as Hlt. fold r in Hlt.
      specialize (IH fuel (cr_state r) (cr_inbuf r)
                     (luaL_addsize B (cr_written r)
                        (LUAL_BUFFERSIZE
                         - (LUAL_BUFFERSIZE - String.length (cr_written r))))
                     ltac:(lia) ltac:(lia)).
      by destruct (loop_run fuel (cr_state r) (cr_inbuf r) LUAL_BUFFERSIZE _)
        as [[e1 st1] calls1].
    + destruct (negb (cr_ret r =? size_t_cast 0)%Z); [|done].
      assert (Hin : cr_inbuf r = EmptyString) by (by apply Hdone).
      rewrite Hin. destruct fuel as [|fuel]; [lia|].
      pose proof (loop_run_on_empty fuel (cr_state r)
                    (LUAL_BUFFERSIZE - String.length (cr_written r))
                    (luaL_addsize B (cr_written r)
                       (LUAL_BUFFERSIZE
                        - (LUAL_BUFFERSIZE - String.length (cr_written r)))))
        as Hne.
      by destruct (loop_run (S fuel) (cr_state r) EmptyString _ _)
        as [[e1 st1] calls1].
Qed.

(** With fuel for two calls more than the input has bytes, a conversion
    on an open handle returns. *)
Lemma conversion_returns (fuel : nat) (s : state) h cd st v inp c :
  is_handle s h cd -> cd <> NULL -> descs s !! cd = Some st ->
  as_string v = Some inp ->
  convert_call fuel h v c ->
  String.length inp + 2 <= fuel ->
  exists rs (s' : state), c s = Ok rs s'.
Proof.
  intros Hh Hnull Hcd Hv Hc Hfuel.
  rewrite (convert_call_open fuel s h cd st v inp c) by done.
  unfold convert_outcome.
  pose proof (loop_run_returns (String.length inp) fuel st inp EmptyString
                (le_n _) Hfuel) as Hne.
  destruct (loop_run fuel st inp LUAL_BUFFERSIZE EmptyString)
    as [[[B'|B' e|] st'] calls]; [by eexists _, _..|done].
Qed.

End Termination.

Section MiniProgress.
Context (P : Platform).
Hypothesis Hroom : 4 <= LUAL_BUFFERSIZE.
Hypothesis Hinval : EINVAL <> E2BIG.
Hypothesis Hilseq : EILSEQ <> E2BIG.

Lemma str_take_length_le (n : nat) (s : string) :
  String.length (str_take n s) <= n.
Proof.
  revert s. induction n as [|n IH]; intros [|c s]; cbn; try lia.
  specialize (IH s). lia.
Qed.

Lemma utf8_decode_extra s k cp : utf8_decode s = U_ok k cp -> k <= 3.
Proof.
  unfold utf8_decode. repeat case_match; intros [=]; lia.
Qed.

Lemma mini_step_room p sh s k out sh' :
  mini_step p sh s = DChar k out sh' -> String.length out <= 4.
Proof.
  unfold mini_step. destruct p.
  - repeat case_match; intros [=]; subst; cbn; lia.
  - destruct (utf8_decode s); repeat case_match; intros [=]; subst; cbn; lia.
  - destruct (utf8_decode s) as [k' cp| |] eqn:Hd; intros [=]; subst.
    apply utf8_decode_extra in Hd.
    change (String.length (str_take (S k) s) <= 4).
    pose proof (str_take_length_le (S k) s). lia.
  - repeat case_match; intros [=]; subst; cbn; lia.
Qed.

Lemma mini_run_inbuf_le (fuel : nat) :
  forall p sh inbuf obleft,
    String.length (cr_inbuf (mini_run fuel p sh inbuf obleft))
    <= String.length inbuf.
Proof.
  induction fuel as [|fuel IH]; intros p sh [|c inbuf] obleft; try done.
  cbn [mini_run].
  destruct (mini_step p sh (String c inbuf)) as [k out sh'| |]; try done.
  destruct (String.length out <=? obleft); try done.
  cbn [cr_inbuf].
  etrans; [apply IH|]. rewrite str_drop_length. lia.
Qed.

Lemma mini_progress stuck : conv_progress (mini_lib P stuck) P.
Proof.
  intros [p sh] [|c inbuf] r; subst r; [done|].
  cbn [lib_conv mini_lib]. unfold mini_conv. cbn [ms_pair ms_shift String.length].
  cbn [mini_run].
  destruct (mini_step p sh (String c inbuf)) as [k out sh'| |] eqn:Hstep.
  - pose proof (mini_step_room _ _ _ _ _ _ Hstep) as Hout.
    destruct (String.length out <=? LUAL_BUFFERSIZE) eqn:E;
      [|apply Nat.leb_gt in E; lia].
    intros _ _. cbn [cr_inbuf].
    pose proof (mini_run_inbuf_le (String.length inbuf) p sh'
                  (str_drop (S k) (String c inbuf))
                  (LUAL_BUFFERSIZE - String.length out)) as Hle.
    rewrite str_drop_length in Hle. cbn [String.length] in Hle. lia.
  - intros _ He. cbn in He. done.
  - intros _ He. cbn in He. done.
Qed.

End MiniProgress.

(** On the small library with the Linux constants and a four-byte chunk,
    every conversion on an open handle returns. *)
Lemma demo_conversion_returns (fuel : nat) (s : state_of mini_state)
  h cd st v inp c :
  @is_handle demo_lib s h cd -> cd <> NULL -> descs s !! cd = Some st ->
  @as_string linux4 v = Some inp ->
  @convert_call demo_lib linux4 fuel h v c ->
  String.length inp + 2 <= fuel ->
  exists rs (s' : state_of mini_state), c s = Ok rs s'.
Proof.
  apply (@conversion_returns demo_lib linux4).
  - apply mini_done.
  - apply mini_empty.
  - apply mini_progress; [cbn; lia|discriminate|discriminate].
Qed.

(** ** From the calls to the run *)

Section ChainRun.
Context `{lib : IconvLib} `{P : Platform}.
Hypothesis Hbounded : conv_bounded lib.

Lemma loop_run_of_chain (calls : list conv_call) :
  forall st inbuf obleft B last fuel,
    chained st inbuf obleft (calls ++ [last]) ->
    (if conv_fails last.2 then cr_errno last.2 <> E2BIG
     else cr_ret last.2 = 0%Z) ->
    length calls < fuel ->
    loop_run fuel st inbuf obleft B
    = (if conv_fails last.2
       then LoopFailed (B +:+ str_concat (map call_written (calls ++ [last])))
                       (cr_errno last.2)
       else LoopDone (B +:+ str_concat (map call_written (calls ++ [last]))),
       cr_state last.2, calls ++ [last]).
Proof.
  induction calls as [|c calls IH];
    intros st inbuf obleft B last [|fuel] Hch Hend Hfuel; cbn in Hfuel; try lia.
  - cbn [app chained] in Hch. destruct Hch as (-> & _ & _).
    cbn [loop_run]. cbn [snd] in Hend |- *.
    set (r := lib_conv st inbuf obleft) in *.
    rewrite (luaL_addsize_all B (cr_written r) obleft) by apply Hbounded.
    unfold conv_fails in *.
    change (str_concat (map call_written ([] ++ [(inbuf, obleft, r)])))
      with (cr_written r +:+ EmptyString).
    rewrite str_app_nil_r. cbn [app].
    destruct (cr_ret r =? size_t_cast (-1))%Z eqn:Eret.
    + apply Z.eqb_neq in Hend. by rewrite Hend.
    + rewrite Hend. by rewrite zero_is_zero.
  - cbn [app] in Hch |- *. cbn [chained] in Hch.
    destruct Hch as (-> & Hle & Hrest).
    destruct (calls ++ [last]) as [|c1 rest] eqn:Erest; [by destruct calls|].
    cbn [loop_run].
    set (r := lib_conv st inbuf obleft) in *.
    rewrite (luaL_addsize_all B (cr_written r) obleft) by apply Hbounded.
    unfold conv_fails in Hrest.
    destruct (cr_ret r =? size_t_cast (-1))%Z eqn:Eret.
    + destruct Hrest as [He Hch]. rewrite He, Z.eqb_refl.
      rewrite <- Erest in Hch |- *.
      rewrite (IH _ _ _ (B +:+ cr_written r) last fuel Hch Hend) by lia.
      change (str_concat (map call_written ((inbuf, obleft, r) :: calls ++ [last])))
        with (cr_written r +:+ str_concat (map call_written (calls ++ [last]))).
      rewrite !str_app_assoc. by destruct (conv_fails last.2).
    + destruct Hrest as [Hne Hch].
      assert (E0 : (cr_ret r =? size_t_cast 0)%Z = false).
      { apply Z.eqb_neq. by change (size_t_cast 0) with 0%Z. }
      rewrite E0. cbn [negb].
      rewrite <- Erest in Hch |- *.
      rewrite (IH _ _ _ (B +:+ cr_written r) last fuel Hch Hend) by lia.
      change (str_concat (map call_written ((inbuf, obleft, r) :: calls ++ [last])))
        with (cr_written r +:+ str_concat (map call_written (calls ++ [last]))).
      rewrite !str_app_assoc. by destruct (conv_fails last.2).
Qed.

End ChainRun.

(** * The statements of the specification *)

(** ** The module table *)

Lemma module_error_constants `{lib : IconvLib} `{P : Platform} :
  exists t (s' : state),
    lua_call luaopen_iconv [] [] initial_state = Ok [LTable t] s'
    /\ field_of s' (LTable t) "ERROR_INCOMPLETE" = Some (LNumber EILSEQ)
    /\ field_of s' (LTable t) "ERROR_INVALID" = Some (LNumber EINVAL)
    /\ field_of s' (LTable t) "VERSION" = Some (LString "iconv 7").
Proof.
  exists 0. eexists. split; [vm_compute; reflexivity|].
  repeat apply conj; vm_compute; reflexivity.
Qed.

(** C1, on the code.  The module stores [EILSEQ] under [ERROR_INCOMPLETE]
    and [EINVAL] under [ERROR_INVALID].  With the Linux values (EINVAL
    22, EILSEQ 84): converting the first two bytes of the euro sign from
    UTF-8, a truncated sequence, fails with code 22, which is not the
    value of [ERROR_INCOMPLETE] but that of [ERROR_INVALID]; converting
    the byte 0xFF, an illegal sequence, fails with code 84, which is not
    the value of [ERROR_INVALID] but that of [ERROR_INCOMPLETE]. *)
Theorem error_constants_are_swapped :
  let s := demo_open "UTF-8" "UTF-8" in
  @field_of demo_lib s demo_module "ERROR_INCOMPLETE" = Some (LNumber 84)
  /\ @field_of demo_lib s demo_module "ERROR_INVALID" = Some (LNumber 22)
  /\ values_of (@lua_call demo_lib (@Liconv demo_lib linux4 5)
                  [LUserdata 0; LString euro_cut] [] s)
     = Values [LNil; LString "Invalid argument"; LString EmptyString; LNumber 22]
  /\ values_of (@lua_call demo_lib (@Liconv demo_lib linux4 5)
                  [LUserdata 0; LString byte_ff] [] s)
     = Values [LNil; LString "Invalid or incomplete multibyte or wide character";
               LString EmptyString; LNumber 84]
  /\ @EINVAL linux4 = 22%Z /\ @EILSEQ linux4 = 84%Z.
Proof.
  cbv zeta. repeat apply conj; vm_compute; reflexivity.
Qed.

(** ** Conversion: the error paths *)

(** C2, as it is worded, fails: after a failed conversion of the euro
    sign to ISO-8859-1 the third value is the (empty) output, not the
    handle. *)
Lemma error_tuple_third_is_not_handle : ~ error_tuple_echoes_handle.
Proof.
  intros H.
  assert (Hh : @is_handle demo_lib (demo_open "ISO-8859-1" "UTF-8") 0 4096%Z)
    by (exists 2; split; reflexivity).
  assert (Hrun :
    @lua_call demo_lib (@Liconv demo_lib linux4 5)
      [LUserdata 0; LString euro] [] (demo_open "ISO-8859-1" "UTF-8")
    = Ok [LNil; LString "Invalid or incomplete multibyte or wide character";
          LString EmptyString; LNumber 84]
         (state_after
            (@lua_call demo_lib (@Liconv demo_lib linux4 5)
               [LUserdata 0; LString euro] [] (demo_open "ISO-8859-1" "UTF-8"))
            demo_loaded))
    by (vm_compute; reflexivity).
  pose proof (H demo_lib linux4 5 _ _ 0 4096%Z (mkMini UTF8_to_Latin1 false)
                (LString euro) euro [] _ Hh ltac:(discriminate)
                eq_refl eq_refl Hrun eq_refl) as H'.
  discriminate H'.
Qed.

(** C2, amended.  A conversion that fails in the library returns [nil],
    the message of the error code, the output collected up to the
    failure, and the error code: the third value is a string, the partial
    output, and never the handle. *)
Theorem error_tuple_shape `{lib : IconvLib} `{P : Platform}
  (fuel : nat) (s s' : state) h cd st v inp ups rs :
  is_handle s h cd -> cd <> NULL -> descs s !! cd = Some st ->
  as_string v = Some inp ->
  lua_call (Liconv fuel) [LUserdata h; v] ups s = Ok rs s' ->
  rs !! 0 = Some LNil ->
  exists partial e,
    (loop_run fuel st inp LUAL_BUFFERSIZE EmptyString).1.1 = LoopFailed partial e
    /\ rs = [LNil; LString (strerror e); LString partial; LNumber e]
    /\ rs !! 2 <> Some (LUserdata h).
Proof.
  intros Hh Hnull Hcd Hv Hcall Hnil.
  rewrite (Liconv_call_open fuel s h cd st v inp) in Hcall by done.
  unfold convert_outcome in Hcall.
  destruct (loop_run fuel st inp LUAL_BUFFERSIZE EmptyString)
    as [[[B'|B' e|] st'] calls]; [| |done].
  - injection Hcall as <- <-. discriminate Hnil.
  - injection Hcall as <- <-. by exists B', e.
Qed.

Lemma error_tuple_shape_witness :
  exists partial e,
    (@loop_run demo_lib linux4 5 (mkMini UTF8_to_Latin1 false) euro 4
       EmptyString).1.1 = LoopFailed partial e
    /\ [LNil; LString "Invalid or incomplete multibyte or wide character";
        LString EmptyString; LNumber 84]
       = [LNil; LString (@strerror linux4 e); LString partial; LNumber e]
    /\ [LNil; LString "Invalid or incomplete multibyte or wide character";
        LString EmptyString; LNumber 84] !! 2 <> Some (LUserdata 0).
Proof.
  apply (@error_tuple_shape demo_lib linux4 5
           (demo_open "ISO-8859-1" "UTF-8")
           (state_after
              (@lua_call demo_lib (@Liconv demo_lib linux4 5)
                 [LUserdata 0; LString euro] [] (demo_open "ISO-8859-1" "UTF-8"))
              demo_loaded)
           0 4096%Z (mkMini UTF8_to_Latin1 false) (LString euro) euro []).
  - exists 2; split; reflexivity.
  - discriminate.
  - reflexivity.
  - reflexivity.
  - vm_compute; reflexivity.
  - reflexivity.
Defined.

(** C3.  A conversion on a closed handle (its descriptor is the null
    pointer) returns at once [nil] and the message "invalid iconv handle":
    two values, no output bytes and no error code, and nothing else
    changes.  A result of a conversion on an open handle never has this
    shape: when it starts with [nil] it has four values, the last one the
    numeric code. *)
Theorem convert_on_closed_handle `{lib : IconvLib} `{P : Platform}
  (fuel : nat) (s : state) h v inp :
  is_handle s h NULL ->
  as_string v = Some inp ->
  Liconv_convert fuel NULL inp s
    = Ok 2%Z (set_stack (fun l => l ++ [LNil; LString "invalid iconv handle"]) s)
  /\ (forall c, convert_call fuel h v c ->
        c s = Ok [LNil; LString "invalid iconv handle"] s)
  /\ forall (s2 s2' : state) h2 cd st c rs,
       is_handle s2 h2 cd -> cd <> NULL -> descs s2 !! cd = Some st ->
       convert_call fuel h2 v c ->
       c s2 = Ok rs s2' ->
       rs <> [LNil; LString "invalid iconv handle"]
       /\ (rs !! 0 = Some LNil ->
           exists msg out e, rs = [LNil; LString msg; LString out; LNumber e]).
Proof.
  intros Hh Hv. split; [apply Liconv_convert_null|].
  split; [intros c Hc; by apply (convert_call_closed fuel s h v inp)|].
  intros s2 s2' h2 cd st c rs Hh2 Hnull Hcd Hc Hcall.
  rewrite (convert_call_open fuel s2 h2 cd st v inp c) in Hcall by done.
  unfold convert_outcome in Hcall.
  destruct (loop_run fuel st inp LUAL_BUFFERSIZE EmptyString)
    as [[[B'|B' e|] st'] calls]; [| |done].
  - injection Hcall as <- <-. split; [done|]. intros [=].
  - injection Hcall as <- <-. split; [done|]. intros _. by eexists _, _, _.
Qed.

Lemma convert_on_closed_handle_witness :
  @is_handle demo_lib demo_closed 0 NULL
  /\ @lua_call demo_lib (@Liconv demo_lib linux4 5)
       [LUserdata 0; LString "abc"] [] demo_closed
     = Ok [LNil; LString "invalid iconv handle"] demo_closed
  /\ @lua_invoke demo_lib linux4 5 (LFunction F_closure [LUserdata 0])
       [LString "abc"] demo_closed
     = Ok [LNil; LString "invalid iconv handle"] demo_closed.
Proof.
  assert (Hh : @is_handle demo_lib demo_closed 0 NULL)
    by (exists 2; split; reflexivity).
  split; [exact Hh|].
  pose proof (proj1 (proj2 (@convert_on_closed_handle demo_lib linux4 5
                              demo_closed 0 (LString "abc") "abc" Hh eq_refl)))
    as H.
  split.
  - apply H. left. by exists [].
  - apply H. by right.
Defined.

(** C4.  When a call of [iconv] fails in the course of a conversion,
    with an error other than [E2BIG], the conversion returns [nil], the
    message of the error, the output and the error code, and the output
    is made of the bytes written by every call of [iconv] that the
    conversion made, those of the failing call included: nothing that
    was produced is dropped, and the failure is not passed over.  The
    calls are those the loop makes: each one goes on where the one
    before it stopped, the last one is the one that fails.  This holds
    for the handle method and for the converter closure alike.  (The
    library writes within the room it is given.) *)
Theorem partial_output_returned `{lib : IconvLib} `{P : Platform}
  (fuel : nat) (s : state) h cd st v inp c calls last :
  conv_bounded lib ->
  is_handle s h cd -> cd <> NULL -> descs s !! cd = Some st ->
  as_string v = Some inp ->
  convert_call fuel h v c ->
  chained st inp LUAL_BUFFERSIZE (calls ++ [last]) ->
  conv_fails last.2 = true ->
  cr_errno last.2 <> E2BIG ->
  length calls < fuel ->
  exists s' : state,
    c s = Ok [LNil;
              LString (strerror (cr_errno last.2));
              LString (str_concat (map call_written calls) +:+ call_written last);
              LNumber (cr_errno last.2)] s'
    /\ new_events s s' = map (call_event cd) (calls ++ [last])
    /\ descs s' !! cd = Some (cr_state last.2).
Proof.
  intros Hb Hh Hnull Hcd Hv Hc Hch Hf He Hfuel.
  rewrite (convert_call_open fuel s h cd st v inp c) by done.
  unfold convert_outcome.
  rewrite (loop_run_of_chain Hb calls st inp LUAL_BUFFERSIZE EmptyString
             last fuel Hch) by (by rewrite ?Hf).
  rewrite Hf.
  change (EmptyString +:+ str_concat (map call_written (calls ++ [last])))
    with (str_concat (map call_written (calls ++ [last]))).
  rewrite map_app, str_concat_app.
  change (str_concat (map call_written [last]))
    with (call_written last +:+ EmptyString).
  rewrite str_app_nil_r.
  eexists. split; [reflexivity|]. split.
  - apply new_events_app. cbn. by rewrite map_app.
  - cbn. apply lookup_insert_eq.
Qed.

Lemma partial_output_returned_witness :
  let st := mkMini UTF8_to_Latin1 false in
  let r1 := @lib_conv demo_lib st demo_text 4 in
  let first : @conv_call demo_lib := (demo_text, 4, r1) in
  let last : @conv_call demo_lib :=
    (cr_inbuf r1, 4, @lib_conv demo_lib (cr_state r1) (cr_inbuf r1) 4) in
  exists s' : state_of mini_state,
    @lua_call demo_lib (@Liconv demo_lib linux4 5)
      [LUserdata 0; LString demo_text] [] (demo_open "ISO-8859-1" "UTF-8")
    = Ok [LNil; LString "Invalid or incomplete multibyte or wide character";
          LString ("abcdef" +:+ e_acute_latin1); LNumber 84] s'
    /\ @new_events demo_lib (demo_open "ISO-8859-1" "UTF-8") s'
       = map (@call_event demo_lib 4096%Z) ([first] ++ [last])
    /\ descs s' !! 4096%Z = Some (cr_state last.2).
Proof.
  intros st r1 first last.
  apply (@partial_output_returned demo_lib linux4 5
           (demo_open "ISO-8859-1" "UTF-8") 0 4096%Z st
           (LString demo_text) demo_text
           (@lua_call demo_lib (@Liconv demo_lib linux4 5)
              [LUserdata 0; LString demo_text] [])
           [first] last).
  - apply mini_bounded.
  - exists 2; split; reflexivity.
  - discriminate.
  - reflexivity.
  - reflexivity.
  - left. by exists [].
  - vm_compute. repeat apply conj; try done; lia.
  - reflexivity.
  - discriminate.
  - cbn. lia.
Defined.

(** ** Closed handles *)

(** C5.  Once [close] has released a handle's descriptor, the handle
    holds the null pointer.  From then on a [close] on it returns
    nothing and leaves the state as it is (no error, no call of
    [iconv_close]), and a conversion on it, by the handle method or by
    the converter closure bound to it, returns [nil] and "invalid iconv
    handle" and leaves the state as it is (no call of [iconv]). *)
Theorem closed_handle_stays_closed `{lib : IconvLib} `{P : Platform}
  (s : state) h cd st ups :
  is_handle s h cd -> cd <> NULL ->
  descs s !! cd = Some st -> lib_release st = None ->
  exists s1 : state,
    lua_call Liconv_close [LUserdata h] ups s = Ok [] s1
    /\ new_events s s1 = [EvClose cd 0]
    /\ descs s1 !! cd = None
    /\ is_handle s1 h NULL
    /\ (forall ups', lua_call Liconv_close [LUserdata h] ups' s1 = Ok [] s1)
    /\ (forall fuel v inp c,
          as_string v = Some inp -> convert_call fuel h v c ->
          c s1 = Ok [LNil; LString "invalid iconv handle"] s1).
Proof.
  intros Hh Hnull Hcd Hrel. destruct Hh as (m & Hu & Hr).
  eexists. split; [by apply (Liconv_close_call_released s h m cd st)|].
  assert (Hh1 : is_handle
            (set_udatas (fun l => <[h := mkUdata NULL (Some m)]> l)
               (log (EvClose cd 0) (set_descs (delete cd) s))) h NULL).
  { exists m. split; [|done]. cbn.
    apply list_lookup_insert_eq. by eapply lookup_lt_Some. }
  split; [by apply new_events_app|].
  split; [cbn; apply lookup_delete_eq|].
  split; [done|].
  split.
  - intros ups'. by apply Liconv_close_call_closed.
  - intros fuel v inp c Hv Hc. by apply (convert_call_closed fuel _ h v inp).
Qed.

Lemma closed_handle_stays_closed_witness :
  exists s1 : state_of mini_state,
    @lua_call demo_lib (@Liconv_close demo_lib) [LUserdata 0] []
      (demo_open "UTF-8" "UTF-8") = Ok [] s1
    /\ @new_events demo_lib (demo_open "UTF-8" "UTF-8") s1 = [EvClose 4096%Z 0%Z]
    /\ descs s1 !! 4096%Z = None
    /\ @is_handle demo_lib s1 0 NULL
    /\ (forall ups', @lua_call demo_lib (@Liconv_close demo_lib)
                       [LUserdata 0] ups' s1 = Ok [] s1)
    /\ (forall fuel v inp c,
          @as_string linux4 v = Some inp ->
          @convert_call demo_lib linux4 fuel 0 v c ->
          c s1 = Ok [LNil; LString "invalid iconv handle"] s1).
Proof.
  apply (@closed_handle_stays_closed demo_lib linux4
           (demo_open "UTF-8" "UTF-8") 0 4096%Z (mkMini UTF8_to_UTF8 false) []).
  - exists 2; split; reflexivity.
  - discriminate.
  - reflexivity.
  - reflexivity.
Defined.

(** ** Chunks and the shift state *)

(** C6.  A call of [iconv] that stops with [E2BIG] does not end the
    conversion: the loop goes on with the bytes written so far added to
    the buffer, a scratch chunk of full size, and the rest of the input.
    And chunking does not show in the result: when a conversion returns
    [out], one call of [iconv] on the whole input with room for [out], or
    more, writes exactly [out], and the conversion run with a scratch
    chunk of that size returns the same [out] and leaves the descriptor
    in the same state.  (The library keeps the contract of iconv(3): it
    writes within the room it is given, reads all its input unless it
    fails, does nothing on empty input, and converts incrementally.) *)
Theorem chunking_is_invisible `{lib : IconvLib} (P : Platform)
  (fuel : nat) (s s' : state) h cd st v inp c out :
  conv_bounded lib -> conv_done lib -> conv_empty lib -> conv_restart lib ->
  is_handle s h cd -> cd <> NULL -> descs s !! cd = Some st ->
  @as_string P v = Some inp ->
  @convert_call lib P fuel h v c ->
  c s = Ok [LString out] s' ->
  (forall fuel' inbuf obleft B (s0 : state) st0,
     descs s0 !! cd = Some st0 ->
     let r := lib_conv st0 inbuf obleft in
     conv_fails r = true -> cr_errno r = @E2BIG P ->
     @convert_loop lib P (S fuel') cd inbuf obleft B s0
     = @convert_loop lib P fuel' cd (cr_inbuf r) (@LUAL_BUFFERSIZE P)
         (B +:+ cr_written r)
         (log (EvConv cd inbuf obleft r)
            (set_errno (@E2BIG P) (set_descs (insert cd (cr_state r)) s0))))
  /\ forall M, String.length out <= M ->
       cr_written (lib_conv st inp M) = out
       /\ conv_fails (lib_conv st inp M) = false
       /\ cr_inbuf (lib_conv st inp M) = EmptyString
       /\ exists s'' : state,
            lua_call (@Liconv lib (with_buffersize P M) 2) [LUserdata h; v] [] s
            = Ok [LString out] s''
            /\ descs s'' = descs s'.
Proof.
  intros Hb Hd He Hr Hh Hnull Hcd Hv Hc Hcall. split.
  { intros fuel' inbuf obleft B s0 st0 Hcd0 r Hf Hbig.
    by apply (@convert_loop_on_E2BIG lib P). }
  rewrite (@convert_call_open lib P fuel s h cd st v inp c) in Hcall by done.
  unfold convert_outcome in Hcall.
  destruct (@loop_run lib P fuel st inp LUAL_BUFFERSIZE EmptyString)
    as [[[B'|B' e|] st'] calls] eqn:Hrun; [| |done]; [|done].
  injection Hcall as <- <-.
  destruct (loop_done_one_call P Hb Hd He Hr fuel _ _ _ _ _ _ _ Hrun)
    as (out & -> & Hone).
  change (EmptyString +:+ out) with out in *. intros M HM.
  destruct (Hone M HM) as (Hw & Hf & Hi & Hs).
  split; [done|]. split; [done|]. split; [done|].
  destruct (one_shot_run P He st inp out st' M HM Hw Hf Hi Hs)
    as (calls1 & Hone_shot).
  eexists. split.
  - rewrite (@Liconv_call_open lib (with_buffersize P M) 2 s h cd st v inp)
      by done.
    unfold convert_outcome. cbn [LUAL_BUFFERSIZE with_buffersize].
    by rewrite Hone_shot.
  - reflexivity.
Qed.

Lemma chunking_is_invisible_witness :
  cr_written (@lib_conv demo_lib (mkMini Latin1_to_UTF8 false) demo_latin1 64)
  = demo_utf8
  /\ @conv_fails demo_lib
       (@lib_conv demo_lib (mkMini Latin1_to_UTF8 false) demo_latin1 64) = false
  /\ cr_inbuf (@lib_conv demo_lib (mkMini Latin1_to_UTF8 false) demo_latin1 64)
     = EmptyString
  /\ exists s'' : state_of mini_state,
       @lua_call demo_lib (@Liconv demo_lib (with_buffersize linux4 64) 2)
         [LUserdata 0; LString demo_latin1] [] (demo_open "UTF-8" "ISO-8859-1")
       = Ok [LString demo_utf8] s''
       /\ descs s''
          = descs (demo_after
                     (@lua_call demo_lib (@Liconv demo_lib linux4 5)
                        [LUserdata 0; LString demo_latin1] [])
                     (demo_open "UTF-8" "ISO-8859-1")).
Proof.
  apply (proj2 (@chunking_is_invisible demo_lib linux4 5
           (demo_open "UTF-8" "ISO-8859-1")
           (demo_after
              (@lua_call demo_lib (@Liconv demo_lib linux4 5)
                 [LUserdata 0; LString demo_latin1] [])
              (demo_open "UTF-8" "ISO-8859-1"))
           0 4096%Z (mkMini Latin1_to_UTF8 false)
           (LString demo_latin1) demo_latin1
           (@lua_call demo_lib (@Liconv demo_lib linux4 5)
              [LUserdata 0; LString demo_latin1] [])
           demo_utf8
           (mini_bounded linux4 None) (mini_done linux4 None)
           (mini_empty linux4 None) (mini_restart linux4 None)
           ltac:(exists 2; split; reflexivity)
           ltac:(discriminate)
           eq_refl eq_refl
           ltac:(left; by exists [])
           ltac:(vm_compute; reflexivity)) 64).
  vm_compute. lia.
Defined.

(** C7.  A conversion that succeeds ends with one call of [iconv] with
    null arguments, made after the last converting call; a conversion
    that fails in the library makes no such call and leaves the
    descriptor in the state in which the failing call left it.  With a
    library whose null call restores the state a descriptor was opened
    in, the descriptor is, after every successful conversion, in that
    state again: whatever is converted next on the handle gives what it
    gives on a handle just opened for the same pair of encodings. *)
Theorem reset_after_success `{lib : IconvLib} `{P : Platform}
  (fuel : nat) (s s1 : state) h cd tocode fromcode s0 st v inp c rs :
  reset_initial lib ->
  lib_open tocode fromcode = inl s0 -> evolves s0 st ->
  is_handle s h cd -> cd <> NULL -> descs s !! cd = Some st ->
  as_string v = Some inp ->
  convert_call fuel h v c ->
  c s = Ok rs s1 ->
  (forall out, rs = [LString out] ->
     exists calls,
       new_events s s1 = map (call_event cd) calls ++ [EvReset cd]
       /\ descs s1 !! cd = Some s0
       /\ is_handle s1 h cd
       /\ forall fuel2 v2 inp2 c2 (sf : state) hf cdf cf,
            as_string v2 = Some inp2 ->
            convert_call fuel2 h v2 c2 ->
            is_handle sf hf cdf -> cdf <> NULL -> descs sf !! cdf = Some s0 ->
            convert_call fuel2 hf v2 cf ->
            values_of (c2 s1) = values_of (cf sf))
  /\ (rs !! 0 = Some LNil ->
      exists calls last,
        new_events s s1 = map (call_event cd) (calls ++ [last])
        /\ (EvReset cd ∉ new_events s s1)
        /\ descs s1 !! cd = Some (cr_state last.2)).
Proof.
  intros Hreset Hopen Hev Hh Hnull Hcd Hv Hc Hcall.
  rewrite (convert_call_open fuel s h cd st v inp c) in Hcall by done.
  unfold convert_outcome in Hcall.
  destruct (loop_run fuel st inp LUAL_BUFFERSIZE EmptyString)
    as [[e st'] calls] eqn:Hrun.
  pose proof (loop_run_evolves fuel s0 _ _ _ _ _ _ _ Hev Hrun) as Hev'.
  destruct e as [B'|B' e|]; [| |done].
  - injection Hcall as <- <-. split; [|intros [=]].
    intros out _. exists calls.
    assert (Hd : descs (log (EvReset cd)
                          (after_calls cd (lib_reset st') calls s)) !! cd
                 = Some s0).
    { cbn. rewrite lookup_insert_eq. f_equal. by eapply Hreset. }
    assert (Hh1 : is_handle (log (EvReset cd)
                               (after_calls cd (lib_reset st') calls s)) h cd)
      by (destruct Hh as (m & ? & ?); by exists m).
    split; [apply new_events_app; cbn; by rewrite <- app_assoc|].
    split; [done|]. split; [done|].
    intros fuel2 v2 inp2 c2 sf hf cdf cf Hv2 Hc2 Hhf Hnf Hdf Hcf.
    rewrite (convert_call_open fuel2 _ h cd s0 v2 inp2 c2) by done.
    rewrite (convert_call_open fuel2 sf hf cdf s0 v2 inp2 cf) by done.
    apply values_of_convert_outcome.
  - injection Hcall as <- <-. split; [intros out [=]|]. intros _.
    destruct (loop_run_last fuel _ _ _ _ _ _ _ Hrun ltac:(done))
      as (calls0 & last & -> & ->).
    exists calls0, last.
    assert (Hn : new_events s (after_calls cd (cr_state last.2)
                                 (calls0 ++ [last]) s)
                 = map (call_event cd) (calls0 ++ [last]))
      by by apply new_events_app.
    split; [done|]. split.
    + rewrite Hn. apply no_reset_among_calls.
    + cbn. apply lookup_insert_eq.
Qed.

Lemma reset_after_success_witness :
  let s := demo_open "ISO-8859-1" "X-SHIFT7" in
  let c := @lua_call demo_lib (@Liconv demo_lib linux4 5)
             [LUserdata 0; LString shift_text] [] in
  let s1 := demo_after c s in
  c s = Ok [LString shifted_abc] s1
  /\ descs s1 !! 4096%Z = Some (mkMini Shift7_to_Latin1 false)
  /\ values_of (@lua_call demo_lib (@Liconv demo_lib linux4 5)
                  [LUserdata 0; LString "abc"] [] s1)
     = values_of (@lua_call demo_lib (@Liconv demo_lib linux4 5)
                    [LUserdata 0; LString "abc"] [] s).
Proof.
  intros s c s1.
  assert (Hrun : c s = Ok [LString shifted_abc] s1) by (vm_compute; reflexivity).
  assert (Hh : @is_handle demo_lib s 0 4096%Z) by (exists 2; split; reflexivity).
  destruct (@reset_after_success demo_lib linux4 5 s s1 0 4096%Z
              "ISO-8859-1" "X-SHIFT7" (mkMini Shift7_to_Latin1 false)
              (mkMini Shift7_to_Latin1 false) (LString shift_text) shift_text c
              [LString shifted_abc]
              (mini_reset_initial linux4 None) eq_refl
              (@evolves_refl demo_lib _) Hh ltac:(discriminate) eq_refl eq_refl
              ltac:(left; by exists []) Hrun) as [Hok _].
  destruct (Hok shifted_abc eq_refl) as (calls & _ & Hd & _ & Hsame).
  split; [exact Hrun|]. split; [exact Hd|].
  apply (Hsame 5 (LString "abc") "abc" _ s 0 4096%Z _ eq_refl
           ltac:(left; by exists []) Hh ltac:(discriminate) eq_refl
           ltac:(left; by exists [])).
Defined.

(** ** Opening and closing *)

(** C8, as it is worded, fails: [open] with an empty encoding name raises
    no argument error; the name goes to the library. *)
Lemma empty_name_reaches_library : ~ empty_name_rejected.
Proof.
  intros H.
  destruct (H demo_lib linux4 demo_loaded (LString EmptyString) (LString "UTF-8")
              [] (or_introl eq_refl)) as (e & s' & Hcall & _).
  rewrite (@Liconv_new_call_refused demo_lib linux4 demo_loaded
             (LString EmptyString) (LString "UTF-8") EmptyString "UTF-8" 22%Z [])
    in Hcall by reflexivity.
  discriminate Hcall.
Qed.

(** C8, amended.  [open] checks of its two arguments only that each is
    a string or a number (which is converted); an empty string passes
    like any other.  The names go to the library as C strings, that is
    unchanged unless they hold a NUL byte, and what [open] returns is
    decided by the library's registry alone: a handle when it accepts
    the pair, [nil] and its message when it does not.  An argument that
    is neither a string nor a number is an argument error, raised before
    the library is called. *)
Theorem open_passes_names_through `{lib : IconvLib} `{P : Platform}
  (s : state) a b tocode fromcode m ups :
  as_string a = Some tocode -> as_string b = Some fromcode ->
  registry s !! ICONV_TYPENAME = Some (LTable m) ->
  lib_alloc (descs s) <> ICONV_T_MINUS1 ->
  (exists (rs : list lua_value) (s' : state) cd,
     lua_call Liconv_new [a; b] ups s = Ok rs s'
     /\ new_events s s' = [EvOpen (c_str tocode) (c_str fromcode) cd]
     /\ match lib_open (c_str tocode) (c_str fromcode) with
        | inl st0 =>
            cd = lib_alloc (descs s)
            /\ rs = [LUserdata (length (udatas s))]
            /\ is_handle s' (length (udatas s)) cd
            /\ descs s' !! cd = Some st0
        | inr e => cd = ICONV_T_MINUS1 /\ rs = [LNil; LString (strerror e)]
        end)
  /\ (Forall (fun c => c <> Ascii.zero) (list_ascii_of_string tocode) ->
      c_str tocode = tocode)
  /\ (Forall (fun c => c <> Ascii.zero) (list_ascii_of_string fromcode) ->
      c_str fromcode = fromcode)
  /\ (forall x y, as_string x = None ->
        lua_call Liconv_new [x; y] ups s = Raised (ArgError 1 "string") s)
  /\ (forall y, as_string y = None ->
        lua_call Liconv_new [a; y] ups s = Raised (ArgError 2 "string") s).
Proof.
  intros Ha Hb Hr Hcd. split; [|split; [|split; [|split]]].
  - destruct (lib_open (c_str tocode) (c_str fromcode)) as [st0|e] eqn:Hopen.
    + eexists _, _, _. split; [by apply (Liconv_new_call_opened s a b)|].
      split; [by apply new_events_app|].
      split; [done|]. split; [done|]. split.
      * exists m. split; [|done]. cbn. by apply list_lookup_middle.
      * cbn. apply lookup_insert_eq.
    + eexists _, _, _. split; [by apply (Liconv_new_call_refused s a b)|].
      split; [by apply new_events_app|]. done.
  - apply c_str_no_nul.
  - apply c_str_no_nul.
  - intros x y Hx. by apply Liconv_new_call_bad_first.
  - intros y Hy. by apply (Liconv_new_call_bad_second s a y tocode).
Qed.

Lemma open_passes_names_through_witness :
  exists (rs : list lua_value) (s' : state_of mini_state) cd,
    @lua_call demo_lib (@Liconv_new demo_lib linux4)
      [LString EmptyString; LString "UTF-8"] [] demo_loaded = Ok rs s'
    /\ @new_events demo_lib demo_loaded s' = [EvOpen EmptyString "UTF-8" cd]
    /\ cd = ICONV_T_MINUS1
    /\ rs = [LNil; LString "Invalid argument"].
Proof.
  exact (proj1 (@open_passes_names_through demo_lib linux4 demo_loaded
                  (LString EmptyString) (LString "UTF-8") EmptyString "UTF-8"
                  2 [] eq_refl eq_refl eq_refl ltac:(discriminate))).
Defined.

(** C9.  When [iconv_close] fails, [close] returns nothing and raises
    nothing; the handle still holds its descriptor, which is still open,
    so the next [close] calls [iconv_close] on it again.  And whatever
    state a handle is in (closed, or holding an open descriptor whose
    release succeeds or fails), [close] returns normally, with no
    value. *)
Theorem close_failure_keeps_handle `{lib : IconvLib} `{P : Platform}
  (s : state) h cd st e ups :
  is_handle s h cd -> cd <> NULL ->
  descs s !! cd = Some st -> lib_release st = Some e ->
  let s1 := log (EvClose cd (-1)) (set_errno e s) in
  lua_call Liconv_close [LUserdata h] ups s = Ok [] s1
  /\ is_handle s1 h cd
  /\ descs s1 !! cd = Some st
  /\ (exists s2 : state,
        lua_call Liconv_close [LUserdata h] ups s1 = Ok [] s2
        /\ new_events s1 s2 = [EvClose cd (-1)])
  /\ (forall (s' : state) h' cd' ups',
        is_handle s' h' cd' ->
        cd' = NULL \/ is_Some (descs s' !! cd') ->
        exists s'' : state, lua_call Liconv_close [LUserdata h'] ups' s' = Ok [] s'').
Proof.
  intros Hh Hnull Hcd Hrel s1.
  assert (Hh1 : is_handle s1 h cd) by (destruct Hh as (m & ? & ?); by exists m).
  split; [by apply (Liconv_close_call_stuck s h cd st)|].
  split; [done|]. split; [done|]. split.
  - eexists. split; [by apply (Liconv_close_call_stuck s1 h cd st)|].
    by apply new_events_app.
  - intros s' h' cd' ups' Hh' Hopen.
    destruct (decide (cd' = NULL)) as [->|Hn].
    { eexists. by apply Liconv_close_call_closed. }
    destruct Hopen as [?|[st' Hst']]; [done|].
    destruct (lib_release st') as [e'|] eqn:Hr'.
    + eexists. by apply (Liconv_close_call_stuck s' h' cd' st').
    + destruct Hh' as (m & ? & ?).
      eexists. by apply (Liconv_close_call_released s' h' m cd' st').
Qed.

Lemma close_failure_keeps_handle_witness :
  let s1 := @log stuck_lib (EvClose 4096%Z (-1)%Z) (@set_errno stuck_lib 9%Z stuck_open) in
  @lua_call stuck_lib (@Liconv_close stuck_lib) [LUserdata 0] [] stuck_open = Ok [] s1
  /\ @is_handle stuck_lib s1 0 4096%Z
  /\ descs s1 !! 4096%Z = Some (mkMini UTF8_to_UTF8 false)
  /\ (exists s2 : state_of mini_state,
        @lua_call stuck_lib (@Liconv_close stuck_lib) [LUserdata 0] [] s1 = Ok [] s2
        /\ @new_events stuck_lib s1 s2 = [EvClose 4096%Z (-1)%Z])
  /\ (forall (s' : state_of mini_state) h' cd' ups',
        @is_handle stuck_lib s' h' cd' ->
        cd' = NULL \/ is_Some (descs s' !! cd') ->
        exists s'' : state_of mini_state,
          @lua_call stuck_lib (@Liconv_close stuck_lib) [LUserdata h'] ups' s' = Ok [] s'').
Proof.
  apply (@close_failure_keeps_handle stuck_lib linux4 stuck_open 0 4096%Z
           (mkMini UTF8_to_UTF8 false) 9%Z []).
  - exists 2; split; reflexivity.
  - discriminate.
  - reflexivity.
  - reflexivity.
Defined.

(** C10.  When the library's registry refuses the pair of names, [open]
    (the [new] function, and the module called as a function) returns
    two values, [nil] and [strerror(errno)] for the [errno] the library
    has set: no handle is made, no descriptor is open, and no number is
    returned. *)
Theorem open_unknown_returns_message `{lib : IconvLib} `{P : Platform}
  (s : state) t a b tocode fromcode e ups :
  as_string a = Some tocode -> as_string b = Some fromcode ->
  lib_open (c_str tocode) (c_str fromcode) = inr e ->
  exists s' : state,
    lua_call Liconv_new [a; b] ups s = Ok [LNil; LString (strerror (errno s'))] s'
    /\ lua_call Liconv_open [LTable t; a; b] ups s
       = Ok [LNil; LString (strerror (errno s'))] s'
    /\ errno s' = e
    /\ udatas s' = udatas s
    /\ descs s' = descs s.
Proof.
  intros Ha Hb Hopen.
  exists (log (EvOpen (c_str tocode) (c_str fromcode) ICONV_T_MINUS1)
            (set_errno e s)).
  split; [by apply Liconv_new_call_refused|].
  split; [by apply Liconv_open_call_refused|]. done.
Qed.

Lemma open_unknown_returns_message_witness :
  exists s' : state_of mini_state,
    @lua_call demo_lib (@Liconv_new demo_lib linux4)
      [LString "KOI8-R"; LString "UTF-8"] [] demo_loaded
    = Ok [LNil; LString (@strerror linux4 (errno s'))] s'
    /\ @lua_call demo_lib (@Liconv_open demo_lib linux4)
         [LTable 0; LString "KOI8-R"; LString "UTF-8"] [] demo_loaded
       = Ok [LNil; LString (@strerror linux4 (errno s'))] s'
    /\ errno s' = 22%Z
    /\ udatas s' = udatas demo_loaded
    /\ descs s' = descs demo_loaded.
Proof.
  apply (@open_unknown_returns_message demo_lib linux4 demo_loaded 0
           (LString "KOI8-R") (LString "UTF-8") "KOI8-R" "UTF-8" 22%Z []).
  - reflexivity.
  - reflexivity.
  - reflexivity.
Defined.

(** * More of the code *)

(** ** Arguments of the wrong kind *)

Section BadArguments.
Context `{lib : IconvLib} `{P : Platform}.

Lemma Liconv_call_bad_arg (fuel : nat) (s : state) h cd v ups :
  is_handle s h cd -> as_string v = None ->
  lua_call (Liconv fuel) [LUserdata h; v] ups s = Raised (ArgError 2 "string") s.
Proof.
  intros (m & Hu & Hr) Hv.
  destruct s as [stk upv ud tb reg en ds tr]. cbn in Hu, Hr.
  unfold lua_call, Liconv.
  unfold bind at 1, luaL_checkudata. simpl. rewrite Hu, Hr. simpl.
  rewrite decide_True by done.
  unfold bind at 1, ud_load. simpl. rewrite Hu. simpl.
  destruct v; try discriminate.
  all: unfold bind at 1, luaL_checklstring; by simpl.
Qed.

Lemma Liconv_closure_call_bad_arg (fuel : nat) (s : state) h u v :
  udatas s !! h = Some u -> as_string v = None ->
  lua_call (Liconv_closure fuel) [v] [LUserdata h] s
  = Raised (ArgError 1 "string") s.
Proof.
  intros Hu Hv.
  destruct s as [stk upv ud tb reg en ds tr]. cbn in Hu.
  unfold lua_call, Liconv_closure.
  unfold bind at 1, lua_touserdata. simpl.
  unfold bind at 1, ud_load. simpl. rewrite Hu. simpl.
  destruct v; try discriminate.
  all: unfold bind at 1, luaL_checklstring; by simpl.
Qed.

Lemma not_a_handle_call (f : M Z) (g : nat -> M Z) (s : state) v rest ups :
  f = (p <- luaL_checkudata 1 ICONV_TYPENAME ;; g p) ->
  (forall h, v = LUserdata h ->
     exists u, udatas s !! h = Some u
               /\ forall m, ud_meta u = Some m ->
                    registry s !! ICONV_TYPENAME <> Some (LTable m)) ->
  lua_call f (v :: rest) ups s = Raised (ArgError 1 ICONV_TYPENAME) s.
Proof.
  intros -> Hv.
  destruct s as [stk upv ud tb reg en ds tr]. cbn in Hv.
  unfold lua_call. unfold bind at 1, luaL_checkudata.
  assert (Hidx : index2pos (length (v :: rest)) 1 = Some 0).
  { unfold index2pos. cbn [length].
    destruct (1 <=? Z.of_nat (S (length rest)))%Z eqn:E; [done|].
    apply Z.leb_gt in E. lia. }
  cbn [index2value stack set_upvalues set_stack]. rewrite Hidx.
  cbn [lookup list_lookup].
  destruct v as [| | | | |h|]; try (apply (f_equal (Raised _)), state_ext; by simpl).
  destruct (Hv h eq_refl) as (u & Hu & Hm).
  simpl. rewrite Hu.
  destruct (ud_meta u) as [m|] eqn:Em;
    [|apply (f_equal (Raised _)), state_ext; by simpl].
  specialize (Hm m eq_refl).
  destruct (reg !! ICONV_TYPENAME) as [[| | | |m'| |]|] eqn:Er;
    try (apply (f_equal (Raised _)), state_ext; by simpl).
  destruct (decide (m = m')) as [->|Hne]; [done|].
  apply (f_equal (Raised _)), state_ext; by simpl.
Qed.

End BadArguments.

(** ** The handle discipline is kept *)

Section Discipline.
Context `{lib : IconvLib} `{P : Platform}.

Opaque Liconv_new.

Lemma Liconv_open_call_bad_first (s : state) t a b ups :
  as_string a = None ->
  lua_call Liconv_open [LTable t; a; b] ups s = Raised (ArgError 1 "string") s.
Proof.
  intros Ha. unfold lua_call, Liconv_open.
  unfold bind at 1, lua_type, gets. simpl.
  unfold bind at 1, lua_remove. simpl.
  unfold bind at 1.
  rewrite (Liconv_new_bad_first _ a b) by done.
  apply (f_equal (Raised _)), state_ext; by simpl.
Qed.

Lemma Liconv_open_call_bad_second (s : state) t a b tocode ups :
  as_string a = Some tocode -> as_string b = None ->
  lua_call Liconv_open [LTable t; a; b] ups s = Raised (ArgError 2 "string") s.
Proof.
  intros Ha Hb. unfold lua_call, Liconv_open.
  unfold bind at 1, lua_type, gets. simpl.
  unfold bind at 1, lua_remove. simpl.
  unfold bind at 1.
  rewrite (Liconv_new_bad_second _ a b tocode) by done.
  apply (f_equal (Raised _)), state_ext; by simpl.
Qed.

Transparent Liconv_new.

Lemma sound_frame (s s' : state) :
  sound s ->
  udatas s' = udatas s -> registry s' = registry s ->
  (forall k, is_Some (descs s !! k) -> is_Some (descs s' !! k)) ->
  sound s'.
Proof.
  intros (m & Hr & Hu & Hinj) Eu Er Hd. exists m. rewrite Eu, Er.
  split; [done|]. split; [|done].
  intros h u Hh. destruct (Hu h u Hh) as [Hm [Hn|Ho]]; auto.
Qed.

Lemma sound_is_handle (s : state) h :
  sound s -> h < length (udatas s) ->
  exists cd, is_handle s h cd /\ (cd = NULL \/ is_Some (descs s !! cd)).
Proof.
  intros (m & Hr & Hu & _) Hlt.
  destruct (lookup_lt_is_Some_2 _ _ Hlt) as [[cd meta] Hh].
  destruct (Hu _ _ Hh) as [Hm Hcd]. cbn in Hm, Hcd. subst meta.
  exists cd. split; [by exists m|done].
Qed.

Lemma sound_opened (s : state) st0 m ev :
  sound s -> alloc_fresh lib ->
  registry s !! ICONV_TYPENAME = Some (LTable m) ->
  sound (set_udatas (fun l => l ++ [mkUdata (lib_alloc (descs s)) (Some m)])
           (log ev (set_descs (insert (lib_alloc (descs s)) st0) s))).
Proof.
  intros (m' & Hr & Hu & Hinj) Hfresh Hm.
  destruct (Hfresh (descs s)) as (Hnew & Hnull & _).
  assert (m' = m) as -> by congruence.
  assert (Hold : forall h u, udatas s !! h = Some u ->
                             ud_cd u <> lib_alloc (descs s) \/ ud_cd u = NULL).
  { intros h u Hh. destruct (Hu _ _ Hh) as [_ [Hn|[x Hx]]]; [by right|left].
    intros E. rewrite E, Hnew in Hx. discriminate. }
  exists m. simpl. split; [done|]. split.
  - intros h u [[_ Hh]|[_ <-]]%lookup_snoc_Some.
    + destruct (Hu _ _ Hh) as [Hmeta [Hn|[x Hx]]]; split; auto.
      right. destruct (decide (lib_alloc (descs s) = ud_cd u)) as [E|E].
      * rewrite <- E. rewrite lookup_insert_eq. by eexists.
      * rewrite lookup_insert_ne by done. by eexists.
    + simpl. split; [done|]. right. rewrite lookup_insert_eq. by eexists.
  - intros h1 h2 u1 u2 H1 H2 E Hn.
    apply lookup_snoc_Some in H1 as [[L1 H1]|[L1 H1]];
      apply lookup_snoc_Some in H2 as [[L2 H2]|[L2 H2]].
    + by apply (Hinj h1 h2 u1 u2).
    + subst u2. simpl in E.
      destruct (Hold _ _ H1) as [Hne|Hz]; [by destruct Hne|by destruct Hn].
    + subst u1. simpl in E, Hn.
      destruct (Hold _ _ H2) as [Hne|Hz]; [by destruct Hne|].
      rewrite E in Hn. by destruct Hn.
    + lia.
Qed.

Lemma sound_released (s : state) h m cd ev :
  sound s ->
  udatas s !! h = Some (mkUdata cd (Some m)) ->
  registry s !! ICONV_TYPENAME = Some (LTable m) ->
  cd <> NULL ->
  sound (set_udatas (fun l => <[h := mkUdata NULL (Some m)]> l)
           (log ev (set_descs (delete cd) s))).
Proof.
  intros (m' & Hr & Hu & Hinj) Hh Hm Hcd.
  assert (m' = m) as -> by congruence.
  assert (Hlt : h < length (udatas s)) by (apply lookup_lt_is_Some; by eexists).
  exists m. simpl. split; [done|]. split.
  - intros h' u Hh'.
    destruct (decide (h' = h)) as [->|Hne].
    + rewrite list_lookup_insert_eq in Hh' by done. injection Hh' as <-.
      simpl. auto.
    + rewrite list_lookup_insert_ne in Hh' by auto.
      destruct (Hu _ _ Hh') as [Hmeta [Hn|[x Hx]]]; split; auto.
      right. rewrite lookup_delete_ne; [by eexists|].
      intros E. destruct (decide (ud_cd u = NULL)) as [Hz|Hz]; [congruence|].
      apply Hne. apply (Hinj h' h u (mkUdata cd (Some m))); auto.
  - intros h1 h2 u1 u2 H1 H2 E Hn.
    destruct (decide (h1 = h)) as [->|N1].
    { rewrite list_lookup_insert_eq in H1 by done. injection H1 as <-.
      by destruct Hn. }
    destruct (decide (h2 = h)) as [->|N2].
    { rewrite list_lookup_insert_eq in H2 by done. injection H2 as <-.
      simpl in E. rewrite E in Hn. by destruct Hn. }
    rewrite list_lookup_insert_ne in H1, H2 by auto.
    by apply (Hinj h1 h2 u1 u2).
Qed.

Lemma convert_outcome_frame (fuel : nat) cd st inp (s s' : state) rs :
  convert_outcome fuel cd st inp s = Ok rs s' ->
  stack s' = stack s /\ upvalues s' = upvalues s /\ udatas s' = udatas s
  /\ tables s' = tables s /\ registry s' = registry s
  /\ exists st', descs s' = <[cd := st']> (descs s).
Proof.
  unfold convert_outcome.
  destruct (loop_run fuel st inp LUAL_BUFFERSIZE EmptyString) as [[[B'|B' e|] st'] calls];
    intros [= _ <-]; simpl; repeat apply conj; try done; by eexists.
Qed.

Lemma convert_outcome_sound (fuel : nat) cd st inp (s s' : state) rs :
  sound s -> convert_outcome fuel cd st inp s = Ok rs s' -> sound s'.
Proof.
  intros Hs (_ & _ & Eu & _ & Er & st' & Ed)%convert_outcome_frame.
  apply (sound_frame s); try done.
  intros k Hk. rewrite Ed.
  destruct (decide (cd = k)) as [->|Hne].
  - rewrite lookup_insert_eq. by eexists.
  - by rewrite lookup_insert_ne.
Qed.

Lemma convert_outcome_defined (fuel : nat) cd st inp (s : state) :
  convert_outcome fuel cd st inp s = OutOfFuel
  \/ exists rs s', convert_outcome fuel cd st inp s = Ok rs s'.
Proof.
  unfold convert_outcome.
  destruct (loop_run fuel st inp LUAL_BUFFERSIZE EmptyString) as [[[B'|B' e|] st'] calls];
    eauto.
Qed.

Lemma keeps_refl o (s : state) : keeps o s s.
Proof.
  repeat apply conj; try done.
  exists []. by rewrite app_nil_r.
Qed.

Lemma keeps_frame o (s s' : state) evs :
  stack s' = stack s -> upvalues s' = upvalues s ->
  tables s' = tables s -> registry s' = registry s ->
  trace s' = trace s ++ evs ->
  udatas s' = udatas s -> descs s' = descs s ->
  keeps o s s'.
Proof.
  intros ? ? ? ? Ht Eu Ed. repeat apply conj; try done.
  - by exists evs.
  - by rewrite Eu.
  - intros h u Hu _. by rewrite Eu, Ed.
Qed.

Lemma keeps_opened (s : state) st0 m ev :
  sound s -> alloc_fresh lib ->
  keeps None s
    (set_udatas (fun l => l ++ [mkUdata (lib_alloc (descs s)) (Some m)])
       (log ev (set_descs (insert (lib_alloc (descs s)) st0) s))).
Proof.
  intros (m' & Hr & Hu & Hinj) Hfresh.
  destruct (Hfresh (descs s)) as (Hnew & _ & _).
  repeat apply conj; simpl; try done.
  - by exists [ev].
  - rewrite length_app. lia.
  - intros h u Hh _. split.
    + by apply lookup_app_l_Some.
    + intros Hn. destruct (Hu _ _ Hh) as [_ [?|[x Hx]]]; [done|].
      apply lookup_insert_ne. intros E. rewrite <- E, Hnew in Hx. discriminate.
Qed.

Lemma keeps_released (s : state) h m cd ev :
  sound s ->
  udatas s !! h = Some (mkUdata cd (Some m)) ->
  keeps (Some h) s
    (set_udatas (fun l => <[h := mkUdata NULL (Some m)]> l)
       (log ev (set_descs (delete cd) s))).
Proof.
  intros (m' & Hr & Hu & Hinj) Hh.
  repeat apply conj; simpl; try done.
  - by exists [ev].
  - by rewrite length_insert.
  - intros h' u Hh' Hne.
    assert (h <> h') by congruence. split.
    + by rewrite list_lookup_insert_ne.
    + intros Hn. apply lookup_delete_ne. intros E.
      destruct H. apply (Hinj h h' _ u Hh Hh'); simpl; congruence.
Qed.

Lemma keeps_converted (fuel : nat) (s s' : state) h m cd st inp rs :
  sound s ->
  udatas s !! h = Some (mkUdata cd (Some m)) -> cd <> NULL ->
  convert_outcome fuel cd st inp s = Ok rs s' ->
  keeps (Some h) s s'.
Proof.
  intros (m' & Hr & Hu & Hinj) Hh Hcd.
  unfold convert_outcome.
  destruct (loop_run fuel st inp LUAL_BUFFERSIZE EmptyString) as [[[B'|B' e|] st'] calls];
    intros [= _ <-]; repeat apply conj; simpl; try done.
  1: by rewrite <- app_assoc; eexists.
  2: by eexists.
  all: intros h' u Hh' Hne; split; [done|]; intros Hn;
    apply lookup_insert_ne; intros E;
    destruct Hne; f_equal; apply (Hinj h h' _ u Hh Hh'); simpl; congruence.
Qed.

Lemma owned_frame (s s' : state) :
  udatas s' = udatas s ->
  (forall k, is_Some (descs s' !! k) -> is_Some (descs s !! k)) ->
  owned s -> owned s'.
Proof.
  intros Eu Hd Ho cd Hcd. rewrite Eu. by apply Ho, Hd.
Qed.

Lemma owned_opened (s : state) st0 m ev :
  alloc_fresh lib -> owned s ->
  owned (set_udatas (fun l => l ++ [mkUdata (lib_alloc (descs s)) (Some m)])
           (log ev (set_descs (insert (lib_alloc (descs s)) st0) s))).
Proof.
  intros Hfresh Ho cd. simpl. intros Hcd.
  destruct (Hfresh (descs s)) as (_ & Hnull & _).
  destruct (decide (lib_alloc (descs s) = cd)) as [<-|Hne].
  - split; [done|]. exists (length (udatas s)), (mkUdata (lib_alloc (descs s)) (Some m)).
    split; [by apply list_lookup_middle|done].
  - rewrite lookup_insert_ne in Hcd by done.
    destruct (Ho cd Hcd) as (Hn & h & u & Hu & E).
    split; [done|]. exists h, u. split; [by apply lookup_app_l_Some|done].
Qed.

Lemma owned_released (s : state) h m cd ev :
  owned s ->
  udatas s !! h = Some (mkUdata cd (Some m)) ->
  owned (set_udatas (fun l => <[h := mkUdata NULL (Some m)]> l)
           (log ev (set_descs (delete cd) s))).
Proof.
  intros Ho Hh cd'. simpl. intros Hcd'.
  destruct (decide (cd = cd')) as [<-|Hne].
  { rewrite lookup_delete_eq in Hcd'. by destruct Hcd'. }
  rewrite lookup_delete_ne in Hcd' by done.
  destruct (Ho cd' Hcd') as (Hn & h' & u & Hu & E).
  split; [done|]. exists h', u. split; [|done].
  rewrite list_lookup_insert_ne; [done|].
  intros ->. rewrite Hh in Hu. injection Hu as <-. by destruct Hne.
Qed.

Lemma owned_converted (fuel : nat) (s s' : state) cd st inp rs :
  descs s !! cd = Some st ->
  convert_outcome fuel cd st inp s = Ok rs s' ->
  owned s -> owned s'.
Proof.
  intros Hst (_ & _ & Eu & _ & _ & st' & Ed)%convert_outcome_frame.
  apply owned_frame; [done|].
  intros k. rewrite Ed. destruct (decide (cd = k)) as [<-|Hne].
  - intros _. by eexists.
  - by rewrite lookup_insert_ne.
Qed.

Lemma closes_refl (s : state) : closes s s.
Proof.
  intros cd r Hin. unfold new_events in Hin.
  rewrite drop_all in Hin. by apply elem_of_nil in Hin.
Qed.

Lemma closes_none (s s' : state) evs :
  trace s' = trace s ++ evs ->
  (forall cd r, EvClose cd r ∉ evs) ->
  closes s s'.
Proof.
  intros Ht Hn cd r Hin. rewrite (new_events_app s s' evs Ht) in Hin.
  by destruct (Hn cd r).
Qed.

Lemma closes_one (s s' : state) cd r st :
  trace s' = trace s ++ [EvClose cd r] ->
  descs s !! cd = Some st ->
  (r = 0%Z /\ lib_release st = None /\ descs s' !! cd = None)
  \/ (exists e, lib_release st = Some e) ->
  closes s s'.
Proof.
  intros Ht Hst Hr cd' r' Hin. rewrite (new_events_app s s' _ Ht) in Hin.
  apply list_elem_of_singleton in Hin. injection Hin as -> ->.
  by exists st.
Qed.

Lemma closes_converted (fuel : nat) (s s' : state) cd st inp rs :
  convert_outcome fuel cd st inp s = Ok rs s' -> closes s s'.
Proof.
  unfold convert_outcome.
  destruct (loop_run fuel st inp LUAL_BUFFERSIZE EmptyString)
    as [[[B'|B' e|] st'] calls]; intros [= _ <-].
  - apply (closes_none _ _ (map (call_event cd) calls ++ [EvReset cd])).
    + cbn. by rewrite <- app_assoc.
    + intros cd' r [Hin|Hin]%elem_of_app.
      * apply list_elem_of_fmap in Hin as (x & Hx & _). discriminate.
      * by apply list_elem_of_singleton in Hin.
  - apply (closes_none _ _ (map (call_event cd) calls)); [done|].
    intros cd' r Hin.
    apply list_elem_of_fmap in Hin as (x & Hx & _). discriminate.
Qed.

Lemma convert_on_sound (fuel : nat) (s : state) h b c :
  sound s -> h < length (udatas s) ->
  convert_call fuel h b c ->
  c s = OutOfFuel
  \/ exists s', ((exists rs, c s = Ok rs s') \/ (exists e, c s = Raised e s'))
                /\ sound s' /\ keeps (Some h) s s' /\ (owned s -> owned s')
                /\ closes s s'.
Proof.
  intros Hs Hlt Hc.
  destruct (sound_is_handle s h Hs Hlt) as (cd & Hh & Hcd).
  destruct (as_string b) as [inp|] eqn:Eb.
  - destruct (decide (cd = NULL)) as [->|Hn].
    + right. exists s. split; [|split; [done|split; [apply keeps_refl|split; [done|apply closes_refl]]]]. left. eexists.
      by apply (convert_call_closed fuel s h b inp).
    + destruct Hcd as [?|[st Hst]]; [done|].
      rewrite (convert_call_open fuel s h cd st b inp c) by done.
      destruct (convert_outcome_defined fuel cd st inp s) as [E|(rs & s' & E)];
        [by left|right].
      exists s'. split; [left; by eexists|]. split; [|split; [|split]].
      * by apply (convert_outcome_sound fuel cd st inp s s' rs).
      * destruct Hh as (m & Hu & _).
        by apply (keeps_converted fuel s s' h m cd st inp rs).
      * by apply (owned_converted fuel s s' cd st inp rs).
      * by apply (closes_converted fuel s s' cd st inp rs).
  - right. exists s. split; [|split; [done|split; [apply keeps_refl|split; [done|apply closes_refl]]]]. right.
    destruct Hc as [[ups ->]| ->].
    + eexists. by apply (Liconv_call_bad_arg fuel s h cd).
    + destruct Hh as (m & Hu & _). eexists.
      by apply (Liconv_closure_call_bad_arg fuel s h (mkUdata cd (Some m)) b).
Qed.

Lemma not_userdata_not_a_handle (s : state) a :
  (forall h, a <> LUserdata h) ->
  forall h, a = LUserdata h ->
    exists u, udatas s !! h = Some u
              /\ forall m, ud_meta u = Some m ->
                   registry s !! ICONV_TYPENAME <> Some (LTable m).
Proof. intros Hn h E. by destruct (Hn h). Qed.

Lemma userdata_or_not (a : lua_value) :
  (exists h, a = LUserdata h) \/ (forall h, a <> LUserdata h).
Proof. destruct a; eauto; right; intros h; discriminate. Qed.

Lemma api_call_cases (s : state) o c :
  sound s -> alloc_fresh lib -> api_call s o c ->
  c s = OutOfFuel
  \/ exists s', ((exists rs, c s = Ok rs s') \/ (exists e, c s = Raised e s'))
                /\ sound s' /\ keeps o s s' /\ (owned s -> owned s')
                /\ closes s s'.
Proof.
  intros Hs Hfresh Hc.
  assert (Hreg : exists m, registry s !! ICONV_TYPENAME = Some (LTable m)).
  { destruct Hs as (m & Hr & _). by exists m. }
  destruct Hreg as [m Hm].
  destruct (Hfresh (descs s)) as (_ & _ & Hminus).
  destruct Hc as [a b ups|t a b ups|fuel a b ups Ha|a ups Ha|fuel h a Hlt].
  - (* new *)
    right. destruct (as_string a) as [tocode|] eqn:Ea.
    2:{ exists s. split; [|split; [done|split; [apply keeps_refl|split; [done|apply closes_refl]]]].
        right; eexists; by apply Liconv_new_call_bad_first. }
    destruct (as_string b) as [fromcode|] eqn:Eb.
    2:{ exists s. split; [|split; [done|split; [apply keeps_refl|split; [done|apply closes_refl]]]]. right; eexists.
        by apply (Liconv_new_call_bad_second s a b tocode). }
    destruct (lib_open (c_str tocode) (c_str fromcode)) as [st0|e] eqn:Eo.
    + eexists. split; [|split].
      * left. eexists.
        by apply (Liconv_new_call_opened s a b tocode fromcode st0 m).
      * by apply sound_opened.
      * split; [by apply keeps_opened|split; [by apply owned_opened|]].
        eapply closes_none; [reflexivity|].
        intros cd r Hin. by apply list_elem_of_singleton in Hin.
    + eexists. split; [|split].
      * left. eexists. by apply (Liconv_new_call_refused s a b tocode fromcode e).
      * by apply (sound_frame s).
      * split; [by eapply keeps_frame|split; [by apply owned_frame|]].
        eapply closes_none; [reflexivity|].
        intros cd r Hin. by apply list_elem_of_singleton in Hin.
  - (* the module *)
    right. destruct (as_string a) as [tocode|] eqn:Ea.
    2:{ exists s. split; [|split; [done|split; [apply keeps_refl|split; [done|apply closes_refl]]]].
        right; eexists; by apply Liconv_open_call_bad_first. }
    destruct (as_string b) as [fromcode|] eqn:Eb.
    2:{ exists s. split; [|split; [done|split; [apply keeps_refl|split; [done|apply closes_refl]]]]. right; eexists.
        by apply (Liconv_open_call_bad_second s t a b tocode). }
    destruct (lib_open (c_str tocode) (c_str fromcode)) as [st0|e] eqn:Eo.
    + eexists. split; [|split].
      * left. eexists.
        by apply (Liconv_open_call_opened s t a b tocode fromcode st0 m).
      * by apply sound_opened.
      * split; [by apply keeps_opened|split; [by apply owned_opened|]].
        eapply closes_none; [reflexivity|].
        intros cd r Hin. by apply list_elem_of_singleton in Hin.
    + eexists. split; [|split].
      * left. eexists.
        by apply (Liconv_open_call_refused s t a b tocode fromcode e).
      * by apply (sound_frame s).
      * split; [by eapply keeps_frame|split; [by apply owned_frame|]].
        eapply closes_none; [reflexivity|].
        intros cd r Hin. by apply list_elem_of_singleton in Hin.
  - (* iconv *)
    destruct (userdata_or_not a) as [[h ->]|Hn].
    + apply (convert_on_sound fuel s h b); [done|by apply Ha|].
      left. by exists ups.
    + right. exists s. split; [|split; [done|split; [apply keeps_refl|split; [done|apply closes_refl]]]]. right. eexists.
      apply (not_a_handle_call (Liconv fuel) _ s a [b] ups eq_refl).
      by apply not_userdata_not_a_handle.
  - (* delete *)
    destruct (userdata_or_not a) as [[h ->]|Hn].
    + right. destruct (sound_is_handle s h Hs (Ha h eq_refl)) as (cd & Hh & Hcd).
      destruct (decide (cd = NULL)) as [->|Hnull].
      { exists s. split; [|split; [done|split; [apply keeps_refl|split; [done|apply closes_refl]]]]. left. eexists.
        by apply Liconv_close_call_closed. }
      destruct Hcd as [?|[st Hst]]; [done|].
      destruct (lib_release st) as [e|] eqn:Erel.
      * eexists. split; [|split].
        -- left. eexists. by apply (Liconv_close_call_stuck s h cd st e).
        -- by apply (sound_frame s).
        -- split; [by eapply keeps_frame|split; [by apply owned_frame|]].
           apply (closes_one _ _ cd (-1) st); [done|done|].
           right. by exists e.
      * destruct Hh as (m' & Hu & Hr').
        eexists. split; [|split].
        -- left. eexists.
           by apply (Liconv_close_call_released s h m' cd st).
        -- by apply sound_released.
        -- split; [by apply keeps_released|].
           split; [intros Ho; by apply owned_released|].
           apply (closes_one _ _ cd 0 st); [done|done|].
           left. split; [done|]. split; [done|]. cbn. apply lookup_delete_eq.
    + right. exists s. split; [|split; [done|split; [apply keeps_refl|split; [done|apply closes_refl]]]]. right. eexists.
      apply (not_a_handle_call Liconv_close _ s a [] ups eq_refl).
      by apply not_userdata_not_a_handle.
  - (* a converter *)
    apply (convert_on_sound fuel s h a); [done|done|]. by right.
Qed.

Lemma loaded_state_owned : owned loaded_state.
Proof. intros cd [x Hx]. by vm_compute in Hx. Qed.

Lemma loaded_state_sound : sound loaded_state.
Proof.
  exists 2. split; [by vm_compute|]. split.
  - intros h u Hh. by vm_compute in Hh.
  - intros h1 h2 u1 u2 Hh. by vm_compute in Hh.
Qed.

Lemma reachable_sound (s : state) :
  alloc_fresh lib -> reachable s -> sound s.
Proof.
  intros Hfresh Hr. induction Hr as [|s s' _ IH (o & c & Hc & Hres)].
  - apply loaded_state_sound.
  - destruct (api_call_cases s o c IH Hfresh Hc) as [E|(s1 & Hs1 & Hsound & _ & _)].
    + destruct Hres as [[rs Hres]|[e Hres]]; congruence.
    + destruct Hres as [[rs Hres]|[e Hres]], Hs1 as [[rs1 H1]|[e1 H1]]; congruence.
Qed.

Lemma reachable_owned (s : state) :
  alloc_fresh lib -> reachable s -> owned s.
Proof.
  intros Hfresh Hr. induction Hr as [|s s' Hr IH (o & c & Hc & Hres)].
  - apply loaded_state_owned.
  - destruct (api_call_cases s o c (reachable_sound s Hfresh Hr) Hfresh Hc)
      as [E|(s1 & Hs1 & _ & _ & Ho & _)].
    + destruct Hres as [[rs Hres]|[e Hres]]; congruence.
    + assert (s1 = s') as ->
        by (destruct Hres as [[rs Hres]|[e Hres]], Hs1 as [[rs1 H1]|[e1 H1]];
            congruence).
      by apply Ho.
Qed.

Lemma reachable_frame (s : state) :
  alloc_fresh lib -> reachable s ->
  stack s = stack loaded_state /\ upvalues s = upvalues loaded_state
  /\ tables s = tables loaded_state
  /\ registry s = registry loaded_state.
Proof.
  intros Hfresh Hr.
  induction Hr as [|s s' Hr IH (o & c & Hc & Hres)]; [done|].
  destruct IH as (E1 & E2 & E3 & E4).
  destruct (api_call_cases s o c (reachable_sound s Hfresh Hr) Hfresh Hc)
    as [E|(s1 & Hs1 & _ & (K1 & K2 & K3 & K4 & _) & _)].
  - destruct Hres as [[rs Hres]|[e Hres]]; congruence.
  - assert (s1 = s') as ->
      by (destruct Hres as [[rs Hres]|[e Hres]], Hs1 as [[rs1 H1]|[e1 H1]];
          congruence).
    repeat apply conj; congruence.
Qed.

Lemma values_on_handle (s1 s2 : state) h cd fuel v c :
  is_handle s1 h cd -> is_handle s2 h cd ->
  (cd <> NULL -> is_Some (descs s1 !! cd) /\ descs s2 !! cd = descs s1 !! cd) ->
  convert_call fuel h v c ->
  values_of (c s2) = values_of (c s1).
Proof.
  intros H1 H2 Hd Hc.
  destruct (as_string v) as [inp|] eqn:Ev.
  - destruct (decide (cd = NULL)) as [->|Hn].
    + by rewrite (convert_call_closed fuel s1 h v inp c),
                 (convert_call_closed fuel s2 h v inp c).
    + destruct (Hd Hn) as [[st Hst] E].
      rewrite (convert_call_open fuel s1 h cd st v inp c) by done.
      rewrite (convert_call_open fuel s2 h cd st v inp c) by congruence.
      apply values_of_convert_outcome.
  - destruct Hc as [[ups ->]| ->].
    + by rewrite (Liconv_call_bad_arg fuel s1 h cd),
                 (Liconv_call_bad_arg fuel s2 h cd).
    + destruct H1 as (m1 & Hu1 & _), H2 as (m2 & Hu2 & _).
      by rewrite (Liconv_closure_call_bad_arg fuel s1 h _ v Hu1),
                 (Liconv_closure_call_bad_arg fuel s2 h _ v Hu2).
Qed.

End Discipline.

Lemma mini_alloc_above (d : gmap Z mini_state) :
  (4095 <= map_fold (fun k _ acc => Z.max k acc) 4095 d)%Z
  /\ forall k, is_Some (d !! k) ->
       (k <= map_fold (fun k _ acc => Z.max k acc) 4095 d)%Z.
Proof.
  apply (map_fold_weak_ind
           (fun r (m : gmap Z mini_state) =>
              (4095 <= r)%Z /\ forall k, is_Some (m !! k) -> (k <= r)%Z)).
  - split; [lia|]. intros k [x Hx]. by rewrite lookup_empty in Hx.
  - intros i x m r Hi [Hr Hk]. split; [lia|].
    intros k [y Hy]. destruct (decide (i = k)) as [->|Hne]; [lia|].
    rewrite lookup_insert_ne in Hy by done.
    specialize (Hk k ltac:(by eexists)). lia.
Qed.

Lemma mini_alloc_fresh P stuck : alloc_fresh (mini_lib P stuck).
Proof.
  intros d. cbn [lib_alloc mini_lib]. unfold mini_alloc, NULL, ICONV_T_MINUS1.
  destruct (mini_alloc_above d) as [Hlow Hk].
  repeat apply conj; [|lia|lia].
  destruct (d !! _) as [x|] eqn:E; [|done].
  specialize (Hk _ ltac:(by eexists)). lia.
Qed.

Lemma demo_open_reachable :
  @reachable demo_lib linux4 (demo_open "UTF-8" "UTF-8").
Proof.
  apply (@reach_step demo_lib linux4 demo_loaded); [apply reach_loaded|].
  exists None, (@lua_call demo_lib (@Liconv_new demo_lib linux4)
                  [LString "UTF-8"; LString "UTF-8"] []).
  split; [apply call_new|].
  left. exists [LUserdata 0]. vm_compute. reflexivity.
Qed.

Lemma demo_latin1_reachable :
  @reachable demo_lib linux4 (demo_open "ISO-8859-1" "UTF-8").
Proof.
  apply (@reach_step demo_lib linux4 demo_loaded); [apply reach_loaded|].
  exists None, (@lua_call demo_lib (@Liconv_new demo_lib linux4)
                  [LString "ISO-8859-1"; LString "UTF-8"] []).
  split; [apply call_new|].
  left. exists [LUserdata 0]. vm_compute. reflexivity.
Qed.

Lemma demo_two_reachable : @reachable demo_lib linux4 demo_two.
Proof.
  apply (@reach_step demo_lib linux4 (demo_open "ISO-8859-1" "UTF-8")).
  - apply demo_latin1_reachable.
  - exists None, (@lua_call demo_lib (@Liconv_new demo_lib linux4)
                    [LString "ISO-8859-1"; LString "X-SHIFT7"] []).
    split; [apply call_new|].
    left. exists [LUserdata 1]. vm_compute. reflexivity.
Qed.

(** ** The calls of one conversion *)

Section Chain.
Context `{lib : IconvLib} `{P : Platform}.



(** More fuel does not change how a run ends. *)
Lemma loop_run_more_fuel (fuel : nat) :
  forall st inbuf obleft B e st' calls k,
    loop_run fuel st inbuf obleft B = (e, st', calls) ->
    e <> LoopFuel ->
    loop_run (fuel + k) st inbuf obleft B = (e, st', calls).
Proof.
  induction fuel as [|fuel IH]; intros st inbuf obleft B e st' calls k Hrun Hne.
  { cbn in Hrun. injection Hrun as <- <- <-. done. }
  cbn [Nat.add]. cbn [loop_run] in Hrun |- *.
  set (r := lib_conv st inbuf obleft) in *.
  destruct (cr_ret r =? size_t_cast (-1))%Z eqn:Eret.
  - destruct (cr_errno r =? E2BIG)%Z eqn:Ebig; [|done].
    destruct (loop_run fuel (cr_state r) (cr_inbuf r) LUAL_BUFFERSIZE _)
      as [[e1 st1] calls1] eqn:Hrec.
    injection Hrun as <- <- <-.
    by rewrite (IH _ _ _ _ _ _ _ k Hrec Hne).
  - destruct (negb (cr_ret r =? size_t_cast 0)%Z) eqn:Ezero; [|done].
    destruct (loop_run fuel (cr_state r) (cr_inbuf r) _ _)
      as [[e1 st1] calls1] eqn:Hrec.
    injection Hrun as <- <- <-.
    by rewrite (IH _ _ _ _ _ _ _ k Hrec Hne).
Qed.

Section Count.
Hypothesis Hdone : conv_done lib.
Hypothesis Hempty : conv_empty lib.
Hypothesis Hprogress : conv_progress lib P.

Lemma loop_run_empty_count (fuel : nat) st obleft B :
  length (loop_run fuel st EmptyString obleft B).2 <= 1.
Proof.
  destruct fuel as [|fuel]; [cbn; lia|]. cbn [loop_run].
  destruct (Hempty st obleft) as (Hr0 & _ & _ & _).
  rewrite Hr0, zero_is_not_minus1, zero_is_zero. by cbn.
Qed.

Lemma loop_run_count (fuel : nat) :
  forall st inbuf B,
    length (loop_run fuel st inbuf LUAL_BUFFERSIZE B).2
    <= String.length inbuf + 2.
Proof.
  induction fuel as [|fuel IH]; intros st inbuf B; [cbn; lia|].
  cbn [loop_run].
  set (r := lib_conv st inbuf LUAL_BUFFERSIZE).
  destruct (cr_ret r =? size_t_cast (-1))%Z eqn:Eret.
  - destruct (cr_errno r =? E2BIG)%Z eqn:Ebig; [|cbn; lia].
    apply Z.eqb_eq in Ebig.
    pose proof (Hprogress st inbuf Eret Ebig) as Hlt. fold r in Hlt.
    specialize (IH (cr_state r) (cr_inbuf r)
                   (luaL_addsize B (cr_written r)
                      (LUAL_BUFFERSIZE
                       - (LUAL_BUFFERSIZE - String.length (cr_written r))))).
    destruct (loop_run fuel (cr_state r) (cr_inbuf r) LUAL_BUFFERSIZE _)
      as [[e1 st1] calls1]. cbn in IH |- *. lia.
  - destruct (negb (cr_ret r =? size_t_cast 0)%Z); [|cbn; lia].
    assert (Hin : cr_inbuf r = EmptyString) by (by apply Hdone).
    rewrite Hin.
    pose proof (loop_run_empty_count fuel (cr_state r)
                  (LUAL_BUFFERSIZE - String.length (cr_written r))
                  (luaL_addsize B (cr_written r)
                     (LUAL_BUFFERSIZE
                      - (LUAL_BUFFERSIZE - String.length (cr_written r)))))
      as Hone.
    destruct (loop_run fuel (cr_state r) EmptyString _ _)
      as [[e1 st1] calls1]. cbn in Hone |- *. lia.
Qed.

End Count.

End Chain.

(** * Further statements about the code *)

(** ** The handle discipline *)

(** X1.  The handle discipline is an invariant of the entry points.  In
    a state where the module is loaded, every userdata block carries the
    registered metatable and holds the null pointer or an open
    descriptor, and no two blocks hold the same descriptor, every call of
    [new], of the module, of [iconv], of [delete] and of a converter that
    comes back, with values or with an argument error, leaves a state of
    that kind.  (The library hands out addresses that are not in use,
    and neither null nor -1.) *)
Theorem discipline_is_kept `{lib : IconvLib} `{P : Platform} (s s' : state) :
  alloc_fresh lib -> sound s -> api_step s s' -> sound s'.
Proof.
  intros Hfresh Hs (o & c & Hc & Hres).
  destruct (api_call_cases s o c Hs Hfresh Hc) as [E|(s1 & Hs1 & Hsound & _ & _)].
  - destruct Hres as [[rs Hres]|[e Hres]]; congruence.
  - destruct Hres as [[rs Hres]|[e Hres]], Hs1 as [[rs1 H1]|[e1 H1]]; congruence.
Qed.

Lemma discipline_is_kept_witness : @sound demo_lib demo_two.
Proof.
  apply (@discipline_is_kept demo_lib linux4
           (demo_open "ISO-8859-1" "UTF-8") demo_two).
  - apply mini_alloc_fresh.
  - apply (@reachable_sound demo_lib linux4 _ (mini_alloc_fresh _ _)
             demo_latin1_reachable).
  - exists None, (@lua_call demo_lib (@Liconv_new demo_lib linux4)
                    [LString "ISO-8859-1"; LString "X-SHIFT7"] []).
    split; [apply call_new|].
    left. exists [LUserdata 1]. vm_compute. reflexivity.
Defined.

(** X2.  No call is made on a descriptor that is not open.  Take a
    library whose [iconv_close] does not fail on an open descriptor, and
    a state a program gets to from the freshly loaded module by calls of
    the entry points, each run to its end before the next one starts.
    Then no call of an entry point is undefined: none reads a block
    that does not exist, passes to [iconv] or to [iconv_close] a
    descriptor that is not open, or returns more values than its stack
    holds.  And every call of [iconv_close] that it makes is made on a
    descriptor that was open, returns 0, and leaves the descriptor not
    open.  So a descriptor is not used after it has been released, and
    is not released twice.  (What happens after a release that failed
    is the matter of C9.) *)
Theorem no_undefined_behaviour `{lib : IconvLib} `{P : Platform}
  (s : state) o c :
  alloc_fresh lib -> release_succeeds lib ->
  reachable s -> api_call s o c ->
  c s <> Undefined
  /\ forall rs (s' : state) cd r,
       c s = Ok rs s' -> EvClose cd r ∈ new_events s s' ->
       r = 0%Z /\ is_Some (descs s !! cd) /\ descs s' !! cd = None.
Proof.
  intros Hfresh Hrel Hr Hc.
  destruct (api_call_cases s o c (reachable_sound s Hfresh Hr) Hfresh Hc)
    as [E|(s1 & Hs1 & _ & _ & _ & Hcl)].
  - split; congruence.
  - split; [destruct Hs1 as [[rs E]|[e E]]; congruence|].
    intros rs s' cd r Hres Hin.
    assert (s1 = s') as -> by (destruct Hs1 as [[rs1 E]|[e E]]; congruence).
    destruct (Hcl cd r Hin) as (st & Hst & [(-> & _ & Hd)|[e He]]).
    + split; [done|]. split; [by eexists|done].
    + by rewrite Hrel in He.
Qed.

Lemma no_undefined_behaviour_witness :
  let s := demo_open "UTF-8" "UTF-8" in
  let c := @lua_call demo_lib (@Liconv_close demo_lib) [LUserdata 0] [] in
  c s <> Undefined
  /\ forall rs (s' : state_of mini_state) cd r,
       c s = Ok rs s' -> EvClose cd r ∈ @new_events demo_lib s s' ->
       r = 0%Z /\ is_Some (descs s !! cd) /\ descs s' !! cd = None.
Proof.
  intros s c.
  apply (@no_undefined_behaviour demo_lib linux4 s (Some 0)).
  - apply mini_alloc_fresh.
  - intros st. reflexivity.
  - apply demo_open_reachable.
  - apply (@call_close demo_lib linux4 _ (LUserdata 0) []).
    intros h [= <-]. vm_compute. lia.
Defined.

(** X3.  The entry points leave Lua's side alone.  In every state a
    program gets to from the freshly loaded module, the caller's frame is
    as it was, and the tables and the registry are those of the freshly
    loaded module: the functions, the constants and the metatables made
    on loading are never written again. *)
Theorem module_is_left_alone `{lib : IconvLib} `{P : Platform} (s : state) :
  alloc_fresh lib -> reachable s ->
  stack s = [] /\ upvalues s = []
  /\ tables s = tables loaded_state
  /\ registry s = registry loaded_state
  /\ forall v k, field_of s v k = field_of loaded_state v k.
Proof.
  intros Hfresh Hr.
  destruct (reachable_frame s Hfresh Hr) as (E1 & E2 & E3 & E4).
  split; [rewrite E1; by vm_compute|].
  split; [rewrite E2; by vm_compute|].
  split; [done|]. split; [done|].
  intros v k. unfold field_of. by rewrite E3.
Qed.

Lemma module_is_left_alone_witness :
  stack demo_two = [] /\ upvalues demo_two = []
  /\ tables demo_two = tables (@loaded_state demo_lib linux4)
  /\ registry demo_two = registry (@loaded_state demo_lib linux4)
  /\ forall v k, @field_of demo_lib demo_two v k
                 = @field_of demo_lib (@loaded_state demo_lib linux4) v k.
Proof.
  apply (@module_is_left_alone demo_lib linux4 demo_two).
  - apply mini_alloc_fresh.
  - apply demo_two_reachable.
Defined.

(** X4.  Handles do not interfere.  A call made on one block, or on
    none, leaves every other handle as it is: the handle holds the same
    descriptor, the descriptor is in the same conversion state, and
    whatever is converted on that handle, by the handle method or by its
    converter, gives after the call what it gave before. *)
Theorem handles_do_not_interfere `{lib : IconvLib} `{P : Platform}
  (s s' : state) o c rs h cd :
  alloc_fresh lib -> sound s ->
  api_call s o c -> c s = Ok rs s' ->
  is_handle s h cd -> o <> Some h ->
  is_handle s' h cd
  /\ (cd <> NULL -> descs s' !! cd = descs s !! cd)
  /\ forall fuel v c', convert_call fuel h v c' ->
       values_of (c' s') = values_of (c' s).
Proof.
  intros Hfresh Hs Hc Hres Hh Ho.
  destruct (api_call_cases s o c Hs Hfresh Hc)
    as [E|(s1 & Hs1 & _ & (_ & _ & _ & K4 & _ & _ & K) & _)]; [congruence|].
  assert (s1 = s') as -> by (destruct Hs1 as [[rs1 H1]|[e1 H1]]; congruence).
  pose proof Hh as (m & Hu & Hr).
  destruct (K _ _ Hu Ho) as [Hu' Hd]. cbn in Hd.
  assert (Hh' : is_handle s' h cd) by (exists m; by rewrite K4).
  repeat apply conj; try done.
  intros fuel v c' Hc'.
  apply (values_on_handle s s' h cd fuel v c'); try done.
  intros Hn. split; [|by apply Hd].
  destruct Hs as (m' & _ & Hall & _).
  by destruct (Hall _ _ Hu) as [_ [?|?]].
Qed.

Lemma handles_do_not_interfere_witness :
  let c := @lua_call demo_lib (@Liconv_close demo_lib) [LUserdata 1] [] in
  let s' := demo_after c demo_two in
  @is_handle demo_lib s' 0 4096%Z
  /\ (4096%Z <> NULL -> descs s' !! 4096%Z = descs demo_two !! 4096%Z)
  /\ forall fuel v c', @convert_call demo_lib linux4 fuel 0 v c' ->
       values_of (c' s') = values_of (c' demo_two).
Proof.
  intros c s'.
  apply (@handles_do_not_interfere demo_lib linux4 demo_two s' (Some 1) c []).
  - apply mini_alloc_fresh.
  - apply (@reachable_sound demo_lib linux4 demo_two (mini_alloc_fresh _ _)
             demo_two_reachable).
  - apply (@call_close demo_lib linux4 _ (LUserdata 1) []).
    intros h [= <-]. vm_compute. lia.
  - vm_compute. reflexivity.
  - exists 2. split; by vm_compute.
  - discriminate.
Defined.

(** ** Arguments of the wrong kind *)

(** X5.  [iconv] and [delete] check their first argument before
    anything else: when it is not a userdata value, the call raises the
    argument error for argument 1, type [iconv_t], whatever the other
    arguments are; the library is not called and nothing changes. *)
Theorem non_handle_is_refused `{lib : IconvLib} `{P : Platform}
  (fuel : nat) (s : state) a rest ups :
  block_of a = None ->
  lua_call (Liconv fuel) (a :: rest) ups s
    = Raised (ArgError 1 ICONV_TYPENAME) s
  /\ lua_call Liconv_close (a :: rest) ups s
     = Raised (ArgError 1 ICONV_TYPENAME) s.
Proof.
  intros Ha.
  assert (Hn : forall h, a <> LUserdata h) by (intros h ->; discriminate).
  split.
  - apply (not_a_handle_call (Liconv fuel) _ s a rest ups eq_refl).
    by apply not_userdata_not_a_handle.
  - apply (not_a_handle_call Liconv_close _ s a rest ups eq_refl).
    by apply not_userdata_not_a_handle.
Qed.

Lemma non_handle_is_refused_witness :
  @lua_call demo_lib (@Liconv demo_lib linux4 5)
    [LString "UTF-8"; LString "abc"] [] (demo_open "UTF-8" "UTF-8")
  = Raised (ArgError 1 "iconv_t") (demo_open "UTF-8" "UTF-8")
  /\ @lua_call demo_lib (@Liconv_close demo_lib)
       [LString "UTF-8"; LString "abc"] [] (demo_open "UTF-8" "UTF-8")
     = Raised (ArgError 1 "iconv_t") (demo_open "UTF-8" "UTF-8").
Proof.
  apply (@non_handle_is_refused demo_lib linux4 5 (demo_open "UTF-8" "UTF-8")
           (LString "UTF-8") [LString "abc"] []).
  reflexivity.
Defined.

(** X6.  A conversion checks the text it is given before it looks at the
    descriptor: when the text is neither a string nor a number, the
    handle method raises the argument error for argument 2 and the
    converter the one for argument 1, type [string], whether the handle
    is open or closed; the library is not called and nothing changes.
    So a closed handle answers "invalid iconv handle" only to a call
    whose text is well-typed. *)
Theorem non_string_input_is_refused `{lib : IconvLib} `{P : Platform}
  (fuel : nat) (s : state) h cd v ups :
  is_handle s h cd -> as_string v = None ->
  lua_call (Liconv fuel) [LUserdata h; v] ups s
    = Raised (ArgError 2 "string") s
  /\ lua_call (Liconv_closure fuel) [v] [LUserdata h] s
     = Raised (ArgError 1 "string") s.
Proof.
  intros Hh Hv. split.
  - by apply (Liconv_call_bad_arg fuel s h cd).
  - destruct Hh as (m & Hu & _).
    by apply (Liconv_closure_call_bad_arg fuel s h (mkUdata cd (Some m)) v).
Qed.

Lemma non_string_input_is_refused_witness :
  @lua_call demo_lib (@Liconv demo_lib linux4 5)
    [LUserdata 0; LBoolean true] [] demo_closed
  = Raised (ArgError 2 "string") demo_closed
  /\ @lua_call demo_lib (@Liconv_closure demo_lib linux4 5)
       [LBoolean true] [LUserdata 0] demo_closed
     = Raised (ArgError 1 "string") demo_closed.
Proof.
  apply (@non_string_input_is_refused demo_lib linux4 5 demo_closed 0 NULL
           (LBoolean true) []).
  - exists 2. split; by vm_compute.
  - reflexivity.
Defined.

(** ** Converters *)

(** X7.  The module called as a function, with a pair of names the
    library accepts, does what [new] does and wraps the result: it
    leaves the state [new] leaves, and returns, where [new] returns the
    new handle, a converter that has this handle as its upvalue.  The
    handle holds the descriptor just opened, and the first conversion by
    the converter starts from the state this descriptor was opened in. *)
Theorem module_call_makes_converter `{lib : IconvLib} `{P : Platform}
  (s : state) t a b tocode fromcode st0 m ups :
  as_string a = Some tocode -> as_string b = Some fromcode ->
  registry s !! ICONV_TYPENAME = Some (LTable m) ->
  lib_alloc (descs s) <> ICONV_T_MINUS1 -> lib_alloc (descs s) <> NULL ->
  lib_open (c_str tocode) (c_str fromcode) = inl st0 ->
  let h := length (udatas s) in
  let cd := lib_alloc (descs s) in
  exists s' : state,
    lua_call Liconv_open [LTable t; a; b] ups s
      = Ok [LFunction F_closure [LUserdata h]] s'
    /\ lua_call Liconv_new [a; b] ups s = Ok [LUserdata h] s'
    /\ is_handle s' h cd
    /\ descs s' !! cd = Some st0
    /\ forall fuel v inp, as_string v = Some inp ->
         lua_invoke fuel (LFunction F_closure [LUserdata h]) [v] s'
         = convert_outcome fuel cd st0 inp s'.
Proof.
  intros Ha Hb Hr Hm1 Hnull Hopen h cd.
  eexists. split.
  { by apply (Liconv_open_call_opened s t a b tocode fromcode st0 m). }
  split.
  { by apply (Liconv_new_call_opened s a b tocode fromcode st0 m). }
  assert (Hh : is_handle
                 (set_udatas (fun l => l ++ [mkUdata cd (Some m)])
                    (log (EvOpen (c_str tocode) (c_str fromcode) cd)
                       (set_descs (insert cd st0) s))) h cd).
  { exists m. split; [|done]. cbn. by apply list_lookup_middle. }
  split; [done|]. split; [cbn; apply lookup_insert_eq|].
  intros fuel v inp Hv. rewrite invoke_converter.
  apply (convert_call_open fuel _ h cd st0 v inp); try done.
  - cbn. apply lookup_insert_eq.
  - by right.
Qed.

Lemma module_call_makes_converter_witness :
  exists s' : state_of mini_state,
    @lua_call demo_lib (@Liconv_open demo_lib linux4)
      [LTable 0; LString "UTF-8"; LString "ISO-8859-1"] [] demo_loaded
      = Ok [LFunction F_closure [LUserdata 0]] s'
    /\ @lua_call demo_lib (@Liconv_new demo_lib linux4)
         [LString "UTF-8"; LString "ISO-8859-1"] [] demo_loaded
       = Ok [LUserdata 0] s'
    /\ @is_handle demo_lib s' 0 4096%Z
    /\ descs s' !! 4096%Z = Some (mkMini Latin1_to_UTF8 false)
    /\ forall fuel v inp, @as_string linux4 v = Some inp ->
         @lua_invoke demo_lib linux4 fuel (LFunction F_closure [LUserdata 0]) [v] s'
         = @convert_outcome demo_lib linux4 fuel 4096%Z
             (mkMini Latin1_to_UTF8 false) inp s'.
Proof.
  apply (@module_call_makes_converter demo_lib linux4 demo_loaded 0
           (LString "UTF-8") (LString "ISO-8859-1") "UTF-8" "ISO-8859-1"
           (mkMini Latin1_to_UTF8 false) 2 []);
    by vm_compute.
Defined.

(** X8.  The converter bound to a handle and the [iconv] function called
    on that handle are the same conversion: on a handle that is closed,
    or holds an open descriptor, they return the same values and leave
    the same state, whatever string or number they are given. *)
Theorem converter_and_method_agree `{lib : IconvLib} `{P : Platform}
  (fuel : nat) (s : state) h cd v inp :
  is_handle s h cd -> cd = NULL \/ is_Some (descs s !! cd) ->
  as_string v = Some inp ->
  lua_invoke fuel (LFunction F_closure [LUserdata h]) [v] s
  = lua_invoke fuel (LFunction F_iconv []) [LUserdata h; v] s.
Proof.
  intros Hh Hcd Hv. rewrite invoke_converter, invoke_method.
  destruct (decide (cd = NULL)) as [->|Hn].
  - rewrite (convert_call_closed fuel s h v inp
               (lua_call (Liconv_closure fuel) [v] [LUserdata h]));
      [|done|done|by right].
    symmetry. apply (convert_call_closed fuel s h v inp); [done|done|].
    left. by exists [].
  - destruct Hcd as [?|[st Hst]]; [done|].
    rewrite (convert_call_open fuel s h cd st v inp
               (lua_call (Liconv_closure fuel) [v] [LUserdata h]));
      [|done|done|done|done|by right].
    symmetry. apply (convert_call_open fuel s h cd st v inp); try done.
    left. by exists [].
Qed.

Lemma converter_and_method_agree_witness :
  @lua_invoke demo_lib linux4 5 (LFunction F_closure [LUserdata 0])
    [LString euro] (demo_open "ISO-8859-1" "UTF-8")
  = @lua_invoke demo_lib linux4 5 (LFunction F_iconv [])
      [LUserdata 0; LString euro] (demo_open "ISO-8859-1" "UTF-8").
Proof.
  apply (@converter_and_method_agree demo_lib linux4 5
           (demo_open "ISO-8859-1" "UTF-8") 0 4096%Z (LString euro) euro).
  - exists 2. split; by vm_compute.
  - right. exists (mkMini UTF8_to_Latin1 false). by vm_compute.
  - reflexivity.
Defined.

(** ** The calls of one conversion *)

(** X9.  Converting the empty string on an open handle costs one call of
    [iconv], with the empty input and a scratch chunk of full size, and
    the null call that follows every success: the result is the empty
    string.  (The library does nothing on empty input and returns 0.) *)
Theorem empty_input_is_one_call `{lib : IconvLib} `{P : Platform}
  (fuel : nat) (s : state) h cd st v c :
  conv_empty lib ->
  is_handle s h cd -> cd <> NULL -> descs s !! cd = Some st ->
  as_string v = Some EmptyString ->
  convert_call (S fuel) h v c ->
  exists s' : state,
    c s = Ok [LString EmptyString] s'
    /\ new_events s s'
       = [EvConv cd EmptyString LUAL_BUFFERSIZE
            (lib_conv st EmptyString LUAL_BUFFERSIZE);
          EvReset cd]
    /\ descs s' !! cd = Some (lib_reset st).
Proof.
  intros Hempty Hh Hnull Hcd Hv Hc.
  rewrite (convert_call_open (S fuel) s h cd st v EmptyString c) by done.
  unfold convert_outcome. cbn [loop_run].
  destruct (Hempty st LUAL_BUFFERSIZE) as (Hr0 & _ & Hw & Hst).
  rewrite Hr0, zero_is_not_minus1, zero_is_zero. cbn [negb].
  rewrite Hw, Hst.
  assert (Hb : forall n, luaL_addsize EmptyString EmptyString n = EmptyString)
    by (by intros [|n]).
  rewrite Hb. eexists. split; [reflexivity|]. split.
  - apply new_events_app. cbn. by rewrite <- app_assoc.
  - cbn. apply lookup_insert_eq.
Qed.

Lemma empty_input_is_one_call_witness :
  exists s' : state_of mini_state,
    @lua_call demo_lib (@Liconv_closure demo_lib linux4 1)
      [LString EmptyString] [LUserdata 0] (demo_open "ISO-8859-1" "X-SHIFT7")
    = Ok [LString EmptyString] s'
    /\ @new_events demo_lib (demo_open "ISO-8859-1" "X-SHIFT7") s'
       = [EvConv 4096%Z EmptyString 4
            (@lib_conv demo_lib (mkMini Shift7_to_Latin1 false) EmptyString 4);
          EvReset 4096%Z]
    /\ descs s' !! 4096%Z
       = Some (@lib_reset demo_lib (mkMini Shift7_to_Latin1 false)).
Proof.
  apply (@empty_input_is_one_call demo_lib linux4 0
           (demo_open "ISO-8859-1" "X-SHIFT7") 0 4096%Z
           (mkMini Shift7_to_Latin1 false) (LString EmptyString)).
  - apply mini_empty.
  - exists 2. split; by vm_compute.
  - discriminate.
  - by vm_compute.
  - reflexivity.
  - by right.
Defined.



(** X11.  The string a successful conversion returns is made of the
    bytes written by the calls of [iconv] it made, in the order of the
    calls, and of nothing else: what is collected chunk by chunk is
    neither cut nor repeated where the chunks meet.  The last of the
    calls did not fail, and the descriptor is left in the state the null
    call gives from there.  (The library writes within the room it is
    given.) *)
Theorem converted_output_is_concatenation `{lib : IconvLib} `{P : Platform}
  (fuel : nat) (s s' : state) h cd st v inp c out :
  conv_bounded lib ->
  is_handle s h cd -> cd <> NULL -> descs s !! cd = Some st ->
  as_string v = Some inp ->
  convert_call fuel h v c ->
  c s = Ok [LString out] s' ->
  exists calls last,
    new_events s s' = map (call_event cd) (calls ++ [last]) ++ [EvReset cd]
    /\ out = str_concat (map call_written (calls ++ [last]))
    /\ conv_fails last.2 = false
    /\ descs s' !! cd = Some (lib_reset (cr_state last.2)).
Proof.
  intros Hb Hh Hnull Hcd Hv Hc Hcall.
  rewrite (convert_call_open fuel s h cd st v inp c) in Hcall by done.
  unfold convert_outcome in Hcall.
  destruct (loop_run fuel st inp LUAL_BUFFERSIZE EmptyString)
    as [[e st'] calls] eqn:Hrun.
  pose proof (loop_run_written fuel Hb _ _ _ _ _ _ _ Hrun) as Hw.
  destruct e as [B'|B' err|]; [| |done]; [|discriminate Hcall].
  injection Hcall as <- <-.
  destruct Hw as (-> & calls0 & last & -> & Hf & ->).
  exists calls0, last. split; [|split; [|split]].
  - apply new_events_app. cbn. by rewrite <- app_assoc.
  - done.
  - done.
  - cbn. apply lookup_insert_eq.
Qed.

Lemma converted_output_is_concatenation_witness :
  exists calls last,
    @new_events demo_lib (demo_open "UTF-8" "ISO-8859-1")
      (demo_after (@lua_call demo_lib (@Liconv demo_lib linux4 5)
                     [LUserdata 0; LString demo_latin1] [])
                  (demo_open "UTF-8" "ISO-8859-1"))
    = map (@call_event demo_lib 4096%Z) (calls ++ [last]) ++ [EvReset 4096%Z]
    /\ demo_utf8 = str_concat (map (@call_written demo_lib) (calls ++ [last]))
    /\ @conv_fails demo_lib last.2 = false
    /\ descs (demo_after (@lua_call demo_lib (@Liconv demo_lib linux4 5)
                            [LUserdata 0; LString demo_latin1] [])
                         (demo_open "UTF-8" "ISO-8859-1")) !! 4096%Z
       = Some (@lib_reset demo_lib (cr_state last.2)).
Proof.
  apply (@converted_output_is_concatenation demo_lib linux4 5
           (demo_open "UTF-8" "ISO-8859-1") _ 0 4096%Z
           (mkMini Latin1_to_UTF8 false) (LString demo_latin1) demo_latin1
           (@lua_call demo_lib (@Liconv demo_lib linux4 5)
              [LUserdata 0; LString demo_latin1] [])).
  - apply mini_bounded.
  - exists 2. split; by vm_compute.
  - discriminate.
  - by vm_compute.
  - reflexivity.
  - left. by exists [].
  - vm_compute. reflexivity.
Defined.

(** X12.  A conversion on an open handle comes to an end, and after no
    more calls of [iconv] than the input has bytes, and two: with the
    loop allowed that many rounds or more, the handle method and the
    converter return, both the same values and the same state, whatever
    the allowance.  (The library reads all its input unless it fails,
    does nothing on empty input, and takes at least one character when
    it has a full scratch chunk to write to.) *)
Theorem conversion_ends_within_bound `{lib : IconvLib} `{P : Platform}
  (s : state) h cd st v inp ups :
  conv_done lib -> conv_empty lib -> conv_progress lib P ->
  is_handle s h cd -> cd <> NULL -> descs s !! cd = Some st ->
  as_string v = Some inp ->
  exists rs (s' : state) calls,
    (forall fuel, String.length inp + 2 <= fuel ->
       lua_call (Liconv fuel) [LUserdata h; v] ups s = Ok rs s'
       /\ lua_call (Liconv_closure fuel) [v] [LUserdata h] s = Ok rs s')
    /\ length calls <= String.length inp + 2
    /\ (new_events s s' = map (call_event cd) calls
        \/ new_events s s' = map (call_event cd) calls ++ [EvReset cd]).
Proof.
  intros Hdone Hempty Hprogress Hh Hnull Hcd Hv.
  set (N := String.length inp + 2).
  destruct (loop_run N st inp LUAL_BUFFERSIZE EmptyString)
    as [[e st'] calls] eqn:Hrun.
  pose proof (loop_run_returns Hdone Hempty Hprogress (String.length inp)
                N st inp EmptyString (le_n _) (le_n _)) as Hne.
  rewrite Hrun in Hne. cbn in Hne.
  pose proof (loop_run_count Hdone Hempty Hprogress N st inp EmptyString)
    as Hcount.
  rewrite Hrun in Hcount. cbn in Hcount.
  assert (Hall : forall fuel, N <= fuel ->
            loop_run fuel st inp LUAL_BUFFERSIZE EmptyString = (e, st', calls)).
  { intros fuel Hle. replace fuel with (N + (fuel - N)) by lia.
    by apply loop_run_more_fuel. }
  assert (Hboth : forall fuel r, N <= fuel ->
            convert_outcome fuel cd st inp s = r ->
            lua_call (Liconv fuel) [LUserdata h; v] ups s = r
            /\ lua_call (Liconv_closure fuel) [v] [LUserdata h] s = r).
  { intros fuel r Hle <-. split.
    - apply (convert_call_open fuel s h cd st v inp); try done.
      left. by exists ups.
    - apply (convert_call_open fuel s h cd st v inp); try done. by right. }
  destruct e as [B'|B' e|]; [| |done].
  - eexists _, _, calls. split; [|split; [done|]].
    + intros fuel Hle. apply Hboth; [done|].
      unfold convert_outcome. by rewrite (Hall fuel Hle).
    + right. apply new_events_app. cbn. by rewrite <- app_assoc.
  - eexists _, _, calls. split; [|split; [done|]].
    + intros fuel Hle. apply Hboth; [done|].
      unfold convert_outcome. by rewrite (Hall fuel Hle).
    + left. by apply new_events_app.
Qed.

Lemma conversion_ends_within_bound_witness :
  exists rs (s' : state_of mini_state) calls,
    (forall fuel, String.length demo_latin1 + 2 <= fuel ->
       @lua_call demo_lib (@Liconv demo_lib linux4 fuel)
         [LUserdata 0; LString demo_latin1] [] (demo_open "UTF-8" "ISO-8859-1")
       = Ok rs s'
       /\ @lua_call demo_lib (@Liconv_closure demo_lib linux4 fuel)
            [LString demo_latin1] [LUserdata 0] (demo_open "UTF-8" "ISO-8859-1")
          = Ok rs s')
    /\ length calls <= String.length demo_latin1 + 2
    /\ (@new_events demo_lib (demo_open "UTF-8" "ISO-8859-1") s'
        = map (@call_event demo_lib 4096%Z) calls
        \/ @new_events demo_lib (demo_open "UTF-8" "ISO-8859-1") s'
           = map (@call_event demo_lib 4096%Z) calls ++ [EvReset 4096%Z]).
Proof.
  apply (@conversion_ends_within_bound demo_lib linux4
           (demo_open "UTF-8" "ISO-8859-1") 0 4096%Z
           (mkMini Latin1_to_UTF8 false) (LString demo_latin1) demo_latin1 []).
  - apply mini_done.
  - apply mini_empty.
  - apply mini_progress; [cbn; lia|discriminate|discriminate].
  - exists 2. split; by vm_compute.
  - discriminate.
  - by vm_compute.
  - reflexivity.
Defined.

(** ** Opening *)

Section OpenMore.
Context `{lib : IconvLib} `{P : Platform}.

Lemma c_str_app_nul (t x : string) :
  c_str (t +:+ String Ascii.zero x) = c_str t.
Proof.
  induction t as [|c t IH]; [done|].
  rewrite str_app_cons. cbn [c_str]. by rewrite IH.
Qed.

Lemma Liconv_new_call_c_str (s : state) a1 b1 a2 b2 t1 f1 t2 f2 m ups :
  as_string a1 = Some t1 -> as_string b1 = Some f1 ->
  as_string a2 = Some t2 -> as_string b2 = Some f2 ->
  c_str t1 = c_str t2 -> c_str f1 = c_str f2 ->
  registry s !! ICONV_TYPENAME = Some (LTable m) ->
  lib_alloc (descs s) <> ICONV_T_MINUS1 ->
  lua_call Liconv_new [a1; b1] ups s = lua_call Liconv_new [a2; b2] ups s.
Proof.
  intros Ha1 Hb1 Ha2 Hb2 Et Ef Hr Hm1.
  destruct (lib_open (c_str t1) (c_str f1)) as [st0|e] eqn:Eo.
  - rewrite (Liconv_new_call_opened s a1 b1 t1 f1 st0 m) by done.
    rewrite (Liconv_new_call_opened s a2 b2 t2 f2 st0 m) by congruence.
    by rewrite Et, Ef.
  - rewrite (Liconv_new_call_refused s a1 b1 t1 f1 e) by done.
    rewrite (Liconv_new_call_refused s a2 b2 t2 f2 e) by congruence.
    by rewrite Et, Ef.
Qed.

Lemma index2pos_first (n : nat) : index2pos (S n) 1 = Some 0.
Proof.
  unfold index2pos. cbn [Z.ltb Z.compare].
  destruct (1 <=? Z.of_nat (S n))%Z eqn:E; [done|].
  apply Z.leb_gt in E. lia.
Qed.

Opaque Liconv_new.

Lemma Liconv_open_first (s0 : state) a l :
  stack s0 = a :: l ->
  Liconv_open s0
  = (rets <- Liconv_new ;;
     (if (rets =? 1)%Z then lua_pushcclosure F_closure 1 else ret tt) ;;;
     ret rets)
      (match a with
       | LTable _ => set_stack (fun _ => l) s0
       | _ => s0
       end).
Proof.
  intros Hs. unfold Liconv_open.
  unfold bind at 1, lua_type, gets. cbn [index2value]. rewrite Hs.
  cbn [length]. rewrite index2pos_first. cbn [lookup list_lookup].
  destruct a; cbn [type_of]; unfold bind at 1; try done.
  unfold lua_remove. rewrite Hs. cbn [length]. rewrite index2pos_first.
  f_equal. destruct s0. cbn in Hs. subst. reflexivity.
Qed.

Transparent Liconv_new.

End OpenMore.

(** X13.  The test on the first argument of the function behind the
    module's [__call] only strips the module table: called with the
    table in front, it does what it does when it is called without it on
    the same arguments, whenever the first of these is not a table
    itself. *)
Theorem module_table_is_stripped `{lib : IconvLib} `{P : Platform}
  (s : state) t a rest ups :
  type_of a <> LUA_TTABLE ->
  lua_call Liconv_open (LTable t :: a :: rest) ups s
  = lua_call Liconv_open (a :: rest) ups s.
Proof.
  intros Ha. unfold lua_call.
  rewrite (Liconv_open_first _ (LTable t) (a :: rest)) by done.
  rewrite (Liconv_open_first _ a rest) by done.
  assert (E : set_stack (fun _ => a :: rest)
                (set_upvalues ups
                   (set_stack (fun _ => LTable t :: a :: rest) s))
              = set_upvalues ups (set_stack (fun _ => a :: rest) s)).
  { apply state_ext; by simpl. }
  rewrite E. by destruct a.
Qed.

Lemma module_table_is_stripped_witness :
  @lua_call demo_lib (@Liconv_open demo_lib linux4)
    [LTable 0; LString "UTF-8"; LString "ISO-8859-1"] [] demo_loaded
  = @lua_call demo_lib (@Liconv_open demo_lib linux4)
      [LString "UTF-8"; LString "ISO-8859-1"] [] demo_loaded.
Proof.
  apply (@module_table_is_stripped demo_lib linux4 demo_loaded 0
           (LString "UTF-8") [LString "ISO-8859-1"] []).
  discriminate.
Defined.

(** X14.  [new] reads its two arguments as C strings.  What it does
    depends on a name only through the bytes before the first NUL: two
    calls whose names agree up to there return the same values and leave
    the same state.  So what follows a NUL byte in a name is dropped
    before the library sees it, and a number is passed as its text. *)
Theorem names_are_c_strings `{lib : IconvLib} `{P : Platform}
  (s : state) a b tocode fromcode m ups :
  as_string a = Some tocode -> as_string b = Some fromcode ->
  registry s !! ICONV_TYPENAME = Some (LTable m) ->
  lib_alloc (descs s) <> ICONV_T_MINUS1 ->
  (forall a' b' tocode' fromcode',
     as_string a' = Some tocode' -> as_string b' = Some fromcode' ->
     c_str tocode' = c_str tocode -> c_str fromcode' = c_str fromcode ->
     lua_call Liconv_new [a'; b'] ups s = lua_call Liconv_new [a; b] ups s)
  /\ (forall x y,
        lua_call Liconv_new
          [LString (tocode +:+ String Ascii.zero x);
           LString (fromcode +:+ String Ascii.zero y)] ups s
        = lua_call Liconv_new [a; b] ups s)
  /\ lua_call Liconv_new [LString tocode; LString fromcode] ups s
     = lua_call Liconv_new [a; b] ups s.
Proof.
  intros Ha Hb Hr Hm1.
  assert (Hmain : forall a' b' tocode' fromcode',
     as_string a' = Some tocode' -> as_string b' = Some fromcode' ->
     c_str tocode' = c_str tocode -> c_str fromcode' = c_str fromcode ->
     lua_call Liconv_new [a'; b'] ups s = lua_call Liconv_new [a; b] ups s).
  { intros a' b' tocode' fromcode' Ha' Hb' Et Ef.
    by apply (Liconv_new_call_c_str s a' b' a b tocode' fromcode'
                tocode fromcode m). }
  split; [done|]. split.
  - intros x y. eapply Hmain; try reflexivity; apply c_str_app_nul.
  - by eapply Hmain.
Qed.

Lemma names_are_c_strings_witness :
  (forall a' b' tocode' fromcode',
     @as_string linux4 a' = Some tocode' ->
     @as_string linux4 b' = Some fromcode' ->
     c_str tocode' = c_str "UTF-8" -> c_str fromcode' = c_str "ISO-8859-1" ->
     @lua_call demo_lib (@Liconv_new demo_lib linux4) [a'; b'] [] demo_loaded
     = @lua_call demo_lib (@Liconv_new demo_lib linux4)
         [LString "UTF-8"; LString "ISO-8859-1"] [] demo_loaded)
  /\ (forall x y,
        @lua_call demo_lib (@Liconv_new demo_lib linux4)
          [LString ("UTF-8" +:+ String Ascii.zero x);
           LString ("ISO-8859-1" +:+ String Ascii.zero y)] [] demo_loaded
        = @lua_call demo_lib (@Liconv_new demo_lib linux4)
            [LString "UTF-8"; LString "ISO-8859-1"] [] demo_loaded)
  /\ @lua_call demo_lib (@Liconv_new demo_lib linux4)
       [LString "UTF-8"; LString "ISO-8859-1"] [] demo_loaded
     = @lua_call demo_lib (@Liconv_new demo_lib linux4)
         [LString "UTF-8"; LString "ISO-8859-1"] [] demo_loaded.
Proof.
  apply (@names_are_c_strings demo_lib linux4 demo_loaded
           (LString "UTF-8") (LString "ISO-8859-1") "UTF-8" "ISO-8859-1" 2 []);
    by vm_compute.
Defined.

(** X15.  Handles and open descriptors correspond.  In every state a
    program gets to from the freshly loaded module, a handle that does
    not hold the null pointer holds an open descriptor, and every open
    descriptor is held by one handle and no other, and is not the null
    pointer: as long as blocks are made without failure, no descriptor
    is out of the reach of [delete] and of the collector. *)
Theorem handles_and_descriptors_correspond `{lib : IconvLib} `{P : Platform}
  (s : state) :
  alloc_fresh lib -> reachable s ->
  (forall h cd, is_handle s h cd -> cd <> NULL -> is_Some (descs s !! cd))
  /\ (forall cd, is_Some (descs s !! cd) ->
        cd <> NULL
        /\ exists h, is_handle s h cd
                     /\ forall h', is_handle s h' cd -> h' = h).
Proof.
  intros Hfresh Hr.
  pose proof (reachable_sound s Hfresh Hr) as (m & Hm & Hall & Hinj).
  pose proof (reachable_owned s Hfresh Hr) as Ho.
  split.
  - intros h cd (m' & Hu & _) Hn.
    by destruct (Hall _ _ Hu) as [_ [?|?]].
  - intros cd Hcd. destruct (Ho cd Hcd) as (Hn & h & [cd' meta] & Hu & E).
    cbn in E. subst cd'. split; [done|]. exists h. split.
    + destruct (Hall _ _ Hu) as [Hmeta _]. cbn in Hmeta. subst meta.
      by exists m.
    + intros h' (m' & Hu' & _). by apply (Hinj h' h _ _ Hu' Hu).
Qed.

Lemma handles_and_descriptors_correspond_witness :
  (forall h cd, @is_handle demo_lib demo_two h cd -> cd <> NULL ->
                is_Some (descs demo_two !! cd))
  /\ (forall cd, is_Some (descs demo_two !! cd) ->
        cd <> NULL
        /\ exists h, @is_handle demo_lib demo_two h cd
                     /\ forall h', @is_handle demo_lib demo_two h' cd -> h' = h).
Proof.
  apply (@handles_and_descriptors_correspond demo_lib linux4 demo_two).
  - apply mini_alloc_fresh.
  - apply demo_two_reachable.
Defined.

(** ** A count other than 0 *)

Section Counts.
Context `{lib : IconvLib} `{P : Platform}.

Lemma loop_run_counted (fuel : nat) st inbuf :
  conv_bounded lib -> conv_done lib -> conv_empty lib ->
  let r := lib_conv st inbuf LUAL_BUFFERSIZE in
  let room := LUAL_BUFFERSIZE - String.length (cr_written r) in
  conv_fails r = false ->
  loop_run (S (S fuel)) st inbuf LUAL_BUFFERSIZE EmptyString
  = (LoopDone (cr_written r), cr_state r,
     if (cr_ret r =? 0)%Z
     then [(inbuf, LUAL_BUFFERSIZE, r)]
     else [(inbuf, LUAL_BUFFERSIZE, r);
           (EmptyString, room, lib_conv (cr_state r) EmptyString room)]).
Proof.
  intros Hb Hdone Hempty r room Hf. subst room.
  assert (Hin : cr_inbuf r = EmptyString) by (by apply Hdone).
  cbn [loop_run]. fold r.
  unfold conv_fails in Hf. rewrite Hf.
  rewrite (luaL_addsize_all EmptyString (cr_written r) LUAL_BUFFERSIZE)
    by apply Hb.
  change (EmptyString +:+ cr_written r) with (cr_written r).
  change (size_t_cast 0) with 0%Z.
  destruct (cr_ret r =? 0)%Z eqn:E0; cbn [negb]; [done|].
  rewrite Hin.
  destruct (Hempty (cr_state r)
              (LUAL_BUFFERSIZE - String.length (cr_written r)))
    as (Hr0 & _ & Hw & Hst).
  rewrite Hr0. cbn. rewrite Hw, Hst.
  assert (Hnil : forall n, str_take n EmptyString = EmptyString)
    by (by intros [|n]).
  unfold luaL_addsize. by rewrite Hnil, str_app_nil_r.
Qed.

End Counts.

Lemma subst_run_bounded (P : Platform) inbuf : forall obleft count,
  String.length (cr_written (@subst_run P inbuf obleft count)) <= obleft.
Proof.
  induction inbuf as [|c rest IH]; intros [|room] count; cbn; try lia.
  specialize (IH room (if (byte_val c <? 128)%N then count else (count + 1)%Z)).
  lia.
Qed.

Lemma subst_run_done (P : Platform) inbuf : forall obleft count,
  (cr_ret (@subst_run P inbuf obleft count) =? size_t_cast (-1))%Z = false ->
  cr_inbuf (@subst_run P inbuf obleft count) = EmptyString.
Proof.
  induction inbuf as [|c rest IH]; intros [|room] count; cbn; try done.
  apply IH.
Qed.

Lemma subst_bounded P : conv_bounded (subst_lib P).
Proof. intros st inbuf obleft. apply subst_run_bounded. Qed.

Lemma subst_done P : conv_done (subst_lib P).
Proof. intros st inbuf obleft. apply subst_run_done. Qed.

Lemma subst_empty P : conv_empty (subst_lib P).
Proof. intros [] obleft. by destruct obleft. Qed.

(** X16.  The loop goes on until [iconv] returns 0, not until the input
    is used up.  When the first call converts the whole input without
    failing, the conversion returns what this call wrote; if the call
    returned 0, it is the only one before the null call; if it returned
    a count of conversions that cannot be undone, the loop calls [iconv]
    once more, on the empty rest of the input and with the room left in
    the scratch chunk, before the null call.  (The library writes within
    the room it is given, reads all its input unless it fails, and does
    nothing on empty input.) *)
Theorem count_costs_one_more_call `{lib : IconvLib} `{P : Platform}
  (fuel : nat) (s : state) h cd st v inp c :
  conv_bounded lib -> conv_done lib -> conv_empty lib ->
  is_handle s h cd -> cd <> NULL -> descs s !! cd = Some st ->
  as_string v = Some inp ->
  convert_call (S (S fuel)) h v c ->
  let r := lib_conv st inp LUAL_BUFFERSIZE in
  let room := LUAL_BUFFERSIZE - String.length (cr_written r) in
  conv_fails r = false ->
  exists s' : state,
    c s = Ok [LString (cr_written r)] s'
    /\ new_events s s'
       = if (cr_ret r =? 0)%Z
         then [EvConv cd inp LUAL_BUFFERSIZE r; EvReset cd]
         else [EvConv cd inp LUAL_BUFFERSIZE r;
               EvConv cd EmptyString room
                 (lib_conv (cr_state r) EmptyString room);
               EvReset cd].
Proof.
  intros Hb Hdone Hempty Hh Hnull Hcd Hv Hc r room Hf.
  rewrite (convert_call_open (S (S fuel)) s h cd st v inp c) by done.
  unfold convert_outcome.
  rewrite (loop_run_counted fuel st inp Hb Hdone Hempty Hf).
  fold r. fold room. eexists. split; [reflexivity|].
  apply new_events_app. cbn [trace log after_calls].
  rewrite <- app_assoc. f_equal.
  by destruct (cr_ret r =? 0)%Z.
Qed.

Lemma count_costs_one_more_call_witness :
  let inp := e_acute_latin1 +:+ "a" in
  let r := @lib_conv (subst_lib linux4) tt inp 4 in
  exists s' : state_of unit,
    @lua_call (subst_lib linux4) (@Liconv (subst_lib linux4) linux4 2)
      [LUserdata 0; LString inp] [] subst_open
    = Ok [LString "?a"] s'
    /\ @new_events (subst_lib linux4) subst_open s'
       = [EvConv 4096%Z inp 4 r;
          EvConv 4096%Z EmptyString 2
            (@lib_conv (subst_lib linux4) tt EmptyString 2);
          EvReset 4096%Z].
Proof.
  intros inp r.
  apply (@count_costs_one_more_call (subst_lib linux4) linux4 0 subst_open
           0 4096%Z tt (LString inp) inp
           (@lua_call (subst_lib linux4) (@Liconv (subst_lib linux4) linux4 2)
              [LUserdata 0; LString inp] [])).
  - apply subst_bounded.
  - apply subst_done.
  - apply subst_empty.
  - exists 2. split; by vm_compute.
  - discriminate.
  - by vm_compute.
  - reflexivity.
  - left. by exists [].
  - by vm_compute.
Defined.

(** ** Loading the module *)

Section Loading.
Context `{lib : IconvLib} `{P : Platform}.

Lemma index2value_tail (s : state) args L (k : nat) :
  stack s = args ++ L -> 0 < k <= length L ->
  index2value s (Idx (- Z.of_nat k)) = L !! (length L - k).
Proof.
  intros Hs Hk. unfold index2value. rewrite Hs.
  rewrite index2pos_top by (rewrite length_app; lia).
  rewrite length_app.
  replace (length args + length L - k) with (length args + (length L - k)) by lia.
  by rewrite lookup_app_r, Nat.add_comm, Nat.add_sub by lia.
Qed.

Lemma take_tail {A} (args L : list A) k :
  k <= length L ->
  take (length (args ++ L) - k) (args ++ L) = args ++ take (length L - k) L.
Proof.
  intros Hk. rewrite length_app.
  replace (length args + length L - k) with (length args + (length L - k)) by lia.
  by rewrite take_app_add.
Qed.

Lemma lookup_tail {A} (tb T : list A) i :
  (tb ++ T) !! (length tb + i) = T !! i.
Proof. by rewrite lookup_app_r, Nat.add_comm, Nat.add_sub by lia. Qed.

Lemma run_setfield (i : nat) (k : string) args L t v stk upv ud tb T tbs reg en ds tr :
  stk = args ++ L -> tbs = tb ++ T ->
  2 <= length L ->
  L !! (length L - 2) = Some (LTable (length tb + i)) ->
  L !! (length L - 1) = Some v ->
  T !! i = Some t ->
  lua_setfield (-2) k (mkState _ stk upv ud tbs reg en ds tr)
  = Ok tt (mkState _ (args ++ take (length L - 1) L) upv ud
             (tb ++ <[i := table_set k v t]> T) reg en ds tr).
Proof.
  intros -> -> HL H2 H1 Ht. unfold lua_setfield.
  change (-2)%Z with (- Z.of_nat 2)%Z. change (-1)%Z with (- Z.of_nat 1)%Z.
  rewrite (index2value_tail _ args L 2), (index2value_tail _ args L 1), H2, H1
    by (done || lia).
  cbn [tables stack]. rewrite lookup_tail, Ht.
  unfold set_stack, set_tables. cbn.
  by rewrite take_tail, insert_app_r by lia.
Qed.

Lemma run_push v stk upv ud tbs reg en ds tr args L :
  stk = args ++ L ->
  push v (mkState cdstate stk upv ud tbs reg en ds tr)
  = Ok tt (mkState _ (args ++ (L ++ [v])) upv ud tbs reg en ds tr).
Proof. intros ->. unfold push, modify, set_stack. cbn. by rewrite app_assoc. Qed.

Lemma run_newlib l stk upv ud tbs reg en ds tr :
  luaL_newlib l (mkState cdstate stk upv ud tbs reg en ds tr)
  = Ok tt (mkState _ (stk ++ [LTable (length tbs + 0)]) upv ud
             (tbs ++ [mkTable
                        (foldl (fun m kf => <[fst kf := LFunction (snd kf) []]> m) ∅ l)
                        None])
             reg en ds tr).
Proof. unfold luaL_newlib, set_stack, set_tables. cbn. by rewrite Nat.add_0_r. Qed.

Lemma run_createtable stk upv ud tbs reg en ds tr args L tb T :
  stk = args ++ L -> tbs = tb ++ T ->
  lua_createtable (mkState cdstate stk upv ud tbs reg en ds tr)
  = Ok tt (mkState _ (args ++ (L ++ [LTable (length tb + length T)])) upv ud
             (tb ++ (T ++ [mkTable ∅ None])) reg en ds tr).
Proof.
  intros -> ->. unfold lua_createtable, set_stack, set_tables. cbn.
  by rewrite length_app, !app_assoc.
Qed.

Lemma run_setmetatable (i mt : nat) args L t stk upv ud tb T tbs reg en ds tr :
  stk = args ++ L -> tbs = tb ++ T ->
  2 <= length L ->
  L !! (length L - 2) = Some (LTable (length tb + i)) ->
  L !! (length L - 1) = Some (LTable mt) ->
  T !! i = Some t ->
  lua_setmetatable (-2) (mkState cdstate stk upv ud tbs reg en ds tr)
  = Ok tt (mkState _ (args ++ take (length L - 1) L) upv ud
             (tb ++ <[i := mkTable (t_fields t) (Some mt)]> T) reg en ds tr).
Proof.
  intros -> -> HL H2 H1 Ht. unfold lua_setmetatable.
  change (-2)%Z with (- Z.of_nat 2)%Z. change (-1)%Z with (- Z.of_nat 1)%Z.
  rewrite (index2value_tail _ args L 2), (index2value_tail _ args L 1), H2, H1
    by (done || lia).
  cbn [tables stack meta_of]. rewrite lookup_tail, Ht.
  unfold set_stack, set_tables. cbn.
  by rewrite take_tail, insert_app_r by lia.
Qed.

Lemma run_settable (i : nat) (k : string) args L t v stk upv ud tb T tbs reg en ds tr :
  stk = args ++ L -> tbs = tb ++ T ->
  3 <= length L ->
  L !! (length L - 3) = Some (LTable (length tb + i)) ->
  L !! (length L - 2) = Some (LString k) ->
  L !! (length L - 1) = Some v ->
  T !! i = Some t ->
  lua_settable (-3) (mkState cdstate stk upv ud tbs reg en ds tr)
  = Ok tt (mkState _ (args ++ take (length L - 2) L) upv ud
             (tb ++ <[i := table_set k v t]> T) reg en ds tr).
Proof.
  intros -> -> HL H3 H2 H1 Ht. unfold lua_settable.
  change (-3)%Z with (- Z.of_nat 3)%Z.
  change (-2)%Z with (- Z.of_nat 2)%Z. change (-1)%Z with (- Z.of_nat 1)%Z.
  rewrite (index2value_tail _ args L 3), (index2value_tail _ args L 2),
    (index2value_tail _ args L 1), H3, H2, H1 by (done || lia).
  cbn [tables stack]. rewrite lookup_tail, Ht.
  unfold set_stack, set_tables. cbn.
  by rewrite take_tail, insert_app_r by lia.
Qed.

Lemma run_newmetatable_new tname stk upv ud tbs reg en ds tr args L tb T :
  stk = args ++ L -> tbs = tb ++ T ->
  reg !! tname = None ->
  luaL_newmetatable tname (mkState cdstate stk upv ud tbs reg en ds tr)
  = Ok 1%Z (mkState _ (args ++ (L ++ [LTable (length tb + length T)])) upv ud
              (tb ++ (T ++ [mkTable ∅ None]))
              (<[tname := LTable (length tb + length T)]> reg) en ds tr).
Proof.
  intros -> -> Hr. unfold luaL_newmetatable. cbn [registry]. rewrite Hr.
  unfold set_stack, set_registry, set_tables. cbn.
  by rewrite length_app, !app_assoc.
Qed.

Lemma run_pushvalue (k : nat) v stk upv ud tbs reg en ds tr args L :
  stk = args ++ L -> 0 < k <= length L ->
  L !! (length L - k) = Some v ->
  lua_pushvalue (- Z.of_nat k) (mkState cdstate stk upv ud tbs reg en ds tr)
  = Ok tt (mkState _ (args ++ (L ++ [v])) upv ud tbs reg en ds tr).
Proof.
  intros -> Hk Hv. unfold lua_pushvalue.
  rewrite (index2value_tail _ args L k), Hv by done.
  by apply run_push.
Qed.

Lemma run_pop (k : nat) stk upv ud tbs reg en ds tr args L :
  stk = args ++ L -> k <= length L ->
  lua_pop k (mkState cdstate stk upv ud tbs reg en ds tr)
  = Ok tt (mkState _ (args ++ take (length L - k) L) upv ud tbs reg en ds tr).
Proof.
  intros -> Hk. unfold lua_pop. cbn [stack].
  destruct (k <=? length (args ++ L)) eqn:E.
  - unfold set_stack. cbn. by rewrite take_tail.
  - apply Nat.leb_gt in E. rewrite length_app in E. lia.
Qed.

Lemma module_fields_eq :
  <["VERSION":=LString LIB_VERSION]>
    (<["ERROR_INVALID":=LNumber EINVAL]>
       (<["ERROR_INCOMPLETE":=LNumber EILSEQ]>
          (foldl (fun (m : gmap string lua_value) (kf : string * cfunction) =>
                    <[kf.1:=LFunction kf.2 []]> m)
                 empty iconv_funcs)))
  = module_fields.
Proof.
  apply map_eq. intros k.
  unfold module_fields, iconv_funcs. cbn [foldl fst snd list_to_map foldr].
  destruct (decide (k = "new")) as [->|?]; [by simplify_map_eq|];
  destruct (decide (k = "iconv")) as [->|?]; [by simplify_map_eq|];
  destruct (decide (k = "delete")) as [->|?]; [by simplify_map_eq|];
  destruct (decide (k = "ERROR_INCOMPLETE")) as [->|?]; [by simplify_map_eq|];
  destruct (decide (k = "ERROR_INVALID")) as [->|?]; [by simplify_map_eq|];
  destruct (decide (k = "VERSION")) as [->|?]; by simplify_map_eq.
Qed.

Lemma handle_fields_eq (n : nat) :
  <["__gc":=LFunction F_close []]>
    (<["__index":=LTable n]> (empty : gmap string lua_value))
  = handle_fields n.
Proof.
  apply map_eq. intros k. unfold handle_fields. cbn [list_to_map foldr fst snd].
  destruct (decide (k = "__gc")) as [->|?]; [by simplify_map_eq|];
  destruct (decide (k = "__index")) as [->|?]; by simplify_map_eq.
Qed.

Ltac step L :=
  unfold bind at 1;
  erewrite L by (first [reflexivity | eassumption | cbn; lia]);
  cbv beta iota;
  cbn [length app take Nat.sub Nat.add insert list_insert table_set t_fields t_meta].

Lemma luaopen_iconv_run stk upv ud tbs reg en ds tr :
  reg !! ICONV_TYPENAME = None ->
  luaopen_iconv (mkState cdstate stk upv ud tbs reg en ds tr)
  = Ok 1%Z
      (mkState _ (stk ++ [LTable (length tbs)]) upv ud
         (tbs ++ [mkTable module_fields (Some (length tbs + 1));
                  mkTable {[ "__call" := LFunction F_open [] ]} None;
                  mkTable (handle_fields (length tbs)) None])
         (<[ICONV_TYPENAME := LTable (length tbs + 2)]> reg) en ds tr).
Proof.
  intros Hr. unfold luaopen_iconv.
  step run_newlib.
  step run_createtable.
  unfold lua_pushcfunction, lua_pushinteger, lua_pushliteral, lua_pushstring.
  step run_push.
  step (run_setfield 1).
  step (run_setmetatable 0).
  step run_push.
  step (run_setfield 0).
  step run_push.
  step (run_setfield 0).
  step run_push.
  step run_push.
  step (run_settable 0).
  step run_newmetatable_new.
  change (-2)%Z with (- Z.of_nat 2)%Z at 1.
  step run_pushvalue.
  step (run_setfield 2).
  step run_push.
  step (run_setfield 2).
  step run_pop.
  unfold ret. rewrite Nat.add_0_r.
  by rewrite module_fields_eq, handle_fields_eq.
Qed.


Lemma run_newmetatable_old tname v stk upv ud tbs reg en ds tr args L :
  stk = args ++ L ->
  reg !! tname = Some v ->
  luaL_newmetatable tname (mkState cdstate stk upv ud tbs reg en ds tr)
  = Ok 0%Z (mkState _ (args ++ (L ++ [v])) upv ud tbs reg en ds tr).
Proof.
  intros -> Hr. unfold luaL_newmetatable. cbn [registry]. rewrite Hr.
  unfold set_stack. cbn. by rewrite app_assoc.
Qed.

Lemma run_setfield_old (r : nat) (k : string) args L t v stk upv ud tb T tbs reg en ds tr :
  stk = args ++ L -> tbs = tb ++ T ->
  2 <= length L ->
  L !! (length L - 2) = Some (LTable r) ->
  L !! (length L - 1) = Some v ->
  tb !! r = Some t ->
  lua_setfield (-2) k (mkState cdstate stk upv ud tbs reg en ds tr)
  = Ok tt (mkState _ (args ++ take (length L - 1) L) upv ud
             (<[r := table_set k v t]> tb ++ T) reg en ds tr).
Proof.
  intros -> -> HL H2 H1 Ht. unfold lua_setfield.
  change (-2)%Z with (- Z.of_nat 2)%Z. change (-1)%Z with (- Z.of_nat 1)%Z.
  rewrite (index2value_tail _ args L 2), (index2value_tail _ args L 1), H2, H1
    by (done || lia).
  cbn [tables stack]. rewrite (lookup_app_l_Some _ _ _ _ Ht).
  unfold set_stack, set_tables. cbn.
  rewrite take_tail by lia.
  rewrite insert_app_l; [done|]. apply lookup_lt_is_Some. by eexists.
Qed.

Lemma luaopen_iconv_again stk upv ud tbs reg en ds tr m t :
  reg !! ICONV_TYPENAME = Some (LTable m) -> tbs !! m = Some t ->
  luaopen_iconv (mkState cdstate stk upv ud tbs reg en ds tr)
  = Ok 1%Z
      (mkState _ (stk ++ [LTable (length tbs)]) upv ud
         (<[m := table_set "__gc" (LFunction F_close [])
                   (table_set "__index" (LTable (length tbs)) t)]> tbs
          ++ [mkTable module_fields (Some (length tbs + 1));
              mkTable {[ "__call" := LFunction F_open [] ]} None])
         reg en ds tr).
Proof.
  intros Hr Ht. unfold luaopen_iconv.
  step run_newlib.
  step run_createtable.
  unfold lua_pushcfunction, lua_pushinteger, lua_pushliteral, lua_pushstring.
  step run_push.
  step (run_setfield 1).
  step (run_setmetatable 0).
  step run_push.
  step (run_setfield 0).
  step run_push.
  step (run_setfield 0).
  step run_push.
  step run_push.
  step (run_settable 0).
  step run_newmetatable_old.
  change (-2)%Z with (- Z.of_nat 2)%Z at 1.
  step run_pushvalue.
  step (run_setfield_old m).
  step run_push.
  assert (Hlt : m < length tbs) by (apply lookup_lt_is_Some; by eexists).
  unfold bind at 1.
  erewrite (run_setfield_old m);
    [|reflexivity|reflexivity|cbn; lia|reflexivity|reflexivity
     |by apply list_lookup_insert_eq].
  cbv beta iota.
  cbn [length app take Nat.sub Nat.add insert list_insert table_set t_fields t_meta].
  step run_pop.
  unfold ret. rewrite Nat.add_0_r, list_insert_insert_eq.
  by rewrite module_fields_eq.
Qed.
Lemma lua_call_one (f : M Z) args ups (s s1 : state) v l :
  f (set_upvalues ups (set_stack (fun _ => args) s)) = Ok 1%Z s1 ->
  stack s1 = l ++ [v] ->
  lua_call f args ups s
  = Ok [v] (set_upvalues (upvalues s) (set_stack (fun _ => stack s) s1)).
Proof.
  intros Hf Hs. unfold lua_call. rewrite Hf, Hs.
  rewrite length_app. cbn [length].
  destruct ((0 <=? 1)%Z && (1 <=? Z.of_nat (length l + 1))%Z) eqn:E.
  - replace (length l + 1 - Z.to_nat 1) with (length l) by lia.
    by rewrite drop_app_length.
  - apply andb_false_iff in E as [E|E]; [done|]. apply Z.leb_gt in E. lia.
Qed.

End Loading.

(** X17.  Loading, the first time.  In a Lua state where the name
    [iconv_t] is not registered, whatever else it holds and whatever
    arguments the loader is given, [luaopen_iconv] returns one value, a
    new table, and makes three tables and nothing else: the module
    table, with the three functions, the two error constants and the
    version; its metatable, whose [__call] is the opening function; and
    the metatable of the handles, registered as [iconv_t], whose
    [__index] is the module table and whose [__gc] is [delete].  The
    library is not called.  When no userdata block exists yet, the
    state it leaves keeps the handle discipline. *)
Theorem loading_builds_module `{lib : IconvLib} `{P : Platform}
  (s : state) args ups :
  registry s !! ICONV_TYPENAME = None ->
  let n := length (tables s) in
  let s' :=
    set_registry (insert ICONV_TYPENAME (LTable (n + 2)))
      (set_tables
         (fun tb => tb ++ [mkTable module_fields (Some (n + 1));
                           mkTable {[ "__call" := LFunction F_open [] ]} None;
                           mkTable (handle_fields n) None])
         s) in
  lua_call luaopen_iconv args ups s = Ok [LTable n] s'
  /\ (udatas s = [] -> sound s').
Proof.
  intros Hr n s'. subst n s'. split.
  - destruct s as [stk upv ud tbs reg en ds tr]. cbn in Hr.
    erewrite lua_call_one.
    2:{ unfold set_upvalues, set_stack. cbn. by apply luaopen_iconv_run. }
    2:{ reflexivity. }
    apply (f_equal (Ok _)), state_ext; by simpl.
  - intros Hu. exists (length (tables s) + 2). simpl. rewrite Hu.
    split; [apply lookup_insert_eq|]. by split.
Qed.

Lemma loading_builds_module_witness :
  @lua_call demo_lib (@luaopen_iconv demo_lib linux4)
    [LString "iconv"] [] (@initial_state demo_lib)
  = Ok [LTable 0]
      (@set_registry demo_lib (insert ICONV_TYPENAME (LTable 2))
         (@set_tables demo_lib
            (fun tb => tb ++ [mkTable (@module_fields linux4) (Some 1);
                              mkTable {[ "__call" := LFunction F_open [] ]} None;
                              mkTable (handle_fields 0) None])
            (@initial_state demo_lib)))
  /\ (udatas (@initial_state demo_lib) = [] ->
      @sound demo_lib
        (@set_registry demo_lib (insert ICONV_TYPENAME (LTable 2))
           (@set_tables demo_lib
              (fun tb => tb ++ [mkTable (@module_fields linux4) (Some 1);
                                mkTable {[ "__call" := LFunction F_open [] ]} None;
                                mkTable (handle_fields 0) None])
              (@initial_state demo_lib)))).
Proof.
  apply (@loading_builds_module demo_lib linux4 (@initial_state demo_lib)
           [LString "iconv"] []).
  reflexivity.
Defined.

(** X18.  Loading again.  In a Lua state where [iconv_t] is registered
    already, [luaopen_iconv] makes a new module table and its metatable
    and keeps the registered metatable of the handles, in which it sets
    [__index] to the new module table and [__gc] to [delete] once more.
    The handles made before are handles still, each with the descriptor
    it held, and a state that keeps the handle discipline still keeps
    it; the methods they find are those of the new module table. *)
Theorem loading_again_keeps_handles `{lib : IconvLib} `{P : Platform}
  (s : state) args ups m t :
  registry s !! ICONV_TYPENAME = Some (LTable m) ->
  tables s !! m = Some t ->
  let n := length (tables s) in
  let s' :=
    set_tables
      (fun tb => <[m := table_set "__gc" (LFunction F_close [])
                          (table_set "__index" (LTable n) t)]> tb
                 ++ [mkTable module_fields (Some (n + 1));
                     mkTable {[ "__call" := LFunction F_open [] ]} None])
      s in
  lua_call luaopen_iconv args ups s = Ok [LTable n] s'
  /\ (forall h cd, is_handle s h cd <-> is_handle s' h cd)
  /\ field_of s' (LTable m) "__index" = Some (LTable n)
  /\ field_of s' (LTable m) "__gc" = Some (LFunction F_close [])
  /\ (sound s -> sound s').
Proof.
  intros Hr Ht n s'. subst n s'.
  assert (Hlt : m < length (tables s)) by (apply lookup_lt_is_Some; by eexists).
  split; [|split; [|split; [|split]]].
  - destruct s as [stk upv ud tbs reg en ds tr]. cbn in Hr, Ht, Hlt.
    erewrite lua_call_one.
    2:{ unfold set_upvalues, set_stack. cbn.
        by apply (luaopen_iconv_again _ _ _ _ _ _ _ _ m t). }
    2:{ reflexivity. }
    apply (f_equal (Ok _)), state_ext; by simpl.
  - intros h cd. unfold is_handle. by simpl.
  - unfold field_of. simpl.
    rewrite lookup_app_l by (by rewrite length_insert).
    rewrite list_lookup_insert_eq by done. simpl.
    rewrite lookup_insert_ne by done. apply lookup_insert_eq.
  - unfold field_of. simpl.
    rewrite lookup_app_l by (by rewrite length_insert).
    rewrite list_lookup_insert_eq by done. simpl.
    apply lookup_insert_eq.
  - intros Hs. by apply (sound_frame s).
Qed.

Lemma loading_again_keeps_handles_witness :
  let s := demo_open "UTF-8" "UTF-8" in
  let t := mkTable (handle_fields 0) None in
  let s' :=
    @set_tables demo_lib
      (fun tb => <[2 := table_set "__gc" (LFunction F_close [])
                          (table_set "__index" (LTable 3) t)]> tb
                 ++ [mkTable (@module_fields linux4) (Some 4);
                     mkTable {[ "__call" := LFunction F_open [] ]} None])
      s in
  @lua_call demo_lib (@luaopen_iconv demo_lib linux4) [LString "iconv"] [] s
  = Ok [LTable 3] s'
  /\ (forall h cd, @is_handle demo_lib s h cd <-> @is_handle demo_lib s' h cd)
  /\ @field_of demo_lib s' (LTable 2) "__index" = Some (LTable 3)
  /\ @field_of demo_lib s' (LTable 2) "__gc" = Some (LFunction F_close [])
  /\ (@sound demo_lib s -> @sound demo_lib s').
Proof.
  intros s t s'.
  apply (@loading_again_keeps_handles demo_lib linux4 s [LString "iconv"] [] 2 t);
    by vm_compute.
Defined.

(** ** The conversion, on the stack *)

(** X19.  [Liconv_convert] works on top of the stack, and what it puts
    there is decided by how the conversion ends.  On the null
    descriptor it pushes [nil] and "invalid iconv handle" and returns 2.
    On an open descriptor, when the last call of [iconv] returns 0, it
    pushes the output and returns 1; when the last call fails with an
    error other than [E2BIG], it pushes five values, the output, then
    [nil], the message of the error, a copy of the output, and the error
    code, and returns 4, so that the caller gets the last four.  The
    output is made of the bytes written by all the calls.  What the
    stack held before is left below as it was, and the upvalues, the
    blocks, the tables and the registry are not touched.  (The library
    writes within the room it is given.) *)
Theorem convert_pushes_on_top `{lib : IconvLib} `{P : Platform}
  (fuel : nat) cd st inbuf (s : state) calls last :
  conv_bounded lib ->
  cd <> NULL -> descs s !! cd = Some st ->
  chained st inbuf LUAL_BUFFERSIZE (calls ++ [last]) ->
  (if conv_fails last.2 then cr_errno last.2 <> E2BIG
   else cr_ret last.2 = 0%Z) ->
  length calls < fuel ->
  let out := str_concat (map call_written (calls ++ [last])) in
  let e := cr_errno last.2 in
  (exists s0 : state,
     Liconv_convert fuel NULL inbuf s = Ok 2%Z s0
     /\ pushes s s0 [LNil; LString "invalid iconv handle"])
  /\ exists s' : state,
       Liconv_convert fuel cd inbuf s
       = Ok (if conv_fails last.2 then 4%Z else 1%Z) s'
       /\ pushes s s'
            (if conv_fails last.2
             then [LString out; LNil; LString (strerror e); LString out;
                   LNumber e]
             else [LString out]).
Proof.
  intros Hb Hn Hcd Hch Hend Hfuel out e. split.
  - rewrite Liconv_convert_null. eexists. split; [reflexivity|].
    by repeat apply conj.
  - rewrite (Liconv_convert_run fuel cd st inbuf s Hn Hcd).
    rewrite (loop_run_of_chain Hb calls st inbuf LUAL_BUFFERSIZE EmptyString
               last fuel Hch Hend Hfuel).
    change (EmptyString +:+ str_concat (map call_written (calls ++ [last])))
      with out.
    destruct (conv_fails last.2).
    + eexists. split; [reflexivity|]. by repeat apply conj.
    + eexists. split; [reflexivity|]. by repeat apply conj.
Qed.

Lemma convert_pushes_on_top_witness :
  let s := @set_stack demo_lib (fun _ => [LUserdata 0; LString euro])
             (demo_open "ISO-8859-1" "UTF-8") in
  (exists s0 : state_of mini_state,
     @Liconv_convert demo_lib linux4 5 NULL euro s = Ok 2%Z s0
     /\ @pushes demo_lib s s0 [LNil; LString "invalid iconv handle"])
  /\ exists s' : state_of mini_state,
       @Liconv_convert demo_lib linux4 5 4096%Z euro s = Ok 4%Z s'
       /\ @pushes demo_lib s s'
            [LString EmptyString; LNil;
             LString "Invalid or incomplete multibyte or wide character";
             LString EmptyString; LNumber 84].
Proof.
  intros s.
  apply (@convert_pushes_on_top demo_lib linux4 5 4096%Z
           (mkMini UTF8_to_Latin1 false) euro s []
           (euro, 4, @lib_conv demo_lib (mkMini UTF8_to_Latin1 false) euro 4)).
  - apply mini_bounded.
  - discriminate.
  - by vm_compute.
  - vm_compute. repeat apply conj; try done; lia.
  - vm_compute. discriminate.
  - cbn. lia.
Defined.

(** ** Methods *)

(** X20.  A handle finds its methods.  In every state a program gets to
    from the freshly loaded module, the metatable of a handle is the
    registered one; its [__index] is the module table, where [iconv] is
    the converting function and [delete] the closing one, so that both
    can be called as methods of the handle; and its [__gc] is the
    closing function, so that collecting a handle does what [delete]
    does on it. *)
Theorem handle_finds_its_methods `{lib : IconvLib} `{P : Platform}
  (s : state) h cd :
  alloc_fresh lib -> reachable s -> is_handle s h cd ->
  exists m module,
    udatas s !! h = Some (mkUdata cd (Some m))
    /\ registry s !! ICONV_TYPENAME = Some (LTable m)
    /\ field_of s (LTable m) "__index" = Some module
    /\ field_of s module "iconv" = Some (LFunction F_iconv [])
    /\ field_of s module "delete" = Some (LFunction F_close [])
    /\ forall fuel gc, field_of s (LTable m) "__gc" = Some gc ->
         lua_invoke fuel gc [LUserdata h] s
         = lua_call Liconv_close [LUserdata h] [] s.
Proof.
  intros Hfresh Hr (m & Hu & Hm).
  destruct (reachable_frame s Hfresh Hr) as (_ & _ & E3 & E4).
  assert (Hf : forall v k, field_of s v k = field_of loaded_state v k)
    by (intros v k; unfold field_of; by rewrite E3).
  assert (m = 2) as ->.
  { rewrite E4 in Hm. vm_compute in Hm. by injection Hm as <-. }
  exists 2, (LTable 0). rewrite !Hf.
  split; [done|]. split; [done|].
  split; [by vm_compute|]. split; [by vm_compute|]. split; [by vm_compute|].
  intros fuel gc. vm_compute field_of. by intros [= <-].
Qed.

Lemma handle_finds_its_methods_witness :
  exists m module,
    udatas demo_two !! 1 = Some (mkUdata 4097%Z (Some m))
    /\ registry demo_two !! ICONV_TYPENAME = Some (LTable m)
    /\ @field_of demo_lib demo_two (LTable m) "__index" = Some module
    /\ @field_of demo_lib demo_two module "iconv" = Some (LFunction F_iconv [])
    /\ @field_of demo_lib demo_two module "delete" = Some (LFunction F_close [])
    /\ forall fuel gc,
         @field_of demo_lib demo_two (LTable m) "__gc" = Some gc ->
         @lua_invoke demo_lib linux4 fuel gc [LUserdata 1] demo_two
         = @lua_call demo_lib (@Liconv_close demo_lib) [LUserdata 1] [] demo_two.
Proof.
  apply (@handle_finds_its_methods demo_lib linux4 demo_two 1 4097%Z).
  - apply mini_alloc_fresh.
  - apply demo_two_reachable.
  - exists 2. split; by vm_compute.
Defined.

(** ** A library that makes no progress *)

Section Stalled.
Context `{lib : IconvLib} `{P : Platform}.


End Stalled.



(** ** The list of encodings *)

Lemma listing_index (l : list Listing.value) (L : list Listing.value) tbs (k : nat) :
  0 < k <= length L ->
  Listing.index2value (Listing.mkL (l ++ L) tbs) (- Z.of_nat k) = L !! (length L - k).
Proof.
  intros Hk. unfold Listing.index2value. cbn [Listing.lstack].
  rewrite index2pos_top by (rewrite length_app; lia).
  rewrite length_app.
  replace (length l + length L - k) with (length l + (length L - k)) by lia.
  by rewrite lookup_app_r, Nat.add_comm, Nat.add_sub by lia.
Qed.

Lemma listing_settable l r k v tbs t :
  tbs !! r = Some t ->
  Listing.lua_settable (-3)
    (Listing.mkL (l ++ [Listing.VTable r; Listing.VNumber k; v]) tbs)
  = Some (Listing.mkL (l ++ [Listing.VTable r]) (<[r := <[k := v]> t]> tbs)).
Proof.
  intros Ht. unfold Listing.lua_settable.
  change (-3)%Z with (- Z.of_nat 3)%Z.
  change (-2)%Z with (- Z.of_nat 2)%Z. change (-1)%Z with (- Z.of_nat 1)%Z.
  rewrite !listing_index by (cbn; lia). cbn [length Nat.sub lookup list_lookup].
  cbn [Listing.ltables Listing.lstack]. rewrite Ht. cbn.
  rewrite length_app. cbn [length].
  replace (length l + 3 - 2) with (length l + 1) by lia.
  rewrite take_app_add. done.
Qed.

Lemma int_succ_below (n : Z) :
  (n < Listing.INT_MAX)%Z -> Listing.int_succ n = Some (n + 1)%Z.
Proof.
  intros Hn. unfold Listing.int_succ.
  destruct (n <? Listing.INT_MAX)%Z eqn:E; [done|].
  apply Z.ltb_ge in E. lia.
Qed.

Lemma push_names_run (k : nat) :
  forall i names n l r tbs t,
    tbs !! r = Some t -> i + k <= length names ->
    (n + Z.of_nat k <= Listing.INT_MAX)%Z ->
    (Z.of_nat (i + k) <= Listing.INT_MAX)%Z ->
    Listing.push_names k i names n (Listing.mkL (l ++ [Listing.VTable r]) tbs)
    = Some ((n + Z.of_nat k)%Z,
            Listing.mkL (l ++ [Listing.VTable r])
              (<[r := Listing.numbered (take k (drop i names)) n t]> tbs)).
Proof.
  induction k as [|k IH]; intros i names n l r tbs t Ht Hlen Hn Hi.
  - cbn. rewrite Z.add_0_r, list_insert_id by done. done.
  - cbn [Listing.push_names].
    rewrite int_succ_below by lia. cbn [mbind option_bind].
    destruct (names !! i) as [name|] eqn:En.
    2:{ apply lookup_ge_None in En. lia. }
    cbn [mbind option_bind].
    unfold Listing.lua_pushstring, Listing.lua_pushnumber.
    cbn [Listing.lstack Listing.ltables].
    rewrite <- !app_assoc. cbn [app].
    rewrite (listing_settable l r n (Listing.VString name) tbs t Ht).
    cbn [mbind option_bind].
    rewrite int_succ_below by lia. cbn [mbind option_bind].
    rewrite (IH (S i) names (n + 1)%Z l r _ (<[n := Listing.VString name]> t)).
    + rewrite list_insert_insert_eq.
      rewrite (drop_S names name i En). cbn [take Listing.numbered].
      f_equal. f_equal. lia.
    + apply list_lookup_insert_eq. apply lookup_lt_is_Some. by eexists.
    + lia.
    + lia.
    + lia.
Qed.

Lemma numbered_app a b n t :
  Listing.numbered (a ++ b) n t
  = Listing.numbered b (n + Z.of_nat (length a))%Z (Listing.numbered a n t).
Proof.
  revert n t. induction a as [|x a IH]; intros n t.
  - cbn. by rewrite Z.add_0_r.
  - cbn [app Listing.numbered length]. rewrite IH. f_equal. lia.
Qed.

Lemma numbered_lookup names : forall n t k,
  Listing.numbered names n t !! k
  = if decide (n <= k < n + Z.of_nat (length names))%Z
    then Listing.VString <$> names !! Z.to_nat (k - n)
    else t !! k.
Proof.
  induction names as [|x names IH]; intros n t k.
  - cbn. case_decide; [lia|done].
  - cbn [Listing.numbered length]. rewrite IH.
    destruct (decide (k = n)) as [->|Hne].
    + rewrite decide_False by lia. rewrite decide_True by lia.
      rewrite lookup_insert_eq, Z.sub_diag. done.
    + rewrite lookup_insert_ne by done.
      repeat case_decide; try lia; try done.
      replace (Z.to_nat (k - n)) with (S (Z.to_nat (k - (n + 1)))) by lia.
      done.
Qed.

Lemma listing_remove_top l x tbs :
  Listing.lua_remove (-1) (Listing.mkL (l ++ [x]) tbs) = Some (Listing.mkL l tbs).
Proof.
  unfold Listing.lua_remove. cbn [Listing.lstack Listing.ltables].
  change (-1)%Z with (- Z.of_nat 1)%Z.
  rewrite index2pos_top by (rewrite length_app; cbn; lia).
  cbn [mbind option_bind]. rewrite length_app. cbn [length].
  replace (length l + 1 - 1) with (length l) by lia.
  by rewrite delete_middle, app_nil_r.
Qed.

Lemma listing_tonumber_top l n tbs :
  Listing.lua_tonumber (-1) (Listing.mkL (l ++ [Listing.VNumber n]) tbs) = Some n.
Proof.
  unfold Listing.lua_tonumber. change (-1)%Z with (- Z.of_nat 1)%Z.
  by rewrite listing_index by (cbn; lia).
Qed.

Lemma to_int_in_range (n : Z) :
  (Listing.INT_MIN <= n <= Listing.INT_MAX)%Z -> Listing.to_int n = Some n.
Proof.
  intros Hn. unfold Listing.to_int.
  destruct ((Listing.INT_MIN <=? n) && (n <=? Listing.INT_MAX))%Z eqn:E; [done|].
  apply andb_false_iff in E as [E|E]; apply Z.leb_gt in E; lia.
Qed.

Lemma push_one_run cnt names l r n tbs t :
  tbs !! r = Some t -> cnt <= length names ->
  (Listing.INT_MIN <= n)%Z ->
  (n + Z.of_nat cnt <= Listing.INT_MAX)%Z ->
  (Z.of_nat cnt <= Listing.INT_MAX)%Z ->
  Listing.push_one cnt names
    (Listing.mkL (l ++ [Listing.VTable r; Listing.VNumber n]) tbs)
  = Some (0%Z,
          Listing.mkL (l ++ [Listing.VTable r;
                             Listing.VNumber (n + Z.of_nat cnt)])
            (<[r := Listing.numbered (take cnt names) n t]> tbs)).
Proof.
  intros Ht Hlen Hmin Hn Hcnt. unfold Listing.push_one.
  change (l ++ [Listing.VTable r; Listing.VNumber n])
    with (l ++ [Listing.VTable r] ++ [Listing.VNumber n]).
  rewrite app_assoc, listing_tonumber_top. cbn [mbind option_bind].
  rewrite to_int_in_range by lia. cbn [mbind option_bind].
  rewrite listing_remove_top. cbn [mbind option_bind].
  rewrite (push_names_run cnt 0 names n l r tbs t Ht) by (done || lia).
  cbn [mbind option_bind]. unfold Listing.lua_pushnumber. cbn.
  by rewrite <- app_assoc.
Qed.

Lemma iconvlist_run encodings : forall l r n tbs t,
  tbs !! r = Some t ->
  (0 <= n)%Z ->
  (n + Z.of_nat (length (concat encodings)) <= Listing.INT_MAX)%Z ->
  Listing.iconvlist Listing.push_one encodings
    (Listing.mkL (l ++ [Listing.VTable r; Listing.VNumber n]) tbs)
  = Some (Listing.mkL
            (l ++ [Listing.VTable r;
                   Listing.VNumber (n + Z.of_nat (length (concat encodings)))])
            (<[r := Listing.numbered (concat encodings) n t]> tbs)).
Proof.
  induction encodings as [|names rest IH]; intros l r n tbs t Ht H0 Hn.
  - cbn. by rewrite Z.add_0_r, list_insert_id.
  - cbn [concat] in Hn. rewrite length_app, Nat2Z.inj_add in Hn.
    cbn [Listing.iconvlist].
    rewrite (push_one_run (length names) names l r n tbs t Ht)
      by (done || unfold Listing.INT_MIN; lia).
    cbn [mbind option_bind]. cbn [Z.eqb].
    rewrite (IH l r _ _ (Listing.numbered (take (length names) names) n t)).
    2:{ apply list_lookup_insert_eq. apply lookup_lt_is_Some. by eexists. }
    2:{ lia. }
    2:{ lia. }
    rewrite list_insert_insert_eq, firstn_all.
    cbn [concat]. rewrite numbered_app, length_app.
    by rewrite Nat2Z.inj_add, Z.add_assoc.
Qed.

(** X22.  [Liconvlist] returns one value, a new table that is the array
    of the names the library knows: the names of all encodings, in the
    order in which [iconvlist] hands them to the callback, at the keys
    1, 2, 3, ... without a gap, and nothing else.  The counter that
    [push_one] leaves on the stack is the one the next call of
    [push_one] goes on from, and it is removed at the end; what the
    stack held below is left as it was.  This is so as long as the
    counter, a C [int] that ends at one more than the number of names,
    stays below 2^31. *)
Theorem list_is_numbered (encodings : list (list string)) (s : Listing.lstate) :
  (Z.of_nat (length (concat encodings)) + 1 < 2 ^ 31)%Z ->
  exists t,
    Listing.Liconvlist encodings s
    = Some (1%Z, Listing.mkL
                   (Listing.lstack s ++ [Listing.VTable (length (Listing.ltables s))])
                   (Listing.ltables s ++ [t]))
    /\ (forall i : nat,
          t !! (Z.of_nat i + 1)%Z = Listing.VString <$> concat encodings !! i)
    /\ (forall k, is_Some (t !! k) ->
          (1 <= k <= Z.of_nat (length (concat encodings)))%Z).
Proof.
  intros Hbound.
  destruct s as [stk tbs].
  exists (Listing.numbered (concat encodings) 1 ∅).
  split; [|split].
  - unfold Listing.Liconvlist, Listing.lua_newtable, Listing.lua_pushnumber.
    cbn [Listing.lstack Listing.ltables].
    rewrite <- app_assoc. cbn [app].
    rewrite (iconvlist_run encodings stk (length tbs) 1 (tbs ++ [∅]) ∅);
      [|by apply list_lookup_middle|lia|unfold Listing.INT_MAX; lia].
    cbn [mbind option_bind].
    change (stk ++ [Listing.VTable (length tbs);
                    Listing.VNumber (1 + Z.of_nat (length (concat encodings)))])
      with (stk ++ [Listing.VTable (length tbs)]
                ++ [Listing.VNumber (1 + Z.of_nat (length (concat encodings)))]).
    rewrite app_assoc, listing_remove_top. cbn [mbind option_bind].
    do 3 f_equal.
    rewrite <- (Nat.add_0_r (length tbs)) at 1.
    by rewrite insert_app_r.
  - intros i. rewrite numbered_lookup.
    case_decide as Hi.
    + f_equal. f_equal. lia.
    + rewrite lookup_empty. symmetry.
      destruct (concat encodings !! i) eqn:E; [|done].
      apply lookup_lt_Some in E. lia.
  - intros k. rewrite numbered_lookup.
    case_decide as Hk; [lia|]. rewrite lookup_empty. by intros [? ?].
Qed.

Lemma list_is_numbered_witness :
  let encodings := [["ASCII"; "US-ASCII"]; ["UTF-8"; "UTF8"]; ["ISO-8859-1"]] in
  let s := Listing.mkL [Listing.VString "arg"] [] in
  exists t,
    Listing.Liconvlist encodings s
    = Some (1%Z, Listing.mkL [Listing.VString "arg"; Listing.VTable 0] [t])
    /\ (forall i : nat,
          t !! (Z.of_nat i + 1)%Z = Listing.VString <$> concat encodings !! i)
    /\ (forall k, is_Some (t !! k) ->
          (1 <= k <= Z.of_nat (length (concat encodings)))%Z).
Proof.
  intros encodings s.
  apply (list_is_numbered encodings s).
  cbn. lia.
Defined.

(** X23.  One call of [push_one], on a stack that ends with the table
    and the counter [n], stores the [cnt] names it is given in the
    table at the keys [n], [n + 1], ... and changes no other key; it
    leaves the table and the counter [n + cnt] on the stack, and it
    returns 0, so that [iconvlist] goes on to the next encoding.  This
    is so as long as the counter, a C [int], stays in range: [n] is an
    [int] and [n + cnt] is below 2^31.  At [n = 2^31 - 1] a call with a
    name to store increments the counter past [INT_MAX], and has no
    defined result. *)
Theorem push_one_appends (cnt : nat) names l r n tbs t :
  tbs !! r = Some t -> cnt <= length names ->
  (- 2 ^ 31 <= n)%Z ->
  (n + Z.of_nat cnt < 2 ^ 31)%Z ->
  (Z.of_nat cnt < 2 ^ 31)%Z ->
  (exists t',
     Listing.push_one cnt names
       (Listing.mkL (l ++ [Listing.VTable r; Listing.VNumber n]) tbs)
     = Some (0%Z,
             Listing.mkL (l ++ [Listing.VTable r;
                                Listing.VNumber (n + Z.of_nat cnt)])
               (<[r := t']> tbs))
     /\ (forall i : nat, i < cnt ->
           t' !! (n + Z.of_nat i)%Z = Listing.VString <$> names !! i)
     /\ (forall k, ~ (n <= k < n + Z.of_nat cnt)%Z -> t' !! k = t !! k))
  /\ (0 < cnt ->
      Listing.push_one cnt names
        (Listing.mkL (l ++ [Listing.VTable r; Listing.VNumber (2 ^ 31 - 1)]) tbs)
      = None).
Proof.
  intros Ht Hlen Hmin Hn Hcnt. split.
  - exists (Listing.numbered (take cnt names) n t).
    split; [apply push_one_run; try done;
            unfold Listing.INT_MIN, Listing.INT_MAX; lia|].
    assert (Hl : length (take cnt names) = cnt) by (rewrite length_take; lia).
    split.
    + intros i Hi. rewrite numbered_lookup, Hl.
      rewrite decide_True by lia.
      replace (Z.to_nat (n + Z.of_nat i - n)) with i by lia.
      by rewrite lookup_take_lt.
    + intros k Hk. rewrite numbered_lookup, Hl. by rewrite decide_False.
  - intros Hpos. destruct cnt as [|cnt]; [lia|].
    unfold Listing.push_one.
    change (l ++ [Listing.VTable r; Listing.VNumber (2 ^ 31 - 1)])
      with (l ++ [Listing.VTable r] ++ [Listing.VNumber (2 ^ 31 - 1)]).
    rewrite app_assoc, listing_tonumber_top. cbn [mbind option_bind].
    change (Listing.to_int (2 ^ 31 - 1)) with (Some (2 ^ 31 - 1)%Z).
    cbn [mbind option_bind].
    rewrite listing_remove_top. cbn [mbind option_bind].
    cbn [Listing.push_names].
    change (Listing.int_succ (2 ^ 31 - 1)) with (@None Z).
    reflexivity.
Qed.

Lemma push_one_appends_witness :
  (exists t',
     Listing.push_one 2 ["UTF-8"; "UTF8"]
       (Listing.mkL [Listing.VTable 0; Listing.VNumber 3]
          [{[ 1%Z := Listing.VString "ASCII"; 2%Z := Listing.VString "US-ASCII" ]}])
     = Some (0%Z,
             Listing.mkL [Listing.VTable 0; Listing.VNumber (3 + Z.of_nat 2)]
               (<[0 := t']>
                  [{[ 1%Z := Listing.VString "ASCII";
                      2%Z := Listing.VString "US-ASCII" ]}]))
     /\ (forall i : nat, i < 2 ->
           t' !! (3 + Z.of_nat i)%Z
           = Listing.VString <$> ["UTF-8"; "UTF8"] !! i)
     /\ (forall k, ~ (3 <= k < 3 + Z.of_nat 2)%Z ->
           t' !! k
           = ({[ 1%Z := Listing.VString "ASCII";
                 2%Z := Listing.VString "US-ASCII" ]} : gmap Z Listing.value) !! k))
  /\ (0 < 2 ->
      Listing.push_one 2 ["UTF-8"; "UTF8"]
        (Listing.mkL [Listing.VTable 0; Listing.VNumber (2 ^ 31 - 1)]
           [{[ 1%Z := Listing.VString "ASCII"; 2%Z := Listing.VString "US-ASCII" ]}])
      = None).
Proof.
  apply (push_one_appends 2 ["UTF-8"; "UTF8"] [] 0 3
           [{[ 1%Z := Listing.VString "ASCII"; 2%Z := Listing.VString "US-ASCII" ]}]
           {[ 1%Z := Listing.VString "ASCII"; 2%Z := Listing.VString "US-ASCII" ]}).
  - reflexivity.
  - cbn. lia.
  - lia.
  - lia.
  - lia.
Defined.
